(** * E-commerce analytics engine: a shallow embedding and its properties

    The development follows the analysis scripts of the repository:

    - [scripts/02_ab_testing_analysis.py]   (module [ABTest])
    - [scripts/03_cohort_analysis.py]       (module [Cohort])
    - [scripts/04_rfm_segmentation.py]      (module [RFM])
    - [scripts/05_comprehensive_metrics.py] (module [Aggregator])
    - [dashboards/streamlit_dashboard.py]   (module [Dashboard])
    - [scripts/01_data_preparation.py]      (module [DataPrep])

    Numbers.  The scripts compute with binary64 floating point numbers.
    They are modelled here by [float64]: exact rationals extended with the
    two infinities and NaN.  Rounding and overflow are left out; the
    special values, which decide how the scripts behave on degenerate
    input (a division by zero, a mean of nothing), are kept.  Finite
    results are stored in lowest terms, so that equal numbers are equal
    terms. *)

From Stdlib Require Import ZArith QArith Qabs Qround Qreduction Lia Lqa Bool List.
From stdpp Require Import base option strings list sorting gmap.
Import ListNotations.

Local Open Scope Z_scope.

(* ===================================================================== *)
(** * Numbers                                                             *)
(* ===================================================================== *)

Inductive float64 : Type :=
| Finite (q : Q)
| Infinity (negative : bool)
| NaN.

(** A finite result, in lowest terms. *)
Definition fnum (q : Q) : float64 := Finite (Qred q).

(** Conversion of a Python [int]. *)
Definition of_int (z : Z) : float64 := Finite (inject_Z z).

Definition Qnegb (q : Q) : bool := Qle_bool q 0 && negb (Qeq_bool q 0).
Definition Qltb (a b : Q) : bool := Qle_bool a b && negb (Qeq_bool a b).

Definition fneg (x : float64) : float64 :=
  match x with
  | Finite q => fnum (- q)
  | Infinity s => Infinity (negb s)
  | NaN => NaN
  end.

Definition fadd (x y : float64) : float64 :=
  match x, y with
  | NaN, _ | _, NaN => NaN
  | Finite a, Finite b => fnum (a + b)
  | Infinity s, Finite _ => Infinity s
  | Finite _, Infinity s => Infinity s
  | Infinity s, Infinity t => if Bool.eqb s t then Infinity s else NaN
  end.

Definition fsub (x y : float64) : float64 :=
  match x, y with
  | NaN, _ | _, NaN => NaN
  | Finite a, Finite b => fnum (a - b)
  | Infinity s, Finite _ => Infinity s
  | Finite _, Infinity s => Infinity (negb s)
  | Infinity s, Infinity t => if Bool.eqb s t then NaN else Infinity s
  end.

Definition fmul (x y : float64) : float64 :=
  match x, y with
  | NaN, _ | _, NaN => NaN
  | Finite a, Finite b => fnum (a * b)
  | Infinity s, Finite b | Finite b, Infinity s =>
      if Qeq_bool b 0 then NaN else Infinity (xorb s (Qnegb b))
  | Infinity s, Infinity t => Infinity (xorb s t)
  end.

(** numpy division: a zero divisor gives an infinity, or NaN for [0/0],
    never an exception. *)
Definition fdiv (x y : float64) : float64 :=
  match x, y with
  | NaN, _ | _, NaN => NaN
  | Finite a, Finite b =>
      if Qeq_bool b 0
      then (if Qeq_bool a 0 then NaN else Infinity (Qnegb a))
      else fnum (a / b)
  | Finite _, Infinity _ => Finite 0
  | Infinity s, Finite b => Infinity (xorb s (Qnegb b))
  | Infinity _, Infinity _ => NaN
  end.

(** [x < y]; every comparison with NaN is false. *)
Definition flt (x y : float64) : bool :=
  match x, y with
  | NaN, _ | _, NaN => false
  | Finite a, Finite b => Qltb a b
  | Finite _, Infinity s => negb s
  | Infinity s, Finite _ => s
  | Infinity s, Infinity t => s && negb t
  end.

Definition fgt (x y : float64) : bool := flt y x.

Definition fle (x y : float64) : bool :=
  match x, y with
  | NaN, _ | _, NaN => false
  | Finite a, Finite b => Qle_bool a b
  | Finite _, Infinity s => negb s
  | Infinity s, Finite _ => s
  | Infinity s, Infinity t => s || negb t
  end.

Definition fabs (x : float64) : float64 :=
  match x with
  | Finite q => fnum (Qabs q)
  | Infinity _ => Infinity false
  | NaN => NaN
  end.

Definition is_nan (x : float64) : bool :=
  match x with NaN => true | _ => false end.

Definition is_finite (x : float64) : bool :=
  match x with Finite _ => true | _ => false end.

(** [x] is a finite number, of value [q]. *)
Definition has_value (x : float64) (q : Q) : Prop :=
  match x with
  | Finite q' => (q' == q)%Q
  | _ => False
  end.

(** [np.sqrt], over a square root [sqrtQ] on the non-negative rationals. *)
Definition fsqrt (sqrtQ : Q -> Q) (x : float64) : float64 :=
  match x with
  | Finite q => if Qnegb q then NaN else fnum (sqrtQ q)
  | Infinity false => Infinity false
  | Infinity true => NaN
  | NaN => NaN
  end.

(** A computable square root on the rationals: [steps] rounds of Newton's
    iteration [x := (x + q/x) / 2], started at [(q + 1) / 2]. *)
Fixpoint newton_sqrt (steps : nat) (q x : Q) : Q :=
  match steps with
  | O => x
  | S k => newton_sqrt k q ((x + q / x) / 2)%Q
  end.

Definition sqrt_newton (q : Q) : Q := newton_sqrt 6 q ((q + 1) / 2)%Q.

(** Columns of finite numbers. *)
Definition Qsum (l : list Q) : Q := fold_right Qplus 0%Q l.

(** [Series.sum()]. *)
Definition series_sum (l : list Q) : float64 := fnum (Qsum l).

(** [Series.mean()]: NaN on an empty column. *)
Definition series_mean (l : list Q) : float64 :=
  fdiv (series_sum l) (of_int (Z.of_nat (length l))).

(** [Series.var()], the sample variance ([ddof=1]): NaN below two values. *)
Definition series_var (l : list Q) : float64 :=
  match series_mean l with
  | Finite m =>
      fdiv (fnum (Qsum (map (fun x => (x - m) * (x - m))%Q l)))
           (of_int (Z.of_nat (length l) - 1))
  | _ => NaN
  end.

(** Python exceptions met in the scripts. *)
Inductive exn : Type :=
| KeyError (key : string)
| IndexError
| ValueError (msg : string).

Inductive result (A : Type) : Type :=
| Ok (a : A)
| Raise (e : exn).
Arguments Ok {A} a.
Arguments Raise {A} e.

#[global] Instance result_ret : MRet result := fun A a => Ok a.
#[global] Instance result_bind : MBind result := fun A B k r =>
  match r with
  | Ok a => k a
  | Raise e => Raise e
  end.

(* ===================================================================== *)
(** * A/B test engine ([02_ab_testing_analysis.py])                       *)
(* ===================================================================== *)

Module ABTest.

(** [results['revenue_uplift_pct']] *)
Definition revenue_uplift_pct (control_revenue treatment_revenue : float64)
  : float64 :=
  fmul (fdiv (fsub treatment_revenue control_revenue) control_revenue)
       (of_int 100).

(** [results['roi']] *)
Definition roi (control_revenue treatment_revenue treatment_cost : float64)
  : float64 :=
  if fgt treatment_cost (of_int 0)
  then fmul (fdiv (fsub (fsub treatment_revenue control_revenue)
                        treatment_cost)
                  treatment_cost)
            (of_int 100)
  else of_int 0.

Section EffectSize.
(** [np.sqrt] restricted to the rationals. *)
Variable sqrtQ : Q -> Q.

(** The argument of [np.sqrt] in [cohens_d]. *)
Definition pooled_variance (group1 group2 : list Q) : float64 :=
  let n1 := Z.of_nat (length group1) in
  let n2 := Z.of_nat (length group2) in
  let var1 := series_var group1 in
  let var2 := series_var group2 in
  fdiv (fadd (fmul (of_int (n1 - 1)) var1) (fmul (of_int (n2 - 1)) var2))
       (of_int (n1 + n2 - 2)).

Definition cohens_d (group1 group2 : list Q) : float64 :=
  let pooled_std := fsqrt sqrtQ (pooled_variance group1 group2) in
  fdiv (fsub (series_mean group1) (series_mean group2)) pooled_std.
End EffectSize.

(** ** Significance tests *)




(** [(orders > 1).sum()] *)
Definition repeat_count (orders : list Z) : Z :=
  Z.of_nat (length (List.filter (fun o => 1 <? o) orders)).

Definition contingency_table (control_orders treatment_orders : list Z)
  : (Z * Z) * (Z * Z) :=
  let control_repeat := repeat_count control_orders in
  let treatment_repeat := repeat_count treatment_orders in
  ((control_repeat, Z.of_nat (length control_orders) - control_repeat),
   (treatment_repeat, Z.of_nat (length treatment_orders) - treatment_repeat)).





(** ** Derived figures and the closing recommendation *)

(** The magnitude printed beside Cohen's d:
    ['Small' if abs(d) < 0.5 else 'Medium' if abs(d) < 0.8 else 'Large']. *)
Definition effect_size_label (d : float64) : string :=
  if flt (fabs d) (Finite (5 # 10)) then "Small"
  else if flt (fabs d) (Finite (8 # 10)) then "Medium"
  else "Large".

(** [control_repeat / len(control_customers) * 100] *)
Definition repeat_rate (orders : list Z) : float64 :=
  fmul (fdiv (of_int (repeat_count orders))
             (of_int (Z.of_nat (length orders))))
       (of_int 100).

(** [results['repeat_rate_uplift_pct']] *)
Definition repeat_rate_uplift_pct (control_orders treatment_orders : list Z)
  : float64 :=
  fsub (repeat_rate treatment_orders) (repeat_rate control_orders).

(** The recommendation printed at the end of the script. *)
Definition recommendation (significant_revenue : bool)
    (uplift_pct roi_pct : float64) : string :=
  if significant_revenue && fgt uplift_pct (of_int 0) && fgt roi_pct (of_int 0)
  then "IMPLEMENT"
  else if fgt uplift_pct (of_int 0) && negb significant_revenue
  then "CONTINUE TESTING"
  else "DO NOT IMPLEMENT".

End ABTest.

(* ===================================================================== *)
(** * RFM engine ([04_rfm_segmentation.py])                               *)
(* ===================================================================== *)

Module RFM.

Definition segment_customer (r f m : Z) : string :=
  if (r >=? 4) && (f >=? 4) && (m >=? 4) then "Champions"
  else if (r >=? 3) && (f >=? 4) && (m >=? 3) then "Loyal Customers"
  else if (r >=? 4) && (f >=? 2) && (m >=? 2) then "Potential Loyalist"
  else if (r >=? 4) && (f =? 1) then "New Customers"
  else if (r >=? 3) && (f >=? 2) && (m >=? 2) then "Promising"
  else if (r >=? 3) && (f >=? 3) && (m >=? 3) then "Need Attention"
  else if (r >=? 2) && (r <=? 3) then "About To Sleep"
  else if (r <=? 2) && (f >=? 3) && (m >=? 3) then "At Risk"
  else if (r <=? 2) && (f >=? 4) && (m >=? 4) then "Cannot Lose Them"
  else if (r <=? 2) && (f <=? 2) then "Hibernating"
  else "Lost".

(** The eleven labels that occur in [segment_customer]. *)
Definition segment_labels : list string :=
  [ "Champions"; "Loyal Customers"; "Potential Loyalist"; "New Customers";
    "Promising"; "Need Attention"; "About To Sleep"; "At Risk";
    "Cannot Lose Them"; "Hibernating"; "Lost" ].

(** ** Quintile scores *)

(** The columns of [rfm_data] used by the scoring. *)
Record customer : Type :=
  mkCustomer { Recency : Z; Frequency : Z; Monetary : Q }.

Fixpoint insert_asc (x : Q) (l : list Q) : list Q :=
  match l with
  | [] => [x]
  | y :: l' => if Qle_bool x y then x :: y :: l' else y :: insert_asc x l'
  end.

Definition sort_asc (l : list Q) : list Q := foldr insert_asc [] l.

(** [Series.quantile(p)], by linear interpolation between the two
    closest ranks of the sorted values. *)
Definition quantile (sorted : list Q) (p : Q) : Q :=
  let h := (inject_Z (Z.of_nat (length sorted) - 1) * p)%Q in
  let lo := Qfloor h in
  let v_lo := nth (Z.to_nat lo) sorted 0%Q in
  let v_hi := nth (Z.to_nat lo + 1) sorted v_lo in
  (v_lo + (h - inject_Z lo) * (v_hi - v_lo))%Q.

(** [np.linspace(0, 1, q + 1)] for [q = 5]. *)
Definition quantiles : list Q := [0; 1 # 5; 2 # 5; 3 # 5; 4 # 5; 1]%Q.

(** [algos.unique]: first occurrences, in order. *)
Fixpoint unique (l : list Q) : list Q :=
  match l with
  | [] => []
  | x :: l' => x :: List.filter (fun y => negb (Qeq_bool x y)) (unique l')
  end.

Definition count (f : Q -> bool) (l : list Q) : Z :=
  Z.of_nat (length (List.filter f l)).

(** [bins.searchsorted(v, side='left')] on increasing [bins]. *)
Definition searchsorted_left (bins : list Q) (v : Q) : Z :=
  count (fun b => Qltb b v) bins.

(** The label of one value: bin [ids] (1 for the lowest edge, which is
    included), then [labels[ids - 1]]; a value outside every bin has no
    label and cannot be converted by [astype(int)]. *)
Definition label_of (bins : list Q) (labels : list Z) (v : Q) : result Z :=
  let ids := if Qeq_bool v (nth 0 bins 0%Q) then 1
             else searchsorted_left bins v in
  match (if (ids <=? 0) || (Z.of_nat (length bins) <=? ids) then None
         else labels !! Z.to_nat (ids - 1)) with
  | Some label => Ok label
  | None => Raise (ValueError "Cannot convert float NaN to integer")
  end.

(** [pd.qcut(x, q=5, labels=labels, duplicates='drop').astype(int)],
    after pandas: the six quantiles are the bin edges; duplicate edges
    are dropped (unless only two edges exist); the number of labels is
    then checked against the number of bins left. *)
Definition qcut (x : list Q) (labels : list Z) : result (list Z) :=
  let bins := quantile (sort_asc x) <$> quantiles in
  let unique_bins := unique bins in
  let bins :=
    if (length unique_bins <? length bins)%nat
       && negb (length bins =? 2)%nat
    then unique_bins else bins in
  if negb (Z.of_nat (length labels) =? Z.of_nat (length bins) - 1)
  then Raise (ValueError
                "Bin labels must be one fewer than the number of bin edges")
  else mapM (label_of bins labels) x.

(** [Series.rank(method='first')]: one plus the number of smaller
    values, plus the number of equal values met earlier.  [before] holds
    the values already ranked. *)
Fixpoint rank_first_from (all before rest : list Q) : list Q :=
  match rest with
  | [] => []
  | v :: rest' =>
      inject_Z (1 + count (fun y => Qltb y v) all
                  + count (fun y => Qeq_bool y v) before)
      :: rank_first_from all (v :: before) rest'
  end.

Definition rank_first (x : list Q) : list Q := rank_first_from x [] x.

Definition R_Score (rfm_data : list customer) : result (list Z) :=
  qcut (inject_Z <$> (Recency <$> rfm_data)) [5; 4; 3; 2; 1].

Definition F_Score (rfm_data : list customer) : result (list Z) :=
  qcut (rank_first (inject_Z <$> (Frequency <$> rfm_data))) [1; 2; 3; 4; 5].

Definition M_Score (rfm_data : list customer) : result (list Z) :=
  qcut (rank_first (Monetary <$> rfm_data)) [1; 2; 3; 4; 5].

(** The three score columns and the [Segment] column. *)
Definition rfm_scores (rfm_data : list customer)
  : result (list (Z * Z * Z)) :=
  r ← R_Score rfm_data;
  f ← F_Score rfm_data;
  m ← M_Score rfm_data;
  Ok (zip (zip r f) m).

Definition rfm_segments (rfm_data : list customer) : result (list string) :=
  match rfm_scores rfm_data with
  | Ok scores =>
      Ok ((fun s : Z * Z * Z => segment_customer s.1.1 s.1.2 s.2) <$> scores)
  | Raise e => Raise e
  end.

(** Ten customers, nine of whom bought on the last day of the data:
    their Recency is 1. *)
Definition recent_buyers : list customer :=
  [ mkCustomer 1 3 120; mkCustomer 1 1 15; mkCustomer 1 2 40;
    mkCustomer 1 1 8; mkCustomer 1 5 300; mkCustomer 1 2 55;
    mkCustomer 1 1 20; mkCustomer 1 4 210; mkCustomer 1 1 12;
    mkCustomer 10 2 35 ].

(** Five customers, one with a Monetary value of 0 and one with a
    negative one. *)
Definition with_nonpositive_monetary : list customer :=
  [ mkCustomer 3 2 0; mkCustomer 10 1 (-5); mkCustomer 20 1 30;
    mkCustomer 30 4 100; mkCustomer 40 2 7 ].

(** All Frequency values raised by [df], all Monetary values by [dm]. *)
Definition shift (df : Z) (dm : Q) (c : customer) : customer :=
  mkCustomer (Recency c) (Frequency c + df) (Monetary c + dm)%Q.

(** ** Revenue concentration *)

Fixpoint insert_desc (x : Q) (l : list Q) : list Q :=
  match l with
  | [] => [x]
  | y :: l' => if Qle_bool y x then x :: y :: l' else y :: insert_desc x l'
  end.

(** [sort_values('Monetary', ascending=False)] on the Monetary column. *)
Definition sort_desc (l : list Q) : list Q := foldr insert_desc [] l.

(** [int(len(rfm_sorted) * fraction)].  The fractions 0.2 and 0.1 are
    taken as the rationals 1/5 and 1/10: the binary64 constants lie just
    above them, too close to move the integer part of the product. *)
Definition top_customers (fraction : Q) (rfm_sorted : list Q) : nat :=
  Z.to_nat (Qfloor (inject_Z (Z.of_nat (length rfm_sorted)) * fraction)).

(** [rfm_sorted.iloc[:k]['Monetary'].sum() / rfm_sorted['Monetary'].sum()
    * 100] *)
Definition top_revenue_percent (fraction : Q) (monetary : list Q) : float64 :=
  let rfm_sorted := sort_desc monetary in
  let k := top_customers fraction rfm_sorted in
  let top_revenue := series_sum (take k rfm_sorted) in
  fmul (fdiv top_revenue (series_sum rfm_sorted)) (of_int 100).

Definition top_20_pct_revenue_percent (monetary : list Q) : float64 :=
  top_revenue_percent (2 # 10) monetary.

Definition top_10_pct_revenue_percent (monetary : list Q) : float64 :=
  top_revenue_percent (1 # 10) monetary.

(** The labels some score triple in 1..5 is classified as. *)
Definition reachable_segments : list string :=
  [ "Champions"; "Loyal Customers"; "Potential Loyalist"; "New Customers";
    "Promising"; "About To Sleep"; "At Risk"; "Hibernating"; "Lost" ].

Definition score_in_range (s : Z) : Prop := 1 <= s <= 5.

(** The bin edges computed by [qcut]: the six quantiles of the column. *)
Definition bin_edges (x : list Q) : list Q :=
  quantile (sort_asc x) <$> quantiles.

(** Integer ranks and an integer sort, to reason about [rank_first]: the
    ranks are the integers below taken as numbers, and sorting integers
    taken as numbers is sorting the integers. *)
Fixpoint zrank_from (all before rest : list Q) : list Z :=
  match rest with
  | [] => []
  | v :: rest' =>
      (1 + count (fun y => Qltb y v) all
         + count (fun y => Qeq_bool y v) before)
      :: zrank_from all (v :: before) rest'
  end.

Definition zrank (x : list Q) : list Z := zrank_from x [] x.

Fixpoint insertZ (z : Z) (l : list Z) : list Z :=
  match l with
  | [] => [z]
  | y :: l' => if z <=? y then z :: y :: l' else y :: insertZ z l'
  end.

Definition sortZ (l : list Z) : list Z := foldr insertZ [] l.

(** ** The customer table *)

(** A row of the [transactions] table, with the columns the aggregation
    reads.  [InvoiceDate] is a time stamp in seconds. *)
Record transaction : Type := mkTransaction {
  CustomerID : Z;
  InvoiceNo : string;
  InvoiceDate : Z;
  Revenue : Q
}.

(** [timedelta(days=1)] *)
Definition one_day : Z := 86400.

(** SQL [MAX]: NULL over no row. *)
Definition max_date (dates : list Z) : option Z :=
  match dates with
  | [] => None
  | d :: dates' => Some (foldr Z.max d dates')
  end.

(** [MAX(InvoiceDate)] of the table, plus one day.  An empty table has no
    analysis date. *)
Definition analysis_date (transactions : list transaction) : option Z :=
  (fun d => d + one_day) <$> max_date (InvoiceDate <$> transactions).

(** A row of [rfm_data]: the columns of the SQL aggregation and
    [Recency]. *)
Record rfm_row : Type := mkRow {
  row_CustomerID : Z;
  LastPurchaseDate : Z;
  row_Frequency : nat;
  row_Monetary : Q;
  TotalTransactions : nat;
  AvgTransactionValue : Q;
  row_Recency : Z
}.

(** The rows of one [GROUP BY CustomerID] group. *)
Definition purchases (transactions : list transaction) (c : Z)
  : list transaction :=
  filter (fun t => CustomerID t = c) transactions.

(** [(analysis_date - LastPurchaseDate).dt.days]: whole days, rounded
    down. *)
Definition days_between (later earlier : Z) : Z :=
  (later - earlier) `div` one_day.

(** The aggregates of one customer: [MAX(InvoiceDate)],
    [COUNT(DISTINCT InvoiceNo)], [SUM(Revenue)], [COUNT( * )] and
    [AVG(Revenue)]. *)
Definition aggregate (analysis : Z) (transactions : list transaction)
    (c : Z) : option rfm_row :=
  let rows := purchases transactions c in
  last ← max_date (InvoiceDate <$> rows);
  Some {| row_CustomerID := c;
          LastPurchaseDate := last;
          row_Frequency := length (remove_dups (InvoiceNo <$> rows));
          row_Monetary := Qsum (Revenue <$> rows);
          TotalTransactions := length rows;
          AvgTransactionValue :=
            (Qsum (Revenue <$> rows) / inject_Z (Z.of_nat (length rows)))%Q;
          row_Recency := days_between analysis last |}.

(** [rfm_data], one row per customer of the table.  The order of the
    rows of a [GROUP BY] is not fixed by SQL; here they come in the order
    of the customers' last rows. *)
Definition rfm_data (transactions : list transaction)
  : option (list rfm_row) :=
  analysis ← analysis_date transactions;
  Some (omap (aggregate analysis transactions)
             (remove_dups (CustomerID <$> transactions))).

(** The three columns that are scored. *)
Definition scored_columns (row : rfm_row) : customer :=
  mkCustomer (row_Recency row) (Z.of_nat (row_Frequency row))
             (row_Monetary row).

(** [rfm_data['Historical_CLV'] = rfm_data['Monetary']] *)
Definition Historical_CLV (row : rfm_row) : Q := row_Monetary row.

(** [AvgTransactionValue * Frequency * (R_Score / 5) * 2] *)
Definition Predicted_CLV (row : rfm_row) (r_score : Z) : Q :=
  (AvgTransactionValue row * inject_Z (Z.of_nat (row_Frequency row))
   * (inject_Z r_score / 5) * 2)%Q.

(** Four invoices of three customers over ten days. *)
Definition sample_invoices : list transaction :=
  [ mkTransaction 1 "536365" 0 10;
    mkTransaction 1 "536365" 0 (5 # 2);
    mkTransaction 2 "536370" 90000 20;
    mkTransaction 1 "536400" 400000 4;
    mkTransaction 3 "536512" 864000 7 ].

(** ** Segment summary *)

(** A row of [rfm_data] after the scoring. *)
Record scored_row : Type := mkScored {
  columns : rfm_row;
  r_score : Z;
  f_score : Z;
  m_score : Z
}.

(** [rfm_data.apply(segment_customer, axis=1)] *)
Definition Segment (row : scored_row) : string :=
  segment_customer (r_score row) (f_score row) (m_score row).

(** The order of Python strings, by code points. *)
Definition string_le (a b : string) : Prop := String.leb a b = true.

#[global] Instance string_le_dec (a b : string) : Decision (string_le a b).
Proof. unfold string_le. apply _. Defined.

(** The keys of [groupby('Segment')], sorted. *)
Definition segment_names (rfm_data : list scored_row) : list string :=
  merge_sort string_le (remove_dups (Segment <$> rfm_data)).

Definition segment_group (rfm_data : list scored_row) (s : string)
  : list scored_row :=
  filter (fun row => Segment row = s) rfm_data.

(** A row of [segment_summary]: the aggregated columns. *)
Record summary_row : Type := mkSummary {
  s_Segment : string;
  Customers : nat;
  TotalRevenue : Q;
  AvgFrequency : float64;
  AvgRecency : float64;
  s_AvgTransactionValue : float64
}.

(** [rfm_data.groupby('Segment').agg({...}).reset_index()] *)
Definition segment_summary (rfm_data : list scored_row)
  : list summary_row :=
  (fun s =>
     let g := columns <$> segment_group rfm_data s in
     {| s_Segment := s;
        Customers := length g;
        TotalRevenue := Qsum (row_Monetary <$> g);
        AvgFrequency :=
          series_mean ((fun row => inject_Z (Z.of_nat (row_Frequency row)))
                       <$> g);
        AvgRecency :=
          series_mean ((fun row => inject_Z (row_Recency row)) <$> g);
        s_AvgTransactionValue := series_mean (AvgTransactionValue <$> g) |})
  <$> segment_names rfm_data.

(** [(segment_summary['TotalRevenue']
      / segment_summary['TotalRevenue'].sum()) * 100] *)
Definition RevenuePercent (summary : list summary_row) (row : summary_row)
  : float64 :=
  fmul (fdiv (Finite (TotalRevenue row))
             (series_sum (TotalRevenue <$> summary)))
       (of_int 100).

(** [(segment_summary['Customers']
      / segment_summary['Customers'].sum()) * 100] *)
Definition CustomerPercent (summary : list summary_row) (row : summary_row)
  : float64 :=
  fmul (fdiv (of_int (Z.of_nat (Customers row)))
             (of_int (Z.of_nat (sum_list (Customers <$> summary)))))
       (of_int 100).

(** Four scored customers in three segments. *)
Definition sample_scored : list scored_row :=
  [ mkScored (mkRow 1 400000 2 (33 # 2) 3 (11 # 2) 6) 5 5 5;
    mkScored (mkRow 2 90000 1 20 1 20 9) 2 1 4;
    mkScored (mkRow 3 864000 1 7 1 7 1) 5 4 4;
    mkScored (mkRow 4 100 1 (1 # 2) 1 (1 # 2) 10) 1 1 1 ].

End RFM.

(* ===================================================================== *)
(** * Cohort engine ([03_cohort_analysis.py])                             *)
(* ===================================================================== *)

(** [Series.dropna()] and the mean of what is left, as [DataFrame.mean]
    computes it (missing cells skipped). *)
Definition dropna (l : list float64) : list float64 :=
  filter (fun x => is_nan x = false) l.

Definition fsum (l : list float64) : float64 := foldr fadd (of_int 0) l.

Definition fmean (l : list float64) : float64 :=
  fdiv (fsum l) (of_int (Z.of_nat (length l))).

Module Cohort.

Record date : Type := mkDate { year : Z; month : Z; day : Z }.

Definition date_leb (a b : date) : bool :=
  (year a <? year b)
  || ((year a =? year b)
      && ((month a <? month b)
          || ((month a =? month b) && (day a <=? day b)))).

(** A monthly [pd.Period]: year and month.  ['%Y-%m'] strings carry the
    same two numbers. *)
Definition period : Type := (Z * Z)%type.

Definition to_period (d : date) : period := (year d, month d).

Definition ordinal (p : period) : Z := (p.1 - 1970) * 12 + (p.2 - 1).

Record transaction : Type :=
  mkTransaction { CustomerID : Z; InvoiceDate : date; Revenue : Q }.

(** SQL [MIN(InvoiceDate)] *)
Fixpoint min_date (l : list date) : option date :=
  match l with
  | [] => None
  | d :: l' =>
      match min_date l' with
      | None => Some d
      | Some m => Some (if date_leb d m then d else m)
      end
  end.

(** [customer_cohorts]: one row per customer, with the month of the
    first purchase. *)
Definition FirstPurchaseDate (transactions : list transaction) (c : Z)
  : option date :=
  min_date (InvoiceDate <$> filter (fun t => CustomerID t = c) transactions).

Definition CohortMonth (transactions : list transaction) (c : Z)
  : option period :=
  to_period <$> FirstPurchaseDate transactions c.

(** A transaction after the merge with [customer_cohorts] and the
    computation of [MonthsSinceFirst]. *)
Record cohort_transaction : Type := mkCohortTransaction {
  ct_CustomerID : Z;
  ct_CohortMonth : period;
  ct_MonthsSinceFirst : Z;
  ct_Revenue : Q
}.

Definition get_cohort_period (cohort_date invoice_period : period) : Z :=
  ordinal invoice_period - ordinal cohort_date.

Definition annotate (transactions : list transaction)
  : list cohort_transaction :=
  omap (fun t =>
          cm ← CohortMonth transactions (CustomerID t);
          Some (mkCohortTransaction
                  (CustomerID t) cm
                  (get_cohort_period cm (to_period (InvoiceDate t)))
                  (Revenue t)))
       transactions.

(** Group keys of [groupby(['CohortMonth', 'MonthsSinceFirst'])], in
    increasing order. *)
Definition key : Type := (period * Z)%type.

Definition key_of (r : cohort_transaction) : key :=
  (ct_CohortMonth r, ct_MonthsSinceFirst r).

Definition key_le (a b : key) : Prop :=
  ordinal a.1 < ordinal b.1 \/ (ordinal a.1 = ordinal b.1 /\ a.2 <= b.2).

#[global] Instance key_le_dec (a b : key) : Decision (key_le a b).
Proof. unfold key_le. apply _. Defined.

Definition period_le (a b : period) : Prop := ordinal a <= ordinal b.

#[global] Instance period_le_dec (a b : period) : Decision (period_le a b).
Proof. unfold period_le. apply _. Defined.

Definition group_keys (rows : list cohort_transaction) : list key :=
  merge_sort key_le (remove_dups (key_of <$> rows)).

Definition group (rows : list cohort_transaction) (k : key)
  : list cohort_transaction :=
  filter (fun r => key_of r = k) rows.

Record cohort_row : Type := mkCohortRow {
  row_CohortMonth : period;
  row_MonthsSinceFirst : Z;
  row_Customers : nat;
  row_Revenue : Q
}.

(** ['CustomerID': 'nunique'] *)
Definition nunique_customers (rows : list cohort_transaction) : nat :=
  length (remove_dups (ct_CustomerID <$> rows)).

(** The aggregated row of one group. *)
Definition row_of_key (transactions : list transaction) (k : key)
  : cohort_row :=
  let rows := annotate transactions in
  mkCohortRow k.1 k.2
    (nunique_customers (group rows k))
    (Qsum (ct_Revenue <$> group rows k)).

Definition cohort_data (transactions : list transaction) : list cohort_row :=
  row_of_key transactions <$> group_keys (annotate transactions).

(** The [Customers] entry of a cohort's month 0. *)
Definition size (transactions : list transaction) (c : period) : nat :=
  nunique_customers (group (annotate transactions) (c, 0)).

(** Some transaction falls in cohort [c], [months] months after the
    first purchase. *)
Definition observed (transactions : list transaction)
    (c : period) (months : Z) : Prop :=
  (c, months) ∈ (key_of <$> annotate transactions).

#[global] Instance observed_dec transactions c months :
  Decision (observed transactions c months).
Proof. unfold observed. apply _. Defined.

(** [cohort_sizes]: the rows of month 0. *)
Definition cohort_sizes (transactions : list transaction)
  : list (period * nat) :=
  (fun r => (row_CohortMonth r, row_Customers r))
  <$> filter (fun r => row_MonthsSinceFirst r = 0) (cohort_data transactions).

(** The [CohortSize] column after the left merge: missing (NaN) for a
    cohort without a row in [cohort_sizes]. *)
Definition CohortSize (transactions : list transaction) (c : period)
  : float64 :=
  match list_find (fun s => s.1 = c) (cohort_sizes transactions) with
  | Some (_, (_, n)) => of_int (Z.of_nat n)
  | None => NaN
  end.

Definition RetentionRate (transactions : list transaction) (r : cohort_row)
  : float64 :=
  fmul (fdiv (of_int (Z.of_nat (row_Customers r)))
             (CohortSize transactions (row_CohortMonth r)))
       (of_int 100).

(** [retention_matrix]: the pivot of [RetentionRate].  Rows are the
    cohort months, columns the elapsed months, both increasing; a
    combination without a row in [cohort_data] is NaN. *)
Definition matrix_index (transactions : list transaction) : list period :=
  merge_sort period_le
             (remove_dups (row_CohortMonth <$> cohort_data transactions)).

Definition matrix_columns (transactions : list transaction) : list Z :=
  merge_sort Z.le
             (remove_dups (row_MonthsSinceFirst <$> cohort_data transactions)).

Definition retention_cell (transactions : list transaction)
    (c : period) (months : Z) : float64 :=
  match list_find (fun r => row_CohortMonth r = c
                            /\ row_MonthsSinceFirst r = months)
                  (cohort_data transactions) with
  | Some (_, r) => RetentionRate transactions r
  | None => NaN
  end.

Definition retention_matrix (transactions : list transaction)
  : list (list float64) :=
  (fun c => retention_cell transactions c <$> matrix_columns transactions)
  <$> matrix_index transactions.

(** [retention_matrix[months]]: a column, by label. *)
Definition retention_column (transactions : list transaction) (months : Z)
  : result (list float64) :=
  if decide (months ∈ matrix_columns transactions)
  then Ok ((fun c => retention_cell transactions c months)
           <$> matrix_index transactions)
  else Raise (KeyError "months").

(** One round of the loop that fills [cohort_metrics]: the value stored
    under [month_{months}_avg_retention], if any. *)
Definition month_avg_retention (transactions : list transaction)
    (months : Z) : result (option float64) :=
  column ← retention_column transactions months;
  let retention_values := dropna column in
  if decide (0 < length retention_values)%nat
  then Ok (Some (fmean retention_values))
  else Ok None.

(** [retention_matrix.mean(axis=0)] *)
Definition avg_retention_by_period (transactions : list transaction)
  : list (Z * float64) :=
  (fun months =>
     (months,
      fmean (dropna ((fun c => retention_cell transactions c months)
                     <$> matrix_index transactions))))
  <$> matrix_columns transactions.

(** Three months of purchases by four customers. *)
Definition sample_transactions : list transaction :=
  [ mkTransaction 1 (mkDate 2024 12 5) 10;
    mkTransaction 1 (mkDate 2025 2 3) 20;
    mkTransaction 2 (mkDate 2024 12 9) 5;
    mkTransaction 3 (mkDate 2025 1 2) 7;
    mkTransaction 3 (mkDate 2025 2 2) 7;
    mkTransaction 4 (mkDate 2025 1 20) 1 ].

(** ** The rest of the script *)

(** Calendar months are numbered 1 to 12. *)
Definition valid_date (d : date) : Prop := 1 <= month d <= 12.

(** [customer_cohorts]: one row per customer of the table, with the
    customer's cohort month. *)
Definition customer_cohorts (transactions : list transaction)
  : list (Z * period) :=
  omap (fun c => cm ← CohortMonth transactions c; Some (c, cm))
       (remove_dups (CustomerID <$> transactions)).

(** The loop [for months in range(retention_matrix.shape[1])] that fills
    [cohort_metrics]: one look-up of the column labelled [months] per
    round. *)
Definition cohort_metrics_loop (transactions : list transaction)
  : result (list (option float64)) :=
  mapM (month_avg_retention transactions)
       (seqZ 0 (Z.of_nat (length (matrix_columns transactions)))).

(** [churn_matrix = 100 - retention_matrix] *)
Definition churn_cell (transactions : list transaction)
    (c : period) (months : Z) : float64 :=
  fsub (of_int 100) (retention_cell transactions c months).

(** [churn_matrix.mean(axis=0)] *)
Definition avg_churn_by_period (transactions : list transaction)
  : list (Z * float64) :=
  (fun months =>
     (months,
      fmean (dropna ((fun c => churn_cell transactions c months)
                     <$> matrix_index transactions))))
  <$> matrix_columns transactions.

(** [avg_churn_by_period.iloc[1] if len(avg_churn_by_period) > 1 else 0] *)
Definition baseline_churn (transactions : list transaction) : float64 :=
  match avg_churn_by_period transactions !! 1%nat with
  | Some (_, churn) => churn
  | None => of_int 0
  end.

(** [baseline_churn * 0.86] *)
Definition target_churn (baseline : float64) : float64 :=
  fmul baseline (Finite (86 # 100)).

(** [((baseline_churn - target_churn) / baseline_churn) * 100
     if baseline_churn > 0 else 0] *)
Definition churn_reduction_pct (baseline : float64) : float64 :=
  if fgt baseline (of_int 0)
  then fmul (fdiv (fsub baseline (target_churn baseline)) baseline)
            (of_int 100)
  else of_int 0.

(** Purchases in December and February only: no cohort has a
    transaction one month after its first purchase. *)
Definition gap_transactions : list transaction :=
  [ mkTransaction 1 (mkDate 2024 12 5) 10;
    mkTransaction 1 (mkDate 2025 2 3) 20;
    mkTransaction 2 (mkDate 2024 12 9) 5 ].

(** [cohort_summary['CohortSize'].sum()], printed as 'Total Customers'. *)
Definition total_customers (transactions : list transaction) : nat :=
  sum_list (cohort_sizes transactions).*2.

End Cohort.

(* ===================================================================== *)
(** * Aggregator ([05_comprehensive_metrics.py])                          *)
(* ===================================================================== *)

Module Aggregator.

(** [cohort_metrics.json]: a flat object of numbers. *)
Definition cohort_results_t : Type := gmap string float64.

(** A record of [rfm_metrics.json]['segments']. *)
Record segment_record : Type := mkSegment {
  Segment : string;
  Customers : Z;
  RevenuePercent : float64;
  CustomerPercent : float64
}.

Record rfm_results_t : Type := mkRfmResults {
  segments : list segment_record;
  churn_risk_pct : float64
}.

(** [d.get(key, default)] *)
Definition get (d : cohort_results_t) (k : string) (dflt : float64)
  : float64 :=
  default dflt (d !! k).

(** [comprehensive_metrics['retention']] *)
Record retention_section : Type := mkRetention {
  month_0_retention_pct : float64;
  month_1_retention_pct : float64;
  month_2_retention_pct : float64;
  month_3_retention_pct : float64;
  baseline_churn_pct : float64;
  target_churn_pct : float64;
  churn_reduction_target_pct : float64;
  avg_ltv : float64
}.

Definition retention (cohort_results : cohort_results_t)
  : retention_section :=
  {| month_0_retention_pct :=
       get cohort_results "month_0_avg_retention" (of_int 100);
     month_1_retention_pct :=
       get cohort_results "month_1_avg_retention" (of_int 0);
     month_2_retention_pct :=
       get cohort_results "month_2_avg_retention" (of_int 0);
     month_3_retention_pct :=
       get cohort_results "month_3_avg_retention" (of_int 0);
     baseline_churn_pct :=
       get cohort_results "baseline_month1_churn" (of_int 0);
     target_churn_pct :=
       get cohort_results "target_month1_churn" (of_int 0);
     churn_reduction_target_pct :=
       get cohort_results "churn_reduction_pct" (of_int 14);
     avg_ltv :=
       get cohort_results "month_0_avg_retention" (of_int 0) |}.

(** [comprehensive_metrics['segmentation']] *)
Record segmentation_section : Type := mkSegmentation {
  total_segments : nat;
  top_segment : string;
  top_segment_revenue_pct : float64;
  champions_pct : float64;
  at_risk_pct : float64
}.

(** [next((s['CustomerPercent'] for s in segments
          if s['Segment'] == 'Champions'), 0)] *)
Definition champions_customer_percent (segs : list segment_record)
  : float64 :=
  match list_find (fun s => Segment s = "Champions") segs with
  | Some (_, s) => CustomerPercent s
  | None => of_int 0
  end.

(** [rfm_results['segments'][0]] raises [IndexError] on an empty list. *)
Definition segmentation (rfm_results : rfm_results_t)
  : result segmentation_section :=
  match segments rfm_results with
  | [] => Raise IndexError
  | top :: _ =>
      Ok {| total_segments := length (segments rfm_results);
            top_segment := Segment top;
            top_segment_revenue_pct := RevenuePercent top;
            champions_pct :=
              champions_customer_percent (segments rfm_results);
            at_risk_pct := churn_risk_pct rfm_results |}
  end.

(** The two sections joined on keys of the other engines. *)
Definition comprehensive_metrics
    (cohort_results : cohort_results_t) (rfm_results : rfm_results_t)
  : result (retention_section * segmentation_section) :=
  let r := retention cohort_results in
  s ← segmentation rfm_results;
  Ok (r, s).

(** The output of a cohort run over a single month: the loop stores
    averages for month 0 only. *)
Definition one_month_cohort_results : cohort_results_t :=
  {[ "month_0_avg_retention" := of_int 100;
     "month_0_median_retention" := of_int 100;
     "baseline_month1_churn" := of_int 0;
     "target_month1_churn" := of_int 0;
     "churn_reduction_pct" := of_int 0 ]}.

(** An RFM run that classified nobody as 'Champions'. *)
Definition no_champions_rfm_results : rfm_results_t :=
  {| segments :=
       [ mkSegment "Loyal Customers" 3 (of_int 60) (of_int 30);
         mkSegment "Hibernating" 7 (of_int 40) (of_int 70) ];
     churn_risk_pct := of_int 70 |}.

(** [comprehensive_metrics['ab_testing']['recommendation']] *)
Definition recommendation (revenue_uplift_pct : float64) : string :=
  if flt revenue_uplift_pct (of_int 0) then "Do not implement"
  else "Continue testing".

End Aggregator.

(* ===================================================================== *)
(** * Dashboard ([streamlit_dashboard.py])                                *)
(* ===================================================================== *)

Module Dashboard.

(** The recommendation box of the 'A/B Testing' page, from the
    [ab_testing] section of the consolidated metrics. *)
Definition recommendation (revenue_uplift_pct : float64)
    (statistically_significant : bool) : string :=
  if flt revenue_uplift_pct (of_int 0) then "DO NOT IMPLEMENT"
  else if negb statistically_significant then "CONTINUE TESTING"
  else "IMPLEMENT".

End Dashboard.

(* ===================================================================== *)
(** * Data preparation ([01_data_preparation.py])                         *)
(* ===================================================================== *)

Module DataPrep.

(** A row of the spreadsheet, with the columns the cleaning reads.
    [InvoiceNo] is the column as [astype(str)] gives it; a missing
    [CustomerID] is [None]. *)
Record raw_row : Type := mkRaw {
  InvoiceNo : string;
  CustomerID : option Z;
  Quantity : Z;
  UnitPrice : Q
}.

(** [df['InvoiceNo'].astype(str).str.startswith('C')] *)
Definition cancelled (row : raw_row) : bool :=
  String.prefix "C" (InvoiceNo row).

(** [df[~df['InvoiceNo'].astype(str).str.startswith('C')]] *)
Definition remove_cancelled (df : list raw_row) : list raw_row :=
  filter (fun row => cancelled row = false) df.

(** [df.dropna(subset=['CustomerID'])] *)
Definition drop_missing_customers (df : list raw_row) : list raw_row :=
  filter (fun row => is_Some (CustomerID row)) df.

(** [df[(df['Quantity'] > 0) & (df['UnitPrice'] > 0)]] *)
Definition positive_only (df : list raw_row) : list raw_row :=
  filter (fun row => (0 <? Quantity row) && Qltb 0 (UnitPrice row) = true) df.

(** [df['Revenue'] = df['Quantity'] * df['UnitPrice']] *)
Definition Revenue (row : raw_row) : Q :=
  (inject_Z (Quantity row) * UnitPrice row)%Q.

(** [df['Revenue'].quantile(0.999)]: NaN for a column without values. *)
Definition revenue_threshold (df : list raw_row) : float64 :=
  match df with
  | [] => NaN
  | _ :: _ =>
      Finite (RFM.quantile (RFM.sort_asc (Revenue <$> df)) (999 # 1000))
  end.

(** [df[df['Revenue'] <= revenue_threshold]] *)
Definition remove_outliers (df : list raw_row) : list raw_row :=
  let threshold := revenue_threshold df in
  filter (fun row => fle (Finite (Revenue row)) threshold = true) df.

(** The four cleaning steps in the order of the script. *)
Definition clean (df : list raw_row) : list raw_row :=
  remove_outliers
    (positive_only (drop_missing_customers (remove_cancelled df))).

(** Six rows: a cancellation, a row without customer, a return, a free
    item and two sales. *)
Definition sample_rows : list raw_row :=
  [ mkRaw "C536379" (Some 14527) (-1) (55 # 2);
    mkRaw "536414" None 56 (1 # 2);
    mkRaw "536520" (Some 17850) (-3) 4;
    mkRaw "536544" (Some 13047) 2 0;
    mkRaw "536365" (Some 17850) 6 (51 # 20);
    mkRaw "536367" (Some 13047) 32 (169 # 100) ].

End DataPrep.

(* ===================================================================== *)
(** * Properties                                                          *)
(* ===================================================================== *)

(** ** Rationals and [float64] *)

Lemma Qnegb_true (q : Q) : Qnegb q = true <-> (q < 0)%Q.
Proof.
  unfold Qnegb. rewrite andb_true_iff, negb_true_iff, Qle_bool_iff.
  rewrite <- not_true_iff_false, Qeq_bool_iff. split.
  - intros [Hle Hne]. apply Qle_lteq in Hle as [Hlt | Heq]; [exact Hlt | tauto].
  - intros Hlt. split; [apply Qlt_le_weak, Hlt | intros Heq; rewrite Heq in Hlt; lra].
Qed.

Lemma Qltb_true (a b : Q) : Qltb a b = true <-> (a < b)%Q.
Proof.
  unfold Qltb. rewrite andb_true_iff, negb_true_iff, Qle_bool_iff.
  rewrite <- not_true_iff_false, Qeq_bool_iff. split.
  - intros [Hle Hne]. apply Qle_lteq in Hle as [Hlt | Heq]; [exact Hlt | tauto].
  - intros Hlt. split; [apply Qlt_le_weak, Hlt | intros Heq; rewrite Heq in Hlt; lra].
Qed.

Lemma Qltb_false (a b : Q) : Qltb a b = false <-> (b <= a)%Q.
Proof.
  rewrite <- not_true_iff_false, Qltb_true. split; intros H; lra.
Qed.

Lemma Qeq_bool_false (a b : Q) : Qeq_bool a b = false <-> ~ (a == b)%Q.
Proof. rewrite <- not_true_iff_false, Qeq_bool_iff. tauto. Qed.

Lemma Qpos_nonzero (q : Q) : (0 < q)%Q -> ~ (q == 0)%Q.
Proof. intros Hpos Heq. rewrite Heq in Hpos. exact (Qlt_irrefl 0 Hpos). Qed.

Lemma fnum_ext (a b : Q) : (a == b)%Q -> fnum a = fnum b.
Proof. intros H. unfold fnum. f_equal. apply Qred_complete, H. Qed.

Lemma fdiv_finite (a b : Q) :
  ~ (b == 0)%Q -> fdiv (Finite a) (Finite b) = fnum (a / b).
Proof.
  intros Hb. apply Qeq_bool_false in Hb. simpl. rewrite Hb. reflexivity.
Qed.

Lemma fdiv_finite_zero (a : Q) :
  (a == 0)%Q -> fdiv (fnum a) (Finite (inject_Z 0)) = NaN.
Proof.
  intros Ha. unfold fnum. simpl.
  replace (Qeq_bool (Qred a) 0) with true; [reflexivity |].
  symmetry. apply Qeq_bool_iff. now rewrite Qred_correct.
Qed.

Lemma fsub_fnum (a b : Q) : fsub (fnum a) (fnum b) = fnum (a - b).
Proof. unfold fnum at 1 2. cbn [fsub]. apply fnum_ext. now rewrite !Qred_correct. Qed.

Lemma fneg_fnum (a : Q) : fneg (fnum a) = fnum (- a).
Proof. unfold fnum at 1. cbn [fneg]. apply fnum_ext. now rewrite !Qred_correct. Qed.

Lemma fabs_fnum (a : Q) : fabs (fnum a) = fnum (Qabs a).
Proof. unfold fnum at 1. cbn [fabs]. apply fnum_ext. now rewrite !Qred_correct. Qed.

Lemma fmul_fnum (a b : Q) : fmul (fnum a) (fnum b) = fnum (a * b).
Proof. unfold fnum at 1 2. cbn [fmul]. apply fnum_ext. now rewrite !Qred_correct. Qed.

Lemma fdiv_fnum (a b : Q) :
  ~ (b == 0)%Q -> fdiv (fnum a) (fnum b) = fnum (a / b).
Proof.
  intros Hb. unfold fnum at 1 2. rewrite fdiv_finite by now rewrite Qred_correct.
  apply fnum_ext. now rewrite !Qred_correct.
Qed.

Lemma fsqrt_positive (sqrtQ : Q -> Q) (v : Q) :
  (0 < v)%Q -> fsqrt sqrtQ (Finite v) = fnum (sqrtQ v).
Proof.
  intros Hv. unfold fsqrt.
  replace (Qnegb v) with false; [reflexivity |].
  symmetry. apply not_true_iff_false. rewrite Qnegb_true. lra.
Qed.

Lemma fadd_comm (x y : float64) : fadd x y = fadd y x.
Proof.
  destruct x as [a | s |], y as [b | t |]; simpl; try reflexivity.
  - apply fnum_ext. ring.
  - destruct s, t; reflexivity.
Qed.

Lemma newton_sqrt_pos (steps : nat) (q x : Q) :
  (0 < q)%Q -> (0 < x)%Q -> (0 < newton_sqrt steps q x)%Q.
Proof.
  revert x. induction steps as [| k IH]; intros x Hq Hx; simpl; [exact Hx |].
  apply IH; [exact Hq |].
  assert (Hdiv : (0 < q / x)%Q) by (apply Qlt_shift_div_l; [exact Hx | lra]).
  apply Qlt_shift_div_l; lra.
Qed.

Lemma sqrt_newton_pos (q : Q) : (0 < q)%Q -> (0 < sqrt_newton q)%Q.
Proof.
  intros Hq. unfold sqrt_newton. apply newton_sqrt_pos; [exact Hq |].
  apply Qlt_shift_div_l; lra.
Qed.

Lemma series_mean_finite (l : list Q) :
  (1 <= length l)%nat ->
  series_mean l = fnum (Qred (Qsum l) / inject_Z (Z.of_nat (length l))).
Proof.
  intros Hlen. unfold series_mean, series_sum, of_int, fnum at 1.
  apply fdiv_finite. intros H.
  change 0%Q with (inject_Z 0) in H.
  rewrite inject_Z_injective in H. lia.
Qed.

(** ** A/B test engine *)

(** C7.  Revenue uplift is [(treatment - control) / control * 100], which
    is +10 for a control revenue of 1000 and a treatment revenue of 1100;
    ROI is [(treatment - control - cost) / cost * 100] for a positive
    treatment cost and exactly 0 for a zero cost, where no division takes
    place. *)
Theorem uplift_and_roi_formulas (control treatment cost : Q) :
  (~ (control == 0)%Q ->
   ABTest.revenue_uplift_pct (Finite control) (Finite treatment)
   = fnum ((treatment - control) / control * 100)) /\
  ABTest.revenue_uplift_pct (of_int 1000) (of_int 1100) = of_int 10 /\
  ((0 < cost)%Q ->
   ABTest.roi (Finite control) (Finite treatment) (Finite cost)
   = fnum ((treatment - control - cost) / cost * 100)) /\
  ((cost == 0)%Q ->
   ABTest.roi (Finite control) (Finite treatment) (Finite cost) = of_int 0).
Proof.
  repeat split.
  - intros Hc. unfold ABTest.revenue_uplift_pct, fsub, fnum at 1.
    rewrite fdiv_finite by exact Hc. unfold fnum at 1, of_int, fmul.
    apply fnum_ext. rewrite !Qred_correct. reflexivity.
  - intros Hpos. unfold ABTest.roi, fgt, flt, of_int.
    replace (Qltb (inject_Z 0) cost) with true
      by (symmetry; apply Qltb_true; exact Hpos).
    unfold fsub, fnum at 1 2.
    rewrite fdiv_finite by (apply Qpos_nonzero, Hpos). unfold fnum at 1, fmul.
    apply fnum_ext. rewrite !Qred_correct. reflexivity.
  - intros Hzero. unfold ABTest.roi, fgt, flt, of_int.
    replace (Qltb (inject_Z 0) cost) with false; [reflexivity |].
    symmetry. apply Qltb_false. rewrite Hzero. apply Qle_refl.
Qed.

(** The end-to-end scenario of the specification: control 5000, treatment
    4500, discount cost 600 give an uplift of -10 and an ROI of -550/3
    (-183.33); a zero cost gives an ROI of 0. *)
Lemma uplift_and_roi_formulas_witness :
  ABTest.revenue_uplift_pct (Finite 5000) (Finite 4500) = fnum (-10) /\
  ABTest.roi (Finite 5000) (Finite 4500) (Finite 600) = fnum (-550 # 3) /\
  ABTest.roi (Finite 5000) (Finite 4500) (Finite 0) = of_int 0.
Proof.
  destruct (uplift_and_roi_formulas 5000 4500 600) as (Hu & _ & Hr & _).
  destruct (uplift_and_roi_formulas 5000 4500 0) as (_ & _ & _ & Hz).
  split; [| split].
  - rewrite Hu by discriminate. reflexivity.
  - rewrite Hr by reflexivity. reflexivity.
  - apply Hz. reflexivity.
Defined.

(** C9.  Swapping the two groups negates Cohen's d and keeps its
    magnitude: for two samples of at least two values each, with a
    positive pooled variance, [cohens_d g1 g2] is a finite number and
    [cohens_d g2 g1] is its opposite. *)
Theorem cohens_d_antisymmetric
    (sqrtQ : Q -> Q) (group1 group2 : list Q) (v : Q) :
  (forall x, (0 < x)%Q -> (0 < sqrtQ x)%Q) ->
  (2 <= length group1)%nat ->
  (2 <= length group2)%nat ->
  ABTest.pooled_variance group1 group2 = Finite v ->
  (0 < v)%Q ->
  is_finite (ABTest.cohens_d sqrtQ group1 group2) = true /\
  ABTest.cohens_d sqrtQ group1 group2
  = fneg (ABTest.cohens_d sqrtQ group2 group1) /\
  fabs (ABTest.cohens_d sqrtQ group1 group2)
  = fabs (ABTest.cohens_d sqrtQ group2 group1).
Proof.
  intros Hsqrt Hn1 Hn2 Hpool Hv.
  assert (Hswap : ABTest.pooled_variance group2 group1 = Finite v).
  { rewrite <- Hpool. unfold ABTest.pooled_variance. cbv zeta.
    rewrite fadd_comm. do 3 f_equal. lia. }
  unfold ABTest.cohens_d. cbv zeta. rewrite Hpool, Hswap.
  rewrite !series_mean_finite by lia.
  set (m1 := (Qred (Qsum group1) / inject_Z (Z.of_nat (length group1)))%Q).
  set (m2 := (Qred (Qsum group2) / inject_Z (Z.of_nat (length group2)))%Q).
  rewrite fsqrt_positive by exact Hv. specialize (Hsqrt v Hv).
  assert (Hs : ~ (sqrtQ v == 0)%Q) by (apply Qpos_nonzero, Hsqrt).
  rewrite !fsub_fnum, !fdiv_fnum by exact Hs.
  split; [reflexivity |]. split.
  - rewrite fneg_fnum. apply fnum_ext. field. exact Hs.
  - rewrite !fabs_fnum. apply fnum_ext.
    assert (Hopp : ((m1 - m2) / sqrtQ v == - ((m2 - m1) / sqrtQ v))%Q)
      by (field; exact Hs).
    rewrite Hopp. apply Qabs_opp.
Qed.

(** Groups [0;1;2] and [3;4;5]: pooled variance 1, Cohen's d of -3 one
    way and 3 the other. *)
Lemma cohens_d_antisymmetric_witness :
  ABTest.cohens_d sqrt_newton [0; 1; 2]%Q [3; 4; 5]%Q
  = fneg (ABTest.cohens_d sqrt_newton [3; 4; 5]%Q [0; 1; 2]%Q).
Proof.
  apply (cohens_d_antisymmetric sqrt_newton [0; 1; 2]%Q [3; 4; 5]%Q 1).
  - exact sqrt_newton_pos.
  - simpl. lia.
  - simpl. lia.
  - reflexivity.
  - reflexivity.
Defined.

(** ** RFM engine *)

Lemma score_cases (s : Z) :
  RFM.score_in_range s -> s = 1 \/ s = 2 \/ s = 3 \/ s = 4 \/ s = 5.
Proof. unfold RFM.score_in_range. lia. Qed.

(** C10.  On scores in 1..5 [segment_customer] never answers
    'Need Attention' nor 'Cannot Lose Them': both rules are shadowed by
    earlier ones.  Its answer is one of the nine other labels, and each of
    those nine is the answer for some scores in 1..5. *)
Theorem segment_two_labels_unreachable (r f m : Z) :
  RFM.score_in_range r -> RFM.score_in_range f -> RFM.score_in_range m ->
  RFM.segment_customer r f m <> "Need Attention" /\
  RFM.segment_customer r f m <> "Cannot Lose Them" /\
  In (RFM.segment_customer r f m) RFM.reachable_segments /\
  length RFM.reachable_segments = 9%nat /\
  length RFM.segment_labels = 11%nat /\
  (forall label, In label RFM.reachable_segments ->
     exists r' f' m',
       RFM.score_in_range r' /\ RFM.score_in_range f' /\
       RFM.score_in_range m' /\ RFM.segment_customer r' f' m' = label).
Proof.
  intros Hr Hf Hm.
  assert (Hcases :
    RFM.segment_customer r f m <> "Need Attention" /\
    RFM.segment_customer r f m <> "Cannot Lose Them" /\
    In (RFM.segment_customer r f m) RFM.reachable_segments).
  { apply score_cases in Hr, Hf, Hm.
    destruct Hr as [-> | [-> | [-> | [-> | ->]]]];
    destruct Hf as [-> | [-> | [-> | [-> | ->]]]];
    destruct Hm as [-> | [-> | [-> | [-> | ->]]]];
    (split; [discriminate | split; [discriminate | simpl; tauto]]). }
  destruct Hcases as (Hna & Hcl & Hin).
  repeat (split; [assumption || reflexivity |]).
  intros label Hlabel. unfold RFM.score_in_range.
  simpl in Hlabel.
  destruct Hlabel as [<- | [<- | [<- | [<- | [<- | [<- | [<- | [<- | [<- | []]]]]]]]]].
  - exists 5, 5, 5. repeat split; lia.
  - exists 3, 4, 3. repeat split; lia.
  - exists 4, 2, 2. repeat split; lia.
  - exists 4, 1, 1. repeat split; lia.
  - exists 3, 2, 2. repeat split; lia.
  - exists 2, 1, 1. repeat split; lia.
  - exists 1, 3, 3. repeat split; lia.
  - exists 1, 1, 1. repeat split; lia.
  - exists 1, 3, 1. repeat split; lia.
Qed.

(** Scores (1, 5, 5) meet the 'Cannot Lose Them' thresholds and
    (3, 3, 3) the 'Need Attention' ones; they are classified 'At Risk'
    and 'Promising'. *)
Lemma segment_two_labels_unreachable_witness :
  RFM.segment_customer 1 5 5 <> "Cannot Lose Them" /\
  RFM.segment_customer 3 3 3 <> "Need Attention" /\
  RFM.segment_customer 1 5 5 = "At Risk" /\
  RFM.segment_customer 3 3 3 = "Promising".
Proof.
  assert (H1 : RFM.score_in_range 1) by (unfold RFM.score_in_range; lia).
  assert (H3 : RFM.score_in_range 3) by (unfold RFM.score_in_range; lia).
  assert (H5 : RFM.score_in_range 5) by (unfold RFM.score_in_range; lia).
  destruct (segment_two_labels_unreachable 1 5 5 H1 H5 H5) as (_ & Hcl & _).
  destruct (segment_two_labels_unreachable 3 3 3 H3 H3 H3) as (Hna & _).
  repeat split; [exact Hcl | exact Hna].
Defined.

(** ** Revenue concentration *)

Lemma Qsum_insert_desc (x : Q) (l : list Q) :
  (Qsum (RFM.insert_desc x l) == x + Qsum l)%Q.
Proof.
  induction l as [| y l IH]; simpl; [reflexivity |].
  destruct (Qle_bool y x); simpl; [reflexivity |].
  rewrite IH. ring.
Qed.

Lemma Qsum_sort_desc (l : list Q) : (Qsum (RFM.sort_desc l) == Qsum l)%Q.
Proof.
  induction l as [| x l IH]; simpl; [reflexivity |].
  rewrite Qsum_insert_desc, IH. reflexivity.
Qed.

Lemma Forall_insert_desc (P : Q -> Prop) (x : Q) (l : list Q) :
  P x -> Forall P l -> Forall P (RFM.insert_desc x l).
Proof.
  intros Hx Hl. induction Hl as [| y l Hy Hl IH]; simpl.
  - constructor; [exact Hx | constructor].
  - destruct (Qle_bool y x); repeat constructor; assumption.
Qed.

Lemma Forall_sort_desc (P : Q -> Prop) (l : list Q) :
  Forall P l -> Forall P (RFM.sort_desc l).
Proof.
  intros Hl. induction Hl as [| x l Hx Hl IH]; simpl; [constructor |].
  apply Forall_insert_desc; assumption.
Qed.

Lemma length_insert_desc (x : Q) (l : list Q) :
  length (RFM.insert_desc x l) = S (length l).
Proof.
  induction l as [| y l IH]; simpl; [reflexivity |].
  destruct (Qle_bool y x); simpl; [reflexivity | now rewrite IH].
Qed.

Lemma length_sort_desc (l : list Q) : length (RFM.sort_desc l) = length l.
Proof.
  induction l as [| x l IH]; simpl; [reflexivity |].
  now rewrite length_insert_desc, IH.
Qed.

(** Prefix sums of non-negative numbers grow with the prefix. *)
Lemma Qsum_take_mono (l : list Q) (k k' : nat) :
  Forall (fun x => 0 <= x)%Q l -> (k <= k')%nat ->
  (Qsum (take k l) <= Qsum (take k' l))%Q.
Proof.
  intros Hl. revert k k'.
  induction Hl as [| x l Hx Hl IH]; intros k k' Hk.
  - rewrite !take_nil. apply Qle_refl.
  - destruct k as [| k]; destruct k' as [| k']; simpl; try lia.
    + apply Qle_refl.
    + specialize (IH 0%nat k' ltac:(lia)). rewrite take_0 in IH. simpl in IH. lra.
    + specialize (IH k k' ltac:(lia)). lra.
Qed.

Lemma top_customers_mono (p p' : Q) (l : list Q) :
  (p <= p')%Q -> (RFM.top_customers p l <= RFM.top_customers p' l)%nat.
Proof.
  intros Hp. unfold RFM.top_customers.
  set (n := inject_Z (Z.of_nat (length l))).
  assert (Hn : (0 <= n)%Q).
  { unfold n. change 0%Q with (inject_Z 0). rewrite <- Zle_Qle. lia. }
  assert (Hle : (Qfloor (n * p) <= Qfloor (n * p'))%Z).
  { apply Qfloor_resp_le. rewrite !(Qmult_comm n).
    apply Qmult_le_compat_r; assumption. }
  lia.
Qed.

Lemma fmul_fnum_Finite (a b : Q) : fmul (fnum a) (Finite b) = fnum (a * b).
Proof. unfold fnum at 1. cbn [fmul]. apply fnum_ext. now rewrite !Qred_correct. Qed.

Lemma fle_fnum (a b : Q) : fle (fnum a) (fnum b) = true <-> (a <= b)%Q.
Proof. unfold fnum, fle. now rewrite Qle_bool_iff, !Qred_correct. Qed.

Lemma top_revenue_percent_value (p : Q) (monetary : list Q) :
  (0 < Qsum monetary)%Q ->
  RFM.top_revenue_percent p monetary
  = fnum (Qsum (take (RFM.top_customers p (RFM.sort_desc monetary))
                     (RFM.sort_desc monetary))
          / Qsum (RFM.sort_desc monetary) * inject_Z 100).
Proof.
  intros Htotal. unfold RFM.top_revenue_percent, series_sum, of_int. cbv zeta.
  rewrite fdiv_fnum, fmul_fnum_Finite; [reflexivity |].
  rewrite Qsum_sort_desc. apply Qpos_nonzero, Htotal.
Qed.

(** C8.  When every Monetary value is non-negative and their total is
    positive, the revenue share of the top 20% of customers is at least
    the share of the top 10%. *)
Theorem top_20_share_at_least_top_10 (monetary : list Q) :
  Forall (fun x => 0 <= x)%Q monetary ->
  (0 < Qsum monetary)%Q ->
  fle (RFM.top_10_pct_revenue_percent monetary)
      (RFM.top_20_pct_revenue_percent monetary) = true.
Proof.
  intros Hnonneg Htotal.
  unfold RFM.top_10_pct_revenue_percent, RFM.top_20_pct_revenue_percent.
  rewrite !top_revenue_percent_value by exact Htotal.
  apply fle_fnum.
  set (sorted := RFM.sort_desc monetary).
  assert (Hsum : (0 < Qsum sorted)%Q) by (unfold sorted; now rewrite Qsum_sort_desc).
  assert (Hprefix :
    (Qsum (take (RFM.top_customers (1 # 10) sorted) sorted)
     <= Qsum (take (RFM.top_customers (2 # 10) sorted) sorted))%Q).
  { apply Qsum_take_mono.
    - apply Forall_sort_desc, Hnonneg.
    - apply top_customers_mono. discriminate. }
  apply Qmult_le_compat_r; [| discriminate].
  apply Qmult_le_compat_r; [exact Hprefix |].
  apply Qlt_le_weak, Qinv_lt_0_compat, Hsum.
Qed.

(** Ten customers spending 100, 200, ..., 1000: the best one brings
    1000/5500 of the revenue, the best two 1900/5500. *)
Lemma top_20_share_at_least_top_10_witness :
  let monetary := [100; 200; 300; 400; 500; 600; 700; 800; 900; 1000]%Q in
  RFM.top_10_pct_revenue_percent monetary = fnum (200 # 11) /\
  RFM.top_20_pct_revenue_percent monetary = fnum (380 # 11) /\
  fle (RFM.top_10_pct_revenue_percent monetary)
      (RFM.top_20_pct_revenue_percent monetary) = true.
Proof.
  intros monetary. split; [reflexivity | split; [reflexivity |]].
  apply (top_20_share_at_least_top_10 monetary).
  - unfold monetary. repeat constructor; discriminate.
  - reflexivity.
Defined.

(** ** Cohort engine *)

Lemma length_omap_total {A B} (f : A -> option B) (l : list A) :
  (forall x, x ∈ l -> is_Some (f x)) -> length (omap f l) = length l.
Proof.
  induction l as [| x l IH]; intros Hall; [reflexivity |].
  destruct (Hall x ltac:(left)) as [y Hy]. cbn. rewrite Hy. cbn.
  f_equal. apply IH. intros x' Hx'. apply Hall. now right.
Qed.

Section CohortFacts.
Import Cohort.
Variable transactions : list transaction.
Local Abbreviation rows := (annotate transactions).
Local Abbreviation row_of_key := (row_of_key transactions).
Local Abbreviation size := (size transactions).

Lemma min_date_elem (l : list date) (d : date) :
  min_date l = Some d -> d ∈ l.
Proof.
  revert d. induction l as [| x l IH]; intros d; simpl; [discriminate |].
  destruct (min_date l) as [m |].
  - intros [= <-]. destruct (date_leb x m); [left | right; apply IH; reflexivity].
  - intros [= <-]. left.
Qed.

Lemma min_date_is_Some (l : list date) : l <> [] -> is_Some (min_date l).
Proof.
  destruct l as [| x l]; [congruence |]. intros _. simpl.
  destruct (min_date l); eauto.
Qed.

(** Every customer of the table has a first purchase, which is one of
    the customer's own transactions. *)
Lemma first_purchase_is_a_transaction (t : transaction) :
  t ∈ transactions ->
  exists t0, t0 ∈ transactions /\ CustomerID t0 = CustomerID t /\
             FirstPurchaseDate transactions (CustomerID t)
             = Some (InvoiceDate t0).
Proof.
  intros Ht. unfold FirstPurchaseDate.
  set (own := filter (fun t' => CustomerID t' = CustomerID t) transactions).
  assert (Hown : t ∈ own) by (apply list_elem_of_filter; auto).
  destruct (min_date_is_Some (InvoiceDate <$> own)) as [d Hd].
  { intros Hnil. apply fmap_nil_inv in Hnil. rewrite Hnil in Hown.
    inversion Hown. }
  pose proof (min_date_elem _ _ Hd) as Hin.
  apply list_elem_of_fmap in Hin as (t0 & -> & Ht0).
  apply list_elem_of_filter in Ht0 as [Hc Ht0].
  exists t0. auto.
Qed.

Lemma elem_of_annotate (r : cohort_transaction) :
  r ∈ rows <->
  exists t cm, t ∈ transactions /\
    CohortMonth transactions (CustomerID t) = Some cm /\
    r = mkCohortTransaction (CustomerID t) cm
          (get_cohort_period cm (to_period (InvoiceDate t))) (Revenue t).
Proof.
  unfold rows, annotate. rewrite list_elem_of_omap. split.
  - intros (t & Ht & Hr). exists t.
    destruct (CohortMonth transactions (CustomerID t)) as [cm |];
      simpl in Hr; [| discriminate].
    exists cm. injection Hr as <-. auto.
  - intros (t & cm & Ht & Hcm & ->). exists t. split; [exact Ht |].
    rewrite Hcm. reflexivity.
Qed.

(** No transaction is lost by the merge. *)
Lemma length_annotate : length rows = length transactions.
Proof.
  unfold rows, annotate.
  assert (Hall : forall t, t ∈ transactions ->
                   is_Some (CohortMonth transactions (CustomerID t))).
  { intros t Ht.
    destruct (first_purchase_is_a_transaction t Ht) as (t0 & _ & _ & Hfp).
    unfold CohortMonth. rewrite Hfp. eauto. }
  apply length_omap_total. intros t Ht.
  destruct (Hall t Ht) as [cm Hcm]. rewrite Hcm. cbn. eauto.
Qed.

(** The customer of any annotated transaction also has one in month 0
    of the same cohort: the first purchase. *)
Lemma month_0_transaction (r : cohort_transaction) :
  r ∈ rows ->
  exists r0, r0 ∈ rows /\ ct_CustomerID r0 = ct_CustomerID r /\
             key_of r0 = (ct_CohortMonth r, 0).
Proof.
  intros Hr. apply elem_of_annotate in Hr as (t & cm & Ht & Hcm & ->).
  destruct (first_purchase_is_a_transaction t Ht) as (t0 & Ht0 & Hc & Hfp).
  assert (Hcm0 : cm = to_period (InvoiceDate t0)).
  { unfold CohortMonth in Hcm. rewrite Hfp in Hcm. now injection Hcm. }
  exists (mkCohortTransaction (CustomerID t0) cm
            (get_cohort_period cm (to_period (InvoiceDate t0))) (Revenue t0)).
  split; [| split].
  - apply elem_of_annotate. exists t0, cm. rewrite Hc. auto.
  - exact Hc.
  - unfold key_of, get_cohort_period. simpl. rewrite <- Hcm0. f_equal. lia.
Qed.

Lemma elem_of_group_keys (k : key) :
  k ∈ group_keys rows <-> exists r, r ∈ rows /\ key_of r = k.
Proof.
  unfold group_keys. rewrite merge_sort_Permutation, elem_of_remove_dups.
  rewrite list_elem_of_fmap. split; intros (r & H1 & H2); exists r; auto.
Qed.

Lemma elem_of_cohort_data (row : cohort_row) :
  row ∈ cohort_data transactions <->
  exists k, k ∈ group_keys rows /\ row = row_of_key k.
Proof.
  unfold cohort_data. rewrite list_elem_of_fmap.
  split; intros (k & H1 & H2); exists k; auto.
Qed.

Lemma row_is_row_of_key (row : cohort_row) :
  row ∈ cohort_data transactions ->
  row = row_of_key (row_CohortMonth row, row_MonthsSinceFirst row).
Proof.
  intros Hrow. apply elem_of_cohort_data in Hrow as ([c e] & _ & ->).
  reflexivity.
Qed.

Lemma nunique_positive (g : list cohort_transaction) (r : cohort_transaction) :
  r ∈ g -> (0 < nunique_customers g)%nat.
Proof.
  intros Hr. unfold nunique_customers.
  assert (Hin : ct_CustomerID r ∈ remove_dups (ct_CustomerID <$> g)).
  { apply elem_of_remove_dups, list_elem_of_fmap. eauto. }
  destruct (remove_dups (ct_CustomerID <$> g)); [inversion Hin | simpl; lia].
Qed.

Lemma group_keys_month_0 (c : period) (e : Z) :
  (c, e) ∈ group_keys rows -> (c, 0) ∈ group_keys rows.
Proof.
  rewrite !elem_of_group_keys. intros (r & Hr & Hk).
  destruct (month_0_transaction r Hr) as (r0 & Hr0 & _ & Hk0).
  exists r0. split; [exact Hr0 |]. rewrite Hk0.
  unfold key_of in Hk. now injection Hk as -> _.
Qed.

Lemma group_nonempty (k : key) :
  k ∈ group_keys rows -> exists r, r ∈ group rows k.
Proof.
  rewrite elem_of_group_keys. intros (r & Hr & Hk). exists r.
  apply list_elem_of_filter. auto.
Qed.

Lemma CohortSize_value (c : period) :
  (c, 0) ∈ group_keys rows ->
  CohortSize transactions c = of_int (Z.of_nat (size c))
  /\ (0 < size c)%nat.
Proof.
  intros Hk. split.
  - unfold CohortSize.
    destruct (list_find _ (cohort_sizes transactions)) as [[i [c' n]] |] eqn:Hfind.
    + apply list_find_Some in Hfind as (Hlook & Hc & _). simpl in Hc. subst c'.
      apply list_elem_of_lookup_2 in Hlook.
      apply list_elem_of_fmap in Hlook as (row & Heq & Hrow).
      apply list_elem_of_filter in Hrow as [Hm Hrow].
      apply row_is_row_of_key in Hrow. injection Heq as Hc Hn.
      rewrite <- Hc, Hm in Hrow. rewrite Hn, Hrow. reflexivity.
    + apply list_find_None in Hfind. rewrite Forall_forall in Hfind.
      exfalso. apply (Hfind (c, size c)); [| reflexivity].
      apply list_elem_of_fmap. exists (row_of_key (c, 0)). split; [reflexivity |].
      apply list_elem_of_filter. split; [reflexivity |].
      apply elem_of_cohort_data. eauto.
  - destruct (group_nonempty _ Hk) as (r & Hr).
    apply (nunique_positive _ r Hr).
Qed.

Lemma retention_cell_observed (c : period) (e : Z) :
  (c, e) ∈ group_keys rows ->
  retention_cell transactions c e
  = fmul (fdiv (of_int (Z.of_nat (nunique_customers (group rows (c, e)))))
               (of_int (Z.of_nat (size c))))
         (of_int 100).
Proof.
  intros Hk. unfold retention_cell.
  destruct (list_find _ (cohort_data transactions)) as [[i row] |] eqn:Hfind.
  - apply list_find_Some in Hfind as (Hlook & [Hc He] & _).
    apply list_elem_of_lookup_2, row_is_row_of_key in Hlook.
    rewrite Hc, He in Hlook. subst row. unfold RetentionRate. simpl.
    destruct (CohortSize_value c) as [-> _]; [| reflexivity].
    eapply group_keys_month_0, Hk.
  - apply list_find_None in Hfind. rewrite Forall_forall in Hfind.
    exfalso. apply (Hfind (row_of_key (c, e))); [| split; reflexivity].
    apply elem_of_cohort_data. eauto.
Qed.

Lemma retention_cell_missing (c : period) (e : Z) :
  (c, e) ∉ group_keys rows -> retention_cell transactions c e = NaN.
Proof.
  intros Hk. unfold retention_cell.
  destruct (list_find _ (cohort_data transactions)) as [[i row] |] eqn:Hfind;
    [| reflexivity].
  apply list_find_Some in Hfind as (Hlook & [Hc He] & _).
  apply list_elem_of_lookup_2, elem_of_cohort_data in Hlook as (k & Hin & ->).
  simpl in Hc, He. destruct k as [c' e']. simpl in *. subst. contradiction.
Qed.

Lemma elem_of_matrix_index (c : period) :
  c ∈ matrix_index transactions <-> (c, 0) ∈ group_keys rows.
Proof.
  unfold matrix_index. rewrite merge_sort_Permutation, elem_of_remove_dups.
  rewrite list_elem_of_fmap. split.
  - intros (row & -> & Hrow). apply elem_of_cohort_data in Hrow as ([c e] & Hk & ->).
    simpl. eapply group_keys_month_0, Hk.
  - intros Hk. exists (row_of_key (c, 0)). split; [reflexivity |].
    apply elem_of_cohort_data. eauto.
Qed.

End CohortFacts.

Section CohortTheorems.
Import Cohort.
Variable transactions : list transaction.

Lemma observed_group_keys (c : period) (e : Z) :
  observed transactions c e <-> (c, e) ∈ group_keys (annotate transactions).
Proof.
  unfold observed. rewrite elem_of_group_keys, list_elem_of_fmap.
  split; intros (r & H1 & H2); exists r; auto.
Qed.

(** The cohort of every transaction of the table is a row of the
    matrix. *)
Lemma cohort_in_matrix_index (t : transaction) :
  t ∈ transactions ->
  exists c, CohortMonth transactions (CustomerID t) = Some c
            /\ c ∈ matrix_index transactions.
Proof.
  intros Ht.
  destruct (first_purchase_is_a_transaction transactions t Ht)
    as (t0 & Ht0 & Hc & Hfp).
  exists (to_period (InvoiceDate t0)).
  assert (Hcm : CohortMonth transactions (CustomerID t)
                = Some (to_period (InvoiceDate t0)))
    by (unfold CohortMonth; now rewrite Hfp).
  split; [exact Hcm |].
  apply elem_of_matrix_index.
  apply (group_keys_month_0 _ _
           (get_cohort_period (to_period (InvoiceDate t0))
                              (to_period (InvoiceDate t)))).
  apply elem_of_group_keys.
  exists (mkCohortTransaction (CustomerID t) (to_period (InvoiceDate t0))
            (get_cohort_period (to_period (InvoiceDate t0))
                               (to_period (InvoiceDate t)))
            (Revenue t)).
  split; [| reflexivity]. apply elem_of_annotate. eauto.
Qed.

Lemma retention_value (n d : nat) :
  (0 < d)%nat ->
  fmul (fdiv (of_int (Z.of_nat n)) (of_int (Z.of_nat d))) (of_int 100)
  = fnum (inject_Z (Z.of_nat n) / inject_Z (Z.of_nat d) * 100).
Proof.
  intros Hd. unfold of_int. rewrite fdiv_finite, fmul_fnum_Finite; [reflexivity |].
  change 0%Q with (inject_Z 0). rewrite inject_Z_injective. lia.
Qed.

Lemma retention_cell_positive (c : period) (e : Z) :
  observed transactions c e ->
  exists q, retention_cell transactions c e = Finite q /\ (0 < q)%Q.
Proof.
  intros Hobs. apply observed_group_keys in Hobs.
  rewrite retention_cell_observed by exact Hobs.
  destruct (CohortSize_value transactions c) as [_ Hsize];
    [eapply group_keys_month_0, Hobs |].
  destruct (group_nonempty transactions _ Hobs) as (r & Hr).
  pose proof (nunique_positive _ r Hr) as Hn.
  rewrite retention_value by exact Hsize.
  eexists. split; [reflexivity |]. rewrite Qred_correct.
  apply Qmult_lt_0_compat; [| reflexivity].
  apply Qlt_shift_div_l.
  - change 0%Q with (inject_Z 0). rewrite <- Zlt_Qlt. lia.
  - rewrite Qmult_0_l. change 0%Q with (inject_Z 0). rewrite <- Zlt_Qlt. lia.
Qed.

Lemma retention_cell_nan_iff (c : period) (e : Z) :
  is_nan (retention_cell transactions c e) = false
  <-> observed transactions c e.
Proof.
  destruct (decide (observed transactions c e)) as [Hobs | Hobs].
  - destruct (retention_cell_positive c e Hobs) as (q & -> & _). tauto.
  - rewrite retention_cell_missing
      by (now rewrite <- observed_group_keys).
    simpl. split; [discriminate | contradiction].
Qed.

(** The non-missing cells of a column are those of the cohorts with a
    transaction at that age. *)
Lemma dropna_column (e : Z) (index : list period) :
  dropna ((fun c => retention_cell transactions c e) <$> index)
  = (fun c => retention_cell transactions c e)
    <$> filter (fun c => observed transactions c e) index.
Proof.
  unfold dropna. induction index as [| c index IH]; [reflexivity |].
  rewrite fmap_cons, !filter_cons, IH.
  destruct (decide (observed transactions c e)) as [Hobs | Hobs];
    destruct (decide (is_nan (retention_cell transactions c e) = false))
      as [Hnan | Hnan]; try reflexivity.
  - apply retention_cell_nan_iff in Hobs. contradiction.
  - apply retention_cell_nan_iff in Hnan. contradiction.
Qed.

End CohortTheorems.

(** C5.  For every cohort of the transaction table, the retention cell of
    elapsed month 0 is exactly 100, and the number of customers of that
    month 0 entry, which is positive, is the denominator of every cell of
    the cohort's row. *)
Theorem retention_month_0_is_100
    (transactions : list Cohort.transaction) (c : Cohort.period) :
  c ∈ Cohort.matrix_index transactions ->
  (0 < Cohort.size transactions c)%nat /\
  Cohort.CohortSize transactions c
  = of_int (Z.of_nat (Cohort.size transactions c)) /\
  Cohort.retention_cell transactions c 0 = of_int 100 /\
  (forall row, row ∈ Cohort.cohort_data transactions ->
     Cohort.row_CohortMonth row = c ->
     Cohort.RetentionRate transactions row
     = fmul (fdiv (of_int (Z.of_nat (Cohort.row_Customers row)))
                  (of_int (Z.of_nat (Cohort.size transactions c))))
            (of_int 100)
     /\ Cohort.retention_cell transactions c (Cohort.row_MonthsSinceFirst row)
        = Cohort.RetentionRate transactions row).
Proof.
  intros Hc. apply elem_of_matrix_index in Hc.
  destruct (CohortSize_value transactions c Hc) as [Hsize Hpos].
  split; [exact Hpos |]. split; [exact Hsize |]. split.
  - rewrite retention_cell_observed by exact Hc.
    fold (Cohort.size transactions c).
    rewrite retention_value by exact Hpos.
    change (of_int 100) with (fnum 100). apply fnum_ext. field.
    change 0%Q with (inject_Z 0). rewrite inject_Z_injective. lia.
  - intros row Hrow Hrc.
    assert (Hrate : Cohort.RetentionRate transactions row
      = fmul (fdiv (of_int (Z.of_nat (Cohort.row_Customers row)))
                   (of_int (Z.of_nat (Cohort.size transactions c))))
             (of_int 100)).
    { unfold Cohort.RetentionRate. now rewrite Hrc, Hsize. }
    split; [exact Hrate |].
    pose proof (row_is_row_of_key transactions row Hrow) as Hkey.
    apply elem_of_cohort_data in Hrow as (k & Hk & Heq).
    rewrite retention_cell_observed.
    + rewrite Hrate, Hkey, <- Hrc. reflexivity.
    + rewrite Heq in Hrc |- *. destruct k as [c' e']. simpl in *. now subst c'.
Qed.

(** On the sample: cohort 2024-12 has two customers, one of whom is back
    two months later. *)
Lemma retention_month_0_is_100_witness :
  Cohort.retention_cell Cohort.sample_transactions (2024, 12) 0 = of_int 100
  /\ Cohort.CohortSize Cohort.sample_transactions (2024, 12) = of_int 2
  /\ Cohort.retention_cell Cohort.sample_transactions (2024, 12) 2 = of_int 50.
Proof.
  assert (Hc : (2024, 12) ∈ Cohort.matrix_index Cohort.sample_transactions).
  { vm_compute. left. }
  destruct (retention_month_0_is_100 Cohort.sample_transactions (2024, 12) Hc)
    as (_ & Hsize & Hcell & _).
  split; [exact Hcell |]. split; [exact Hsize | reflexivity].
Defined.



(** ** Aggregator *)

(** C1, as stated, fails.  The retention key [month_1_avg_retention] and
    the segment 'Champions' are both absent from the inputs below, and the
    aggregator raises nothing: it reports 0 for both. *)
Lemma aggregator_missing_keys_counterexample :
  Aggregator.one_month_cohort_results !! "month_1_avg_retention" = None /\
  Forall (fun s => Aggregator.Segment s <> "Champions")
         (Aggregator.segments Aggregator.no_champions_rfm_results) /\
  exists r s,
    Aggregator.comprehensive_metrics Aggregator.one_month_cohort_results
                                     Aggregator.no_champions_rfm_results
    = Ok (r, s)
    /\ Aggregator.month_1_retention_pct r = of_int 0
    /\ Aggregator.champions_pct s = of_int 0.
Proof.
  split; [reflexivity |]. split.
  - repeat constructor; discriminate.
  - eexists _, _. split; [reflexivity |]. split; reflexivity.
Qed.

(** C1, amended.  With at least one segment in the RFM output the
    aggregator raises no error, whatever keys are missing: an absent
    retention key is replaced by its default (100 for month 0, 0 for
    months 1 to 3 and the churn figures, 14 for the reduction target), and
    an absent 'Champions' segment by 0. *)
Theorem aggregator_defaults_missing_keys
    (cohort_results : Aggregator.cohort_results_t)
    (rfm_results : Aggregator.rfm_results_t) :
  Aggregator.segments rfm_results <> [] ->
  exists r s,
    Aggregator.comprehensive_metrics cohort_results rfm_results = Ok (r, s) /\
    (cohort_results !! "month_0_avg_retention" = None ->
     Aggregator.month_0_retention_pct r = of_int 100) /\
    (cohort_results !! "month_1_avg_retention" = None ->
     Aggregator.month_1_retention_pct r = of_int 0) /\
    (cohort_results !! "month_2_avg_retention" = None ->
     Aggregator.month_2_retention_pct r = of_int 0) /\
    (cohort_results !! "month_3_avg_retention" = None ->
     Aggregator.month_3_retention_pct r = of_int 0) /\
    (cohort_results !! "baseline_month1_churn" = None ->
     Aggregator.baseline_churn_pct r = of_int 0) /\
    (cohort_results !! "target_month1_churn" = None ->
     Aggregator.target_churn_pct r = of_int 0) /\
    (cohort_results !! "churn_reduction_pct" = None ->
     Aggregator.churn_reduction_target_pct r = of_int 14) /\
    (Forall (fun s => Aggregator.Segment s <> "Champions")
            (Aggregator.segments rfm_results) ->
     Aggregator.champions_pct s = of_int 0).
Proof.
  intros Hsegs. unfold Aggregator.comprehensive_metrics, Aggregator.segmentation.
  destruct (Aggregator.segments rfm_results) as [| top rest] eqn:Heq;
    [congruence |].
  eexists _, _. split; [reflexivity |]. cbn.
  unfold Aggregator.get.
  repeat (split; [intros ->; reflexivity |]).
  intros Hno. unfold Aggregator.champions_customer_percent.
  destruct (list_find _ (top :: rest)) as [[i seg] |] eqn:Hfind; [| reflexivity].
  apply list_find_Some in Hfind as (Hlook & Hname & _).
  apply list_elem_of_lookup_2 in Hlook.
  rewrite Forall_forall in Hno. exfalso. exact (Hno seg Hlook Hname).
Qed.

Lemma aggregator_defaults_missing_keys_witness :
  exists r s,
    Aggregator.comprehensive_metrics Aggregator.one_month_cohort_results
                                     Aggregator.no_champions_rfm_results
    = Ok (r, s)
    /\ Aggregator.month_1_retention_pct r = of_int 0
    /\ Aggregator.champions_pct s = of_int 0.
Proof.
  destruct (aggregator_defaults_missing_keys
              Aggregator.one_month_cohort_results
              Aggregator.no_champions_rfm_results)
    as (r & s & Heq & _ & Hm1 & _ & _ & _ & _ & _ & Hch).
  - discriminate.
  - exists r, s. split; [exact Heq |]. split.
    + apply Hm1. reflexivity.
    + apply Hch. repeat constructor; discriminate.
Defined.


(** ** Quintile scores *)

(** C2.  The scoring of Recency fails where the claim wants it to
    succeed with fewer buckets: nine of the ten Recency values are 1, the
    quantile boundaries are 1, 1, 1, 1, 1, 10, the duplicates are dropped,
    and the five labels no longer fit the single bin left.  The Frequency
    and Monetary columns of the same customers, ranked first, are scored
    1 to 5. *)
Theorem R_Score_fails_on_duplicate_boundaries :
  RFM.R_Score RFM.recent_buyers
  = Raise (ValueError
             "Bin labels must be one fewer than the number of bin edges")
  /\ RFM.rfm_scores RFM.recent_buyers
     = Raise (ValueError
                "Bin labels must be one fewer than the number of bin edges")
  /\ RFM.F_Score RFM.recent_buyers = Ok [4; 1; 3; 1; 5; 3; 2; 5; 2; 4]
  /\ RFM.M_Score RFM.recent_buyers = Ok [4; 2; 3; 1; 5; 4; 2; 5; 1; 3].
Proof. repeat split; reflexivity. Qed.

Lemma Qltb_shift (a b d : Q) : Qltb (a + d) (b + d) = Qltb a b.
Proof.
  apply eq_true_iff_eq. rewrite !Qltb_true. split; intros H; lra.
Qed.

Lemma Qeq_bool_shift (a b d : Q) : Qeq_bool (a + d) (b + d) = Qeq_bool a b.
Proof.
  apply eq_true_iff_eq. rewrite !Qeq_bool_iff. split; intros H; lra.
Qed.

Lemma Qltb_inject_Z_shift (a b d : Z) :
  Qltb (inject_Z (a + d)) (inject_Z (b + d)) = Qltb (inject_Z a) (inject_Z b).
Proof.
  apply eq_true_iff_eq. rewrite !Qltb_true, <- !Zlt_Qlt. lia.
Qed.

Lemma Qeq_bool_inject_Z_shift (a b d : Z) :
  Qeq_bool (inject_Z (a + d)) (inject_Z (b + d))
  = Qeq_bool (inject_Z a) (inject_Z b).
Proof.
  apply eq_true_iff_eq. rewrite !Qeq_bool_iff, !inject_Z_injective. lia.
Qed.

Section RankOrder.
Context {A : Type} (f g : A -> Q).
Hypothesis same_lt : forall a b, Qltb (f a) (f b) = Qltb (g a) (g b).
Hypothesis same_eq : forall a b, Qeq_bool (f a) (f b) = Qeq_bool (g a) (g b).

Lemma count_lt_same_order (v : A) (l : list A) :
  RFM.count (fun y => Qltb y (f v)) (f <$> l)
  = RFM.count (fun y => Qltb y (g v)) (g <$> l).
Proof.
  unfold RFM.count. f_equal.
  induction l as [| a l IH]; [reflexivity |].
  rewrite !fmap_cons. simpl. rewrite same_lt.
  destruct (Qltb (g a) (g v)); simpl; now rewrite IH.
Qed.

Lemma count_eq_same_order (v : A) (l : list A) :
  RFM.count (fun y => Qeq_bool y (f v)) (f <$> l)
  = RFM.count (fun y => Qeq_bool y (g v)) (g <$> l).
Proof.
  unfold RFM.count. f_equal.
  induction l as [| a l IH]; [reflexivity |].
  rewrite !fmap_cons. simpl. rewrite same_eq.
  destruct (Qeq_bool (g a) (g v)); simpl; now rewrite IH.
Qed.

Lemma rank_first_from_same_order (all before rest : list A) :
  RFM.rank_first_from (f <$> all) (f <$> before) (f <$> rest)
  = RFM.rank_first_from (g <$> all) (g <$> before) (g <$> rest).
Proof.
  revert before. induction rest as [| v rest IH]; intros before;
    [reflexivity |].
  rewrite !fmap_cons. simpl.
  rewrite count_lt_same_order, count_eq_same_order. f_equal.
  apply (IH (v :: before)).
Qed.

(** Ranks only depend on how the values compare. *)
Lemma rank_first_same_order (l : list A) :
  RFM.rank_first (f <$> l) = RFM.rank_first (g <$> l).
Proof. apply (rank_first_from_same_order l [] l). Qed.
End RankOrder.

(** C3, as stated, fails.  One customer below has a Monetary value of 0
    and another a negative one; the engine raises nothing and scores and
    classifies all five customers. *)
Lemma rfm_accepts_nonpositive_monetary_counterexample :
  Exists (fun c => (RFM.Monetary c <= 0)%Q) RFM.with_nonpositive_monetary /\
  RFM.rfm_scores RFM.with_nonpositive_monetary
  = Ok [(5, 3, 2); (4, 1, 1); (3, 2, 4); (2, 5, 5); (1, 4, 3)] /\
  RFM.rfm_segments RFM.with_nonpositive_monetary
  = Ok ["Potential Loyalist"; "New Customers"; "Promising";
        "About To Sleep"; "At Risk"].
Proof.
  split; [| split; reflexivity].
  apply Exists_cons_hd. simpl. apply Qle_refl.
Qed.

(** C3, amended.  The engine has no check on the sign of Monetary or
    Frequency: both columns are only ranked, so the outcome of the
    scoring, scores or error, is the same for a population and for that
    population with every Frequency and every Monetary value moved by a
    constant, be it below zero. *)
Theorem rfm_scores_ignore_sign
    (rfm_data : list RFM.customer) (df : Z) (dm : Q) :
  RFM.rfm_scores (RFM.shift df dm <$> rfm_data) = RFM.rfm_scores rfm_data
  /\ RFM.rfm_segments (RFM.shift df dm <$> rfm_data)
     = RFM.rfm_segments rfm_data.
Proof.
  assert (Hscores :
    RFM.rfm_scores (RFM.shift df dm <$> rfm_data) = RFM.rfm_scores rfm_data).
  { unfold RFM.rfm_scores, RFM.R_Score, RFM.F_Score, RFM.M_Score.
    rewrite <- !list_fmap_compose.
    replace (RFM.rank_first ((inject_Z ∘ RFM.Frequency ∘ RFM.shift df dm)
                             <$> rfm_data))
      with (RFM.rank_first ((inject_Z ∘ RFM.Frequency) <$> rfm_data)).
    2:{ symmetry. apply rank_first_same_order; intros a b; simpl.
        - apply Qltb_inject_Z_shift.
        - apply Qeq_bool_inject_Z_shift. }
    replace (RFM.rank_first ((RFM.Monetary ∘ RFM.shift df dm) <$> rfm_data))
      with (RFM.rank_first (RFM.Monetary <$> rfm_data)).
    2:{ symmetry. apply rank_first_same_order; intros a b; simpl.
        - apply Qltb_shift.
        - apply Qeq_bool_shift. }
    reflexivity. }
  split; [exact Hscores |].
  unfold RFM.rfm_segments. now rewrite Hscores.
Qed.

(** ** Significance tests *)

Lemma fadd_NaN_r (x : float64) : fadd x NaN = NaN.
Proof. destruct x; reflexivity. Qed.

Lemma fdiv_NaN_r (x : float64) : fdiv x NaN = NaN.
Proof. destruct x; reflexivity. Qed.

Lemma fmul_NaN_r (x : float64) : fmul x NaN = NaN.
Proof. destruct x; reflexivity. Qed.

(** The sample variance of fewer than two values is NaN. *)
Lemma series_var_small (l : list Q) :
  (length l <= 1)%nat -> series_var l = NaN.
Proof.
  destruct l as [| x [| y l]]; simpl; intros Hlen; [reflexivity | | lia].
  unfold series_var, series_mean, series_sum, of_int. simpl length.
  change (Z.of_nat 1) with 1. change (1 - 1) with 0.
  unfold fnum at 1. rewrite fdiv_finite by (intros H; inversion H).
  unfold fnum at 1. cbv iota. rewrite fdiv_finite_zero; [reflexivity |].
  simpl. rewrite !Qred_correct. field.
Qed.

Lemma pooled_variance_small (a b : list Q) :
  (length a <= 1)%nat \/ (length b <= 1)%nat ->
  ABTest.pooled_variance a b = NaN.
Proof.
  intros [Hlen | Hlen]; unfold ABTest.pooled_variance; cbv zeta;
    rewrite (series_var_small _ Hlen).
  - reflexivity.
  - now rewrite fmul_NaN_r, fadd_NaN_r.
Qed.




(* ===================================================================== *)
(** * Further properties                                                  *)
(* ===================================================================== *)

(** ** A/B test engine: ROI, uplift and the recommendations *)

Lemma fgt_fnum_0 (q : Q) : fgt (fnum q) (of_int 0) = true <-> (0 < q)%Q.
Proof.
  unfold fgt, flt, fnum, of_int. rewrite Qltb_true, Qred_correct. reflexivity.
Qed.

Lemma roi_value (control treatment cost : Q) :
  (0 < cost)%Q ->
  ABTest.roi (Finite control) (Finite treatment) (Finite cost)
  = fnum ((treatment - control - cost) / cost * 100).
Proof.
  intros Hpos. unfold ABTest.roi, fgt, flt, of_int.
  replace (Qltb (inject_Z 0) cost) with true
    by (symmetry; apply Qltb_true; exact Hpos).
  unfold fsub, fnum at 1 2.
  rewrite fdiv_finite by (apply Qpos_nonzero, Hpos). unfold fnum at 1, fmul.
  apply fnum_ext. rewrite !Qred_correct. reflexivity.
Qed.

(** The sign of the ROI, for a positive cost. *)
Lemma roi_sign (control treatment cost : Q) :
  (0 < cost)%Q ->
  (fgt (ABTest.roi (Finite control) (Finite treatment) (Finite cost))
       (of_int 0) = true
   <-> (cost < treatment - control)%Q).
Proof.
  intros Hpos. rewrite roi_value by exact Hpos. rewrite fgt_fnum_0.
  split.
  - intros H.
    assert (Hq : (0 < (treatment - control - cost) / cost)%Q).
    { apply Qnot_le_lt. intros Hle.
      assert ((treatment - control - cost) / cost * 100 <= 0 * 100)%Q
        by (apply Qmult_le_compat_r; [exact Hle | discriminate]).
      lra. }
    assert (Hn : (0 < (treatment - control - cost) / cost * cost)%Q)
      by (apply Qmult_lt_0_compat; assumption).
    rewrite Qmult_comm, Qmult_div_r in Hn by (apply Qpos_nonzero, Hpos). lra.
  - intros H. apply Qmult_lt_0_compat; [| reflexivity].
    apply Qlt_shift_div_l; [exact Hpos | lra].
Qed.

(** X1.  For a positive treatment cost the ROI is positive exactly when
    the treatment revenue exceeds the control revenue by more than the
    cost. *)
Theorem roi_positive_iff (control treatment cost : Q) :
  (0 < cost)%Q ->
  (fgt (ABTest.roi (Finite control) (Finite treatment) (Finite cost))
       (of_int 0) = true
   <-> (cost < treatment - control)%Q).
Proof. intros Hpos. now apply roi_sign. Qed.

Lemma roi_positive_iff_witness :
  fgt (ABTest.roi (Finite 1000) (Finite 1700) (Finite 600)) (of_int 0) = true
  /\ fgt (ABTest.roi (Finite 5000) (Finite 4500) (Finite 600)) (of_int 0)
     = false.
Proof.
  split.
  - apply (roi_positive_iff 1000 1700 600); reflexivity.
  - reflexivity.
Defined.

Lemma uplift_value (control treatment : Q) :
  ~ (control == 0)%Q ->
  ABTest.revenue_uplift_pct (Finite control) (Finite treatment)
  = fnum ((treatment - control) / control * 100).
Proof.
  intros Hc. unfold ABTest.revenue_uplift_pct, fsub, fnum at 1.
  rewrite fdiv_finite by exact Hc. unfold fnum at 1, of_int, fmul.
  apply fnum_ext. rewrite !Qred_correct. reflexivity.
Qed.

(** X2.  With a positive control revenue, a positive ROI comes with a
    positive revenue uplift, whatever the treatment cost is: the test
    [uplift > 0] of the script's first recommendation rule follows from
    its test [roi > 0]. *)
Theorem roi_positive_implies_uplift_positive
    (control treatment : Q) (cost : float64) :
  (0 < control)%Q ->
  fgt (ABTest.roi (Finite control) (Finite treatment) cost) (of_int 0) = true ->
  fgt (ABTest.revenue_uplift_pct (Finite control) (Finite treatment))
      (of_int 0) = true.
Proof.
  intros Hc Hroi.
  rewrite uplift_value by (apply Qpos_nonzero, Hc). apply fgt_fnum_0.
  assert (Hgain : (0 < treatment - control)%Q).
  { destruct cost as [q | [|] |].
    - destruct (Qltb 0 q) eqn:Hq.
      + apply Qltb_true in Hq.
        apply (roi_sign control treatment q Hq) in Hroi. lra.
      + unfold ABTest.roi, fgt, flt, of_int in Hroi.
        change (inject_Z 0) with 0%Q in Hroi. rewrite Hq in Hroi.
        discriminate.
    - discriminate.
    - discriminate.
    - discriminate. }
  apply Qmult_lt_0_compat; [| reflexivity].
  apply Qlt_shift_div_l; [exact Hc | lra].
Qed.

Lemma roi_positive_implies_uplift_positive_witness :
  fgt (ABTest.revenue_uplift_pct (Finite 1000) (Finite 1700)) (of_int 0)
  = true.
Proof.
  apply (roi_positive_implies_uplift_positive 1000 1700 (Finite 600));
    reflexivity.
Defined.

Lemma flt_asym (x y : float64) : flt x y = true -> flt y x = false.
Proof.
  destruct x as [a | s |], y as [b | t |]; simpl; try congruence.
  - rewrite Qltb_true, Qltb_false. apply Qlt_le_weak.
  - destruct t; simpl; congruence.
  - destruct s; simpl; congruence.
  - destruct s, t; simpl; congruence.
Qed.

(** X3.  Whenever the A/B script recommends to implement the discount
    strategy, the dashboard recommends the same, while the consolidated
    metrics record says 'Continue testing': the aggregator has no rule
    that answers otherwise for a non-negative uplift. *)
Theorem script_implement_seen_downstream
    (significant_revenue : bool) (uplift_pct roi_pct : float64) :
  ABTest.recommendation significant_revenue uplift_pct roi_pct = "IMPLEMENT" ->
  Dashboard.recommendation uplift_pct significant_revenue = "IMPLEMENT"
  /\ Aggregator.recommendation uplift_pct = "Continue testing".
Proof.
  unfold ABTest.recommendation, Dashboard.recommendation,
    Aggregator.recommendation.
  destruct significant_revenue, (fgt uplift_pct (of_int 0)) eqn:Hup,
    (fgt roi_pct (of_int 0)); cbn [andb negb]; try discriminate.
  intros _. apply flt_asym in Hup. rewrite Hup. split; reflexivity.
Qed.

Lemma script_implement_seen_downstream_witness :
  Dashboard.recommendation (of_int 10) true = "IMPLEMENT"
  /\ Aggregator.recommendation (of_int 10) = "Continue testing".
Proof.
  apply (script_implement_seen_downstream true (of_int 10) (of_int 25)).
  reflexivity.
Defined.

(** X4.  The dashboard does not look at the ROI: for a significant
    result whose uplift is not negative (zero and NaN included) and whose
    ROI is not positive, the dashboard says to implement the strategy and
    the A/B script says not to. *)
Theorem dashboard_implements_without_roi (uplift_pct roi_pct : float64) :
  flt uplift_pct (of_int 0) = false ->
  fgt roi_pct (of_int 0) = false ->
  Dashboard.recommendation uplift_pct true = "IMPLEMENT"
  /\ ABTest.recommendation true uplift_pct roi_pct = "DO NOT IMPLEMENT".
Proof.
  intros Hup Hroi.
  unfold Dashboard.recommendation, ABTest.recommendation.
  rewrite Hup, Hroi. cbn [andb negb]. rewrite !andb_false_r. auto.
Qed.

(** Control 1000, treatment 1100, cost 200: uplift 10, ROI -50. *)
Lemma dashboard_implements_without_roi_witness :
  Dashboard.recommendation
    (ABTest.revenue_uplift_pct (of_int 1000) (of_int 1100)) true
  = "IMPLEMENT"
  /\ ABTest.recommendation true
       (ABTest.revenue_uplift_pct (of_int 1000) (of_int 1100))
       (ABTest.roi (of_int 1000) (of_int 1100) (of_int 200))
     = "DO NOT IMPLEMENT".
Proof.
  apply (dashboard_implements_without_roi
           (ABTest.revenue_uplift_pct (of_int 1000) (of_int 1100))
           (ABTest.roi (of_int 1000) (of_int 1100) (of_int 200)));
    reflexivity.
Defined.

(** X5.  When a group has fewer than two customers, Cohen's d is NaN, and
    the magnitude printed beside it is 'Large': both comparisons of the
    label fail on NaN. *)
Theorem degenerate_effect_size_is_large
    (sqrtQ : Q -> Q) (group1 group2 : list Q) :
  (length group1 <= 1)%nat \/ (length group2 <= 1)%nat ->
  ABTest.cohens_d sqrtQ group1 group2 = NaN
  /\ ABTest.effect_size_label (ABTest.cohens_d sqrtQ group1 group2) = "Large".
Proof.
  intros Hsmall.
  assert (Hd : ABTest.cohens_d sqrtQ group1 group2 = NaN).
  { unfold ABTest.cohens_d. cbv zeta.
    rewrite (pooled_variance_small _ _ Hsmall). cbn [fsqrt].
    apply fdiv_NaN_r. }
  rewrite Hd. split; reflexivity.
Qed.

Lemma degenerate_effect_size_is_large_witness :
  ABTest.effect_size_label (ABTest.cohens_d sqrt_newton [250]%Q [100; 200]%Q)
  = "Large".
Proof.
  apply (degenerate_effect_size_is_large sqrt_newton [250]%Q [100; 200]%Q).
  left. simpl. lia.
Defined.

(** X6.  Cohen's d has the sign of the difference of the group means:
    for two samples of at least two values with a positive pooled
    variance it is positive exactly when the first mean is the larger
    one, and negative exactly when it is the smaller one. *)
Theorem cohens_d_sign
    (sqrtQ : Q -> Q) (group1 group2 : list Q) (v : Q) :
  (forall x, (0 < x)%Q -> (0 < sqrtQ x)%Q) ->
  (2 <= length group1)%nat ->
  (2 <= length group2)%nat ->
  ABTest.pooled_variance group1 group2 = Finite v ->
  (0 < v)%Q ->
  fgt (ABTest.cohens_d sqrtQ group1 group2) (of_int 0)
  = fgt (series_mean group1) (series_mean group2)
  /\ flt (ABTest.cohens_d sqrtQ group1 group2) (of_int 0)
     = flt (series_mean group1) (series_mean group2).
Proof.
  intros Hsqrt Hn1 Hn2 Hpool Hv.
  unfold ABTest.cohens_d. cbv zeta. rewrite Hpool.
  rewrite !series_mean_finite by lia.
  set (m1 := (Qred (Qsum group1) / inject_Z (Z.of_nat (length group1)))%Q).
  set (m2 := (Qred (Qsum group2) / inject_Z (Z.of_nat (length group2)))%Q).
  rewrite fsqrt_positive by exact Hv. specialize (Hsqrt v Hv).
  assert (Hs : ~ (sqrtQ v == 0)%Q) by (apply Qpos_nonzero, Hsqrt).
  rewrite fsub_fnum, fdiv_fnum by exact Hs.
  assert (Hinv : (0 < / sqrtQ v)%Q) by (apply Qinv_lt_0_compat, Hsqrt).
  split; apply eq_true_iff_eq.
  - rewrite fgt_fnum_0. unfold fgt, flt, fnum. rewrite Qltb_true, !Qred_correct.
    unfold Qdiv. split; intros H; [| nra].
    apply Qnot_le_lt. intros Hle.
    assert ((m1 - m2) * / sqrtQ v <= 0 * / sqrtQ v)%Q
      by (apply Qmult_le_compat_r; lra).
    lra.
  - unfold flt, fnum, of_int. rewrite !Qltb_true, !Qred_correct.
    unfold Qdiv. split; intros H.
    + apply Qnot_le_lt. intros Hle.
      assert (0 * / sqrtQ v <= (m1 - m2) * / sqrtQ v)%Q
        by (apply Qmult_le_compat_r; lra).
      change (inject_Z 0) with 0%Q in H. lra.
    + change (inject_Z 0) with 0%Q.
      assert (0 < (m2 - m1) * / sqrtQ v)%Q
        by (apply Qmult_lt_0_compat; lra).
      lra.
Qed.

(** Means 1 and 4, pooled variance 1: d = -3 is negative. *)
Lemma cohens_d_sign_witness :
  flt (ABTest.cohens_d sqrt_newton [0; 1; 2]%Q [3; 4; 5]%Q) (of_int 0)
  = flt (series_mean [0; 1; 2]%Q) (series_mean [3; 4; 5]%Q).
Proof.
  apply (cohens_d_sign sqrt_newton [0; 1; 2]%Q [3; 4; 5]%Q 1).
  - exact sqrt_newton_pos.
  - simpl. lia.
  - simpl. lia.
  - reflexivity.
  - reflexivity.
Defined.

Lemma repeat_count_bounds (orders : list Z) :
  0 <= ABTest.repeat_count orders <= Z.of_nat (length orders).
Proof.
  unfold ABTest.repeat_count.
  pose proof (filter_length_le (fun o => 1 <? o) orders). lia.
Qed.

(** X7.  Each row of the contingency table handed to the chi-square test
    holds two non-negative counts, repeat and single buyers, that add up
    to the size of the group. *)
Theorem contingency_table_rows (control_orders treatment_orders : list Z) :
  let '((a, b), (c, d)) :=
    ABTest.contingency_table control_orders treatment_orders in
  0 <= a /\ 0 <= b /\ a + b = Z.of_nat (length control_orders) /\
  0 <= c /\ 0 <= d /\ c + d = Z.of_nat (length treatment_orders).
Proof.
  unfold ABTest.contingency_table. cbv zeta.
  pose proof (repeat_count_bounds control_orders).
  pose proof (repeat_count_bounds treatment_orders).
  lia.
Qed.

Lemma percent_bounds (k n : nat) :
  (k <= n)%nat -> (0 < n)%nat ->
  (0 <= inject_Z (Z.of_nat k) / inject_Z (Z.of_nat n) * 100 <= 100)%Q.
Proof.
  intros Hk Hn.
  assert (Hn' : (0 < inject_Z (Z.of_nat n))%Q).
  { change 0%Q with (inject_Z 0). rewrite <- Zlt_Qlt. lia. }
  assert (Hk0 : (0 <= inject_Z (Z.of_nat k))%Q).
  { change 0%Q with (inject_Z 0). rewrite <- Zle_Qle. lia. }
  assert (Hkn : (inject_Z (Z.of_nat k) <= inject_Z (Z.of_nat n))%Q).
  { rewrite <- Zle_Qle. lia. }
  assert (H0 : (0 <= inject_Z (Z.of_nat k) / inject_Z (Z.of_nat n))%Q).
  { apply Qle_shift_div_l; [exact Hn' | lra]. }
  assert (H1 : (inject_Z (Z.of_nat k) / inject_Z (Z.of_nat n) <= 1)%Q).
  { apply Qle_shift_div_r; [exact Hn' | lra]. }
  lra.
Qed.

(** X8.  The repeat-purchase rate of a group with at least one customer
    is a number between 0 and 100; for a group without customers it is
    NaN, the outcome of 0/0. *)
Theorem repeat_rate_range (orders : list Z) :
  (orders <> [] ->
   exists q, ABTest.repeat_rate orders = Finite q /\ (0 <= q <= 100)%Q)
  /\ ABTest.repeat_rate [] = NaN.
Proof.
  split; [| reflexivity].
  intros Hne. unfold ABTest.repeat_rate, ABTest.repeat_count.
  assert (Hlen : (0 < length orders)%nat)
    by (destruct orders; [congruence | simpl; lia]).
  rewrite retention_value by exact Hlen.
  eexists. split; [reflexivity |]. rewrite Qred_correct.
  apply percent_bounds; [apply filter_length_le | exact Hlen].
Qed.

(** Orders 1, 3, 2, 1: two repeat buyers out of four. *)
Lemma repeat_rate_range_witness :
  exists q, ABTest.repeat_rate [1; 3; 2; 1] = Finite q /\ (0 <= q <= 100)%Q.
Proof.
  destruct (repeat_rate_range [1; 3; 2; 1]) as [H _].
  apply H. discriminate.
Defined.

(** ** Cohort engine: elapsed months, retention range, averages *)

Lemma date_leb_spec (a b : Cohort.date) :
  Cohort.date_leb a b = true <->
  Cohort.year a < Cohort.year b
  \/ (Cohort.year a = Cohort.year b
      /\ (Cohort.month a < Cohort.month b
          \/ (Cohort.month a = Cohort.month b
              /\ Cohort.day a <= Cohort.day b))).
Proof. unfold Cohort.date_leb. lia. Qed.

(** The first purchase is no later than any purchase of the list. *)
Lemma min_date_lower_bound (l : list Cohort.date) (m d : Cohort.date) :
  Cohort.min_date l = Some m -> d ∈ l -> Cohort.date_leb m d = true.
Proof.
  revert m. induction l as [| x l IH]; intros m Hmin Hd; [inversion Hd |].
  simpl in Hmin. destruct (Cohort.min_date l) as [m' |] eqn:Hl.
  - injection Hmin as <-. apply elem_of_cons in Hd as [-> | Hd].
    + destruct (Cohort.date_leb x m') eqn:Hx.
      * apply date_leb_spec. lia.
      * apply not_true_iff_false in Hx. rewrite date_leb_spec in Hx.
        apply date_leb_spec. lia.
    + specialize (IH m' eq_refl Hd). apply date_leb_spec in IH.
      destruct (Cohort.date_leb x m') eqn:Hx; [| apply date_leb_spec; lia].
      apply date_leb_spec in Hx. apply date_leb_spec. lia.
  - injection Hmin as <-. apply elem_of_cons in Hd as [-> | Hd].
    + apply date_leb_spec. lia.
    + destruct l; [inversion Hd | simpl in Hl].
      destruct (Cohort.min_date l); discriminate.
Qed.

Lemma ordinal_monotone (a b : Cohort.date) :
  Cohort.valid_date a -> Cohort.valid_date b ->
  Cohort.date_leb a b = true ->
  Cohort.ordinal (Cohort.to_period a) <= Cohort.ordinal (Cohort.to_period b).
Proof.
  unfold Cohort.valid_date, Cohort.ordinal, Cohort.to_period. simpl.
  rewrite date_leb_spec. lia.
Qed.

(** X9.  When every invoice date has a month between 1 and 12, no
    transaction is dated before its customer's cohort month: every
    [MonthsSinceFirst] is at least 0, and so is every column label of the
    retention matrix. *)
Theorem months_since_first_nonneg (transactions : list Cohort.transaction) :
  (forall t, t ∈ transactions -> Cohort.valid_date (Cohort.InvoiceDate t)) ->
  (forall r, r ∈ Cohort.annotate transactions ->
     0 <= Cohort.ct_MonthsSinceFirst r)
  /\ (forall months, months ∈ Cohort.matrix_columns transactions ->
        0 <= months).
Proof.
  intros Hvalid.
  assert (Hrows : forall r, r ∈ Cohort.annotate transactions ->
                    0 <= Cohort.ct_MonthsSinceFirst r).
  { intros r Hr. apply elem_of_annotate in Hr as (t & cm & Ht & Hcm & ->).
    simpl. unfold Cohort.CohortMonth, Cohort.FirstPurchaseDate in Hcm.
    destruct (Cohort.min_date _) as [d |] eqn:Hmin; [| discriminate].
    injection Hcm as <-.
    assert (Hd : d ∈ Cohort.InvoiceDate
                   <$> filter (fun t' => Cohort.CustomerID t'
                                         = Cohort.CustomerID t) transactions)
      by (apply (min_date_elem _ _ Hmin)).
    apply list_elem_of_fmap in Hd as (t0 & -> & Ht0).
    apply list_elem_of_filter in Ht0 as [_ Ht0].
    assert (Hle : Cohort.date_leb (Cohort.InvoiceDate t0) (Cohort.InvoiceDate t)
                  = true).
    { apply (min_date_lower_bound _ _ _ Hmin).
      apply list_elem_of_fmap. exists t. split; [reflexivity |].
      apply list_elem_of_filter. auto. }
    pose proof (ordinal_monotone _ _ (Hvalid t0 Ht0) (Hvalid t Ht) Hle).
    unfold Cohort.get_cohort_period. lia. }
  split; [exact Hrows |].
  intros months Hm. unfold Cohort.matrix_columns in Hm.
  rewrite merge_sort_Permutation, elem_of_remove_dups in Hm.
  apply list_elem_of_fmap in Hm as (row & -> & Hrow).
  apply elem_of_cohort_data in Hrow as (k & Hk & ->).
  apply elem_of_group_keys in Hk as (r & Hr & <-).
  simpl. apply Hrows, Hr.
Qed.

Lemma months_since_first_nonneg_witness :
  Forall (fun months => 0 <= months)
         (Cohort.matrix_columns Cohort.sample_transactions).
Proof.
  apply Forall_forall.
  apply (months_since_first_nonneg Cohort.sample_transactions).
  intros t Ht. unfold Cohort.sample_transactions in Ht.
  repeat (apply elem_of_cons in Ht as [-> | Ht];
          [unfold Cohort.valid_date; simpl; lia |]).
  inversion Ht.
Defined.

Section CohortRange.
Import Cohort.
Variable transactions : list transaction.
Local Abbreviation rows := (annotate transactions).

Lemma elem_of_unique_customers (k : key) (u : Z) :
  u ∈ remove_dups (ct_CustomerID <$> group rows k) <->
  exists r, r ∈ rows /\ key_of r = k /\ ct_CustomerID r = u.
Proof.
  rewrite elem_of_remove_dups, list_elem_of_fmap. split.
  - intros (r & -> & Hr). apply list_elem_of_filter in Hr as [Hk Hr]. eauto.
  - intros (r & Hr & Hk & <-). exists r. split; [reflexivity |].
    apply list_elem_of_filter. auto.
Qed.

(** The customers seen at any age of a cohort are among those of its
    month 0. *)
Lemma customers_within_cohort (c : period) (e : Z) :
  (nunique_customers (group rows (c, e)) <= size transactions c)%nat.
Proof.
  unfold size, nunique_customers. apply submseteq_length.
  apply NoDup_submseteq; [apply NoDup_remove_dups |].
  intros u Hu. apply elem_of_unique_customers in Hu as (r & Hr & Hk & <-).
  destruct (month_0_transaction transactions r Hr) as (r0 & Hr0 & Hu0 & Hk0).
  apply elem_of_unique_customers. exists r0. split; [exact Hr0 |].
  split; [| exact Hu0]. rewrite Hk0. unfold key_of in Hk. now injection Hk as ->.
Qed.

Lemma retention_cell_month_0 (c : period) :
  (c, 0) ∈ group_keys rows -> retention_cell transactions c 0 = of_int 100.
Proof.
  intros Hc. destruct (CohortSize_value transactions c Hc) as [_ Hpos].
  rewrite retention_cell_observed by exact Hc.
  fold (size transactions c). rewrite retention_value by exact Hpos.
  change (of_int 100) with (fnum 100). apply fnum_ext. field.
  change 0%Q with (inject_Z 0). rewrite inject_Z_injective. lia.
Qed.

End CohortRange.

(** X10.  Every populated cell of the retention matrix lies above 0 and
    does not exceed 100: the customers of a cohort seen at any later
    month are among those counted in its month 0. *)
Theorem retention_between_0_and_100
    (transactions : list Cohort.transaction) (c : Cohort.period) (e : Z) :
  Cohort.observed transactions c e ->
  exists q, Cohort.retention_cell transactions c e = Finite q
            /\ (0 < q <= 100)%Q.
Proof.
  intros Hobs.
  destruct (retention_cell_positive transactions c e Hobs) as (q & Hq & Hpos).
  exists q. split; [exact Hq |]. split; [exact Hpos |].
  apply observed_group_keys in Hobs.
  rewrite retention_cell_observed in Hq by exact Hobs.
  destruct (CohortSize_value transactions c) as [_ Hsize];
    [eapply group_keys_month_0, Hobs |].
  rewrite retention_value in Hq by exact Hsize.
  injection Hq as <-. rewrite Qred_correct.
  apply percent_bounds; [apply customers_within_cohort | exact Hsize].
Qed.

Lemma retention_between_0_and_100_witness :
  exists q, Cohort.retention_cell Cohort.sample_transactions (2025, 1) 1
            = Finite q /\ (0 < q <= 100)%Q.
Proof.
  apply (retention_between_0_and_100 Cohort.sample_transactions (2025, 1) 1).
  vm_compute. do 4 right. left.
Defined.

Section CohortCustomers.
Import Cohort.
Variable transactions : list transaction.
Local Abbreviation rows := (annotate transactions).

Lemma elem_of_customer_cohorts (u : Z) (c : period) :
  (u, c) ∈ customer_cohorts transactions <->
  u ∈ CustomerID <$> transactions /\ CohortMonth transactions u = Some c.
Proof.
  unfold customer_cohorts. rewrite list_elem_of_omap. split.
  - intros (u' & Hu' & Hf). rewrite elem_of_remove_dups in Hu'.
    destruct (CohortMonth transactions u') as [cm |] eqn:Hcm;
      simpl in Hf; [| discriminate].
    injection Hf as <- <-. split; assumption.
  - intros [Hu Hcm]. exists u. split; [now apply elem_of_remove_dups |].
    rewrite Hcm. reflexivity.
Qed.

Lemma customer_cohorts_keys_NoDup :
  NoDup (customer_cohorts transactions).*1.
Proof.
  unfold customer_cohorts.
  pose proof (NoDup_remove_dups (CustomerID <$> transactions)) as Hnd.
  induction Hnd as [| u l Hu Hnd IH]; [constructor |].
  cbn. destruct (CohortMonth transactions u) as [cm |]; cbn; [| exact IH].
  constructor; [| exact IH].
  intros Hin. apply list_elem_of_fmap in Hin as ([u' c'] & Heq & Hin).
  simpl in Heq. subst u'. apply list_elem_of_omap in Hin as (u' & Hu' & Hf).
  destruct (CohortMonth transactions u'); simpl in Hf; [| discriminate].
  injection Hf as <- _. contradiction.
Qed.

Lemma customer_has_month_0 (u : Z) (c : period) :
  u ∈ CustomerID <$> transactions -> CohortMonth transactions u = Some c ->
  exists r0, r0 ∈ rows /\ key_of r0 = (c, 0) /\ ct_CustomerID r0 = u.
Proof.
  intros Hu Hcm. apply list_elem_of_fmap in Hu as (t & -> & Ht).
  destruct (month_0_transaction transactions
              (mkCohortTransaction (CustomerID t) c
                 (get_cohort_period c (to_period (InvoiceDate t)))
                 (Revenue t)))
    as (r0 & Hr0 & Hu0 & Hk0).
  { apply elem_of_annotate. eauto. }
  eauto.
Qed.

Lemma row_cohort_month (r : cohort_transaction) :
  r ∈ rows ->
  ct_CustomerID r ∈ CustomerID <$> transactions
  /\ CohortMonth transactions (ct_CustomerID r) = Some (ct_CohortMonth r).
Proof.
  intros Hr. apply elem_of_annotate in Hr as (t & cm & Ht & Hcm & ->).
  simpl. split; [| exact Hcm]. apply list_elem_of_fmap. eauto.
Qed.

End CohortCustomers.

Lemma size_is_customer_count
    (transactions : list Cohort.transaction) (c : Cohort.period) :
  Cohort.size transactions c
  = length (filter (fun p => p.2 = c) (Cohort.customer_cohorts transactions)).
Proof.
  rewrite <- (length_fmap fst (filter _ _)).
  unfold Cohort.size, Cohort.nunique_customers.
  apply Permutation_length, NoDup_Permutation.
  - apply NoDup_remove_dups.
  - eapply sublist_NoDup; [apply customer_cohorts_keys_NoDup |].
    apply fmap_sublist, sublist_filter.
  - intros u. rewrite elem_of_unique_customers, list_elem_of_fmap. split.
    + intros (r & Hr & Hk & <-).
      destruct (row_cohort_month transactions r Hr) as [Hu Hcm].
      exists (Cohort.ct_CustomerID r, c). split; [reflexivity |].
      apply list_elem_of_filter. split; [reflexivity |].
      apply elem_of_customer_cohorts. split; [exact Hu |].
      rewrite Hcm. unfold Cohort.key_of in Hk. now injection Hk as ->.
    + intros ([u' c'] & -> & Hin). simpl.
      apply list_elem_of_filter in Hin as [Hc Hin]. simpl in Hc. subst c'.
      apply elem_of_customer_cohorts in Hin as [Hu Hcm].
      apply (customer_has_month_0 transactions u' c Hu Hcm).
Qed.

(** X11.  The size of a cohort, read from its month 0 entry, is the
    number of customers of the table whose first purchase falls in that
    cohort month. *)
Theorem cohort_size_counts_customers
    (transactions : list Cohort.transaction) (c : Cohort.period) :
  Cohort.size transactions c
  = length (filter (fun p => p.2 = c) (Cohort.customer_cohorts transactions)).
Proof. apply size_is_customer_count. Qed.

Lemma filter_all_elements {A} (P : A -> Prop) `{!forall x, Decision (P x)}
    (l : list A) :
  (forall x, x ∈ l -> P x) -> filter P l = l.
Proof.
  induction l as [| x l IH]; intros Hall; [reflexivity |].
  rewrite filter_cons, decide_True by (apply Hall; left).
  f_equal. apply IH. intros y Hy. apply Hall. now right.
Qed.

Lemma fsum_constant_100 {A} (l : list A) :
  exists q, fsum ((fun _ => of_int 100) <$> l) = fnum q
            /\ (q == 100 * inject_Z (Z.of_nat (length l)))%Q.
Proof.
  induction l as [| x l (q & Hq & Heq)].
  - exists 0%Q. split; reflexivity.
  - exists (100 + Qred q)%Q. split.
    + unfold fsum in *. cbn. rewrite Hq. reflexivity.
    + rewrite Qred_correct, Heq. cbn [length]. rewrite Nat2Z.inj_succ.
      unfold Z.succ. rewrite inject_Z_plus. ring.
Qed.

Lemma fmean_constant_100 {A} (l : list A) :
  l <> [] -> fmean ((fun _ => of_int 100) <$> l) = of_int 100.
Proof.
  intros Hne. unfold fmean. destruct (fsum_constant_100 l) as (q & -> & Hq).
  rewrite length_fmap. unfold of_int at 1.
  assert (Hn : ~ (inject_Z (Z.of_nat (length l)) == 0)%Q).
  { change 0%Q with (inject_Z 0). rewrite inject_Z_injective.
    destruct l; [congruence | simpl; lia]. }
  unfold fnum at 1. rewrite fdiv_finite by exact Hn.
  change (of_int 100) with (fnum 100). apply fnum_ext.
  rewrite Qred_correct, Hq. field. exact Hn.
Qed.

(** X12.  For a table with at least one transaction the average retention
    of month 0 is exactly 100, in [cohort_metrics] as in
    [avg_retention_by_period]: every cohort has a month 0 cell, and each
    one is 100. *)
Theorem avg_retention_month_0_is_100
    (transactions : list Cohort.transaction) :
  transactions <> [] ->
  Cohort.month_avg_retention transactions 0 = Ok (Some (of_int 100))
  /\ (0, of_int 100) ∈ Cohort.avg_retention_by_period transactions.
Proof.
  intros Hne.
  assert (Hindex : forall c, c ∈ Cohort.matrix_index transactions ->
                     (c, 0) ∈ Cohort.group_keys (Cohort.annotate transactions))
    by (intros c; apply elem_of_matrix_index).
  assert (Hsome : exists c, c ∈ Cohort.matrix_index transactions).
  { destruct transactions as [| t l]; [congruence |].
    destruct (cohort_in_matrix_index (t :: l) t) as (c & _ & Hc); [left |].
    eauto. }
  assert (Hcol : 0 ∈ Cohort.matrix_columns transactions).
  { destruct Hsome as (c & Hc). unfold Cohort.matrix_columns.
    rewrite merge_sort_Permutation, elem_of_remove_dups.
    apply list_elem_of_fmap. exists (Cohort.row_of_key transactions (c, 0)).
    split; [reflexivity |]. apply elem_of_cohort_data. eauto. }
  assert (Hmean :
    fmean (dropna ((fun c => Cohort.retention_cell transactions c 0)
                   <$> Cohort.matrix_index transactions))
    = of_int 100).
  { rewrite dropna_column, filter_all_elements.
    2:{ intros c Hc. apply observed_group_keys, Hindex, Hc. }
    rewrite (Forall_fmap_ext_1 _ (fun _ => of_int 100)).
    2:{ apply Forall_forall. intros c Hc.
        apply retention_cell_month_0, Hindex, Hc. }
    apply fmean_constant_100. destruct Hsome as (c & Hc).
    intros Hnil. rewrite Hnil in Hc. inversion Hc. }
  split.
  - unfold Cohort.month_avg_retention, Cohort.retention_column.
    rewrite decide_True by exact Hcol. cbn.
    rewrite Hmean. destruct (decide _) as [| Hlen]; [reflexivity |].
    exfalso. apply Hlen. rewrite dropna_column, filter_all_elements.
    + rewrite length_fmap. destruct Hsome as (c & Hc).
      destruct (Cohort.matrix_index transactions); [inversion Hc | simpl; lia].
    + intros c Hc. apply observed_group_keys, Hindex, Hc.
  - unfold Cohort.avg_retention_by_period. apply list_elem_of_fmap.
    exists 0. split; [now rewrite Hmean | exact Hcol].
Qed.

(** On the sample, both cohorts have their month 0 cell. *)
Lemma avg_retention_month_0_is_100_witness :
  Cohort.month_avg_retention Cohort.sample_transactions 0
  = Ok (Some (of_int 100)).
Proof.
  apply (avg_retention_month_0_is_100 Cohort.sample_transactions).
  discriminate.
Defined.

(** ** Values of arithmetic expressions *)

Lemma has_value_Finite (q : Q) : has_value (Finite q) q.
Proof. simpl. reflexivity. Qed.

Lemma has_value_fnum (q : Q) : has_value (fnum q) q.
Proof. simpl. apply Qred_correct. Qed.

Lemma has_value_of_int (z : Z) : has_value (of_int z) (inject_Z z).
Proof. simpl. reflexivity. Qed.

Lemma has_value_ext (x : float64) (a b : Q) :
  has_value x a -> (a == b)%Q -> has_value x b.
Proof. destruct x; simpl; [| tauto | tauto]. intros -> ->. reflexivity. Qed.

Lemma fadd_value (x y : float64) (a b : Q) :
  has_value x a -> has_value y b -> fadd x y = fnum (a + b).
Proof.
  destruct x, y; simpl; try tauto. intros Ha Hb. apply fnum_ext.
  now rewrite Ha, Hb.
Qed.

Lemma fsub_value (x y : float64) (a b : Q) :
  has_value x a -> has_value y b -> fsub x y = fnum (a - b).
Proof.
  destruct x, y; simpl; try tauto. intros Ha Hb. apply fnum_ext.
  now rewrite Ha, Hb.
Qed.

Lemma fmul_value (x y : float64) (a b : Q) :
  has_value x a -> has_value y b -> fmul x y = fnum (a * b).
Proof.
  destruct x, y; simpl; try tauto. intros Ha Hb. apply fnum_ext.
  now rewrite Ha, Hb.
Qed.

Lemma fdiv_value (x y : float64) (a b : Q) :
  has_value x a -> has_value y b -> ~ (b == 0)%Q -> fdiv x y = fnum (a / b).
Proof.
  destruct x as [q | |], y as [q0 | |]; simpl; try tauto. intros Ha Hb Hnz.
  replace (Qeq_bool q0 0) with false
    by (symmetry; apply Qeq_bool_false; now rewrite Hb).
  apply fnum_ext. now rewrite Ha, Hb.
Qed.

Lemma has_value_fadd (x y : float64) (a b : Q) :
  has_value x a -> has_value y b -> has_value (fadd x y) (a + b).
Proof. intros Ha Hb. rewrite (fadd_value _ _ _ _ Ha Hb). apply has_value_fnum. Qed.

Lemma has_value_fsub (x y : float64) (a b : Q) :
  has_value x a -> has_value y b -> has_value (fsub x y) (a - b).
Proof. intros Ha Hb. rewrite (fsub_value _ _ _ _ Ha Hb). apply has_value_fnum. Qed.

Lemma has_value_fmul (x y : float64) (a b : Q) :
  has_value x a -> has_value y b -> has_value (fmul x y) (a * b).
Proof. intros Ha Hb. rewrite (fmul_value _ _ _ _ Ha Hb). apply has_value_fnum. Qed.

Lemma has_value_fdiv (x y : float64) (a b : Q) :
  has_value x a -> has_value y b -> ~ (b == 0)%Q ->
  has_value (fdiv x y) (a / b).
Proof.
  intros Ha Hb Hnz. rewrite (fdiv_value _ _ _ _ Ha Hb Hnz).
  apply has_value_fnum.
Qed.

(** The value of an expression built from finite numbers; divisors are
    left as goals. *)
Ltac float_value :=
  repeat first
    [ apply has_value_fadd | apply has_value_fsub | apply has_value_fmul
    | apply has_value_fdiv
    | apply has_value_of_int | apply has_value_fnum | apply has_value_Finite ].

Lemma mapM_result_Ok {A B} (f : A -> result B) (l : list A) :
  (forall x, x ∈ l -> exists y, f x = Ok y) ->
  exists ys, mapM f l = Ok ys /\ length ys = length l.
Proof.
  induction l as [| x l IH]; intros Hall.
  - exists []. split; reflexivity.
  - destruct (Hall x ltac:(left)) as [y Hy].
    destruct IH as (ys & Hys & Hlen); [intros x' Hx'; apply Hall; now right |].
    exists (y :: ys). split; [| simpl; now rewrite Hlen].
    cbn. rewrite Hy. cbn. rewrite Hys. reflexivity.
Qed.

Lemma mapM_result_Raise {A B} (f : A -> result B) (l : list A) (e : exn) :
  (forall x, x ∈ l -> (exists y, f x = Ok y) \/ f x = Raise e) ->
  (exists x, x ∈ l /\ f x = Raise e) ->
  mapM f l = Raise e.
Proof.
  induction l as [| x l IH]; intros Hall (x0 & Hx0 & Hraise);
    [inversion Hx0 |].
  cbn. destruct (Hall x ltac:(left)) as [[y Hy] | Hy]; rewrite Hy; cbn;
    [| reflexivity].
  rewrite IH; [reflexivity | intros x' Hx'; apply Hall; now right |].
  apply elem_of_cons in Hx0 as [-> | Hx0]; [congruence | eauto].
Qed.

Lemma month_avg_retention_cases
    (transactions : list Cohort.transaction) (months : Z) :
  (months ∈ Cohort.matrix_columns transactions ->
   exists v, Cohort.month_avg_retention transactions months = Ok v)
  /\ (months ∉ Cohort.matrix_columns transactions ->
      Cohort.month_avg_retention transactions months
      = Raise (KeyError "months")).
Proof.
  unfold Cohort.month_avg_retention, Cohort.retention_column. split; intros H.
  - rewrite decide_True by exact H. cbn. destruct (decide _); eauto.
  - rewrite decide_False by exact H. reflexivity.
Qed.

(** X13.  The loop that fills [cohort_metrics] looks the columns up by
    the labels 0, 1, ..., number of columns - 1.  It completes when all of
    them are column labels, and raises [KeyError] when one of them is
    not, that is when no cohort has a transaction at some elapsed month
    below the number of columns. *)
Theorem cohort_metrics_loop_needs_contiguous_months
    (transactions : list Cohort.transaction) :
  let ncols := Z.of_nat (length (Cohort.matrix_columns transactions)) in
  ((forall months, 0 <= months < ncols ->
      months ∈ Cohort.matrix_columns transactions) ->
   exists averages,
     Cohort.cohort_metrics_loop transactions = Ok averages
     /\ Z.of_nat (length averages) = ncols)
  /\ ((exists months, 0 <= months < ncols
                      /\ months ∉ Cohort.matrix_columns transactions) ->
      Cohort.cohort_metrics_loop transactions = Raise (KeyError "months")).
Proof.
  intros ncols. unfold Cohort.cohort_metrics_loop. fold ncols. split.
  - intros Hall.
    destruct (mapM_result_Ok (Cohort.month_avg_retention transactions)
                (seqZ 0 ncols)) as (ys & Hys & Hlen).
    + intros m Hm. apply elem_of_seqZ in Hm.
      apply month_avg_retention_cases, Hall. lia.
    + exists ys. split; [exact Hys |]. rewrite Hlen, length_seqZ.
      unfold ncols. lia.
  - intros (m & Hm & Hmissing). apply mapM_result_Raise.
    + intros m' _.
      destruct (decide (m' ∈ Cohort.matrix_columns transactions)) as [Hin | Hout].
      * left. apply month_avg_retention_cases, Hin.
      * right. apply month_avg_retention_cases, Hout.
    + exists m. split; [apply elem_of_seqZ; lia |].
      apply month_avg_retention_cases, Hmissing.
Qed.

(** Purchases in December and February only: the columns are labelled 0
    and 2, and the look-up of label 1 fails. *)
Lemma cohort_metrics_loop_needs_contiguous_months_witness :
  Cohort.matrix_columns Cohort.gap_transactions = [0; 2]
  /\ Cohort.cohort_metrics_loop Cohort.gap_transactions
     = Raise (KeyError "months").
Proof.
  split; [reflexivity |].
  apply (cohort_metrics_loop_needs_contiguous_months Cohort.gap_transactions).
  exists 1. split; [vm_compute; split; [discriminate | reflexivity] |].
  vm_compute. intros Hin.
  repeat (apply elem_of_cons in Hin as [Hin | Hin]; [discriminate |]).
  inversion Hin.
Defined.

(** X14.  In exact arithmetic the churn reduction stored in
    [cohort_metrics] is a constant: 14 for every positive baseline churn,
    since the target is 0.86 times the baseline, and 0 when the baseline
    is zero, negative or NaN. *)
Theorem churn_reduction_is_constant (baseline : Q) :
  ((0 < baseline)%Q ->
   Cohort.churn_reduction_pct (Finite baseline) = of_int 14)
  /\ ((baseline <= 0)%Q ->
      Cohort.churn_reduction_pct (Finite baseline) = of_int 0)
  /\ Cohort.churn_reduction_pct NaN = of_int 0.
Proof.
  split; [| split; [| reflexivity]].
  - intros Hpos. unfold Cohort.churn_reduction_pct, Cohort.target_churn.
    replace (fgt (Finite baseline) (of_int 0)) with true
      by (symmetry; apply Qltb_true; exact Hpos).
    erewrite fmul_value;
      [| float_value; apply Qpos_nonzero, Hpos | float_value].
    change (of_int 14) with (fnum 14). apply fnum_ext.
    change (inject_Z 100) with 100%Q. field. apply Qpos_nonzero, Hpos.
  - intros Hneg. unfold Cohort.churn_reduction_pct.
    replace (fgt (Finite baseline) (of_int 0)) with false; [reflexivity |].
    symmetry. apply Qltb_false. exact Hneg.
Qed.

Lemma churn_reduction_is_constant_witness :
  Cohort.churn_reduction_pct (Finite 50) = of_int 14
  /\ Cohort.churn_reduction_pct (Finite 0) = of_int 0.
Proof.
  destruct (churn_reduction_is_constant 50) as (H50 & _ & _).
  destruct (churn_reduction_is_constant 0) as (_ & H0 & _).
  split; [apply H50; reflexivity | apply H0; discriminate].
Defined.

Lemma Qsum_cons (x : Q) (l : list Q) : Qsum (x :: l) = (x + Qsum l)%Q.
Proof. reflexivity. Qed.

Lemma fsum_Finite (qs : list Q) : fsum (Finite <$> qs) = fnum (Qsum qs).
Proof.
  induction qs as [| q qs IH]; [reflexivity |].
  unfold fsum in *. cbn [fmap list_fmap foldr]. rewrite IH.
  apply fadd_value; [apply has_value_Finite | apply has_value_fnum].
Qed.

Lemma fmean_Finite (qs : list Q) :
  qs <> [] ->
  fmean (Finite <$> qs) = fnum (Qsum qs / inject_Z (Z.of_nat (length qs))).
Proof.
  intros Hne. unfold fmean. rewrite fsum_Finite, length_fmap.
  apply fdiv_value; [apply has_value_fnum | apply has_value_of_int |].
  change 0%Q with (inject_Z 0). rewrite inject_Z_injective.
  destruct qs; [congruence | simpl; lia].
Qed.

Lemma Qsum_complement (qs : list Q) :
  (Qsum ((fun q => Qred (inject_Z 100 - q)) <$> qs)
   == 100 * inject_Z (Z.of_nat (length qs)) - Qsum qs)%Q.
Proof.
  induction qs as [| q qs IH]; [reflexivity |].
  rewrite fmap_cons, !Qsum_cons.
  cbn [length]. rewrite IH, Qred_correct, Nat2Z.inj_succ. unfold Z.succ.
  rewrite inject_Z_plus. change (inject_Z 100) with 100%Q.
  change (inject_Z 1) with 1%Q. ring.
Qed.

Lemma finite_values {A} (f : A -> float64) (l : list A) :
  Forall (fun x => exists q, f x = Finite q) l ->
  exists qs, f <$> l = Finite <$> qs.
Proof.
  induction 1 as [| x l (q & Hq) _ (qs & Hqs)].
  - exists []. reflexivity.
  - exists (q :: qs). cbn. now rewrite Hq, Hqs.
Qed.

Lemma dropna_complement {A} (f : A -> float64) (l : list A) :
  dropna ((fun x => fsub (of_int 100) (f x)) <$> l)
  = fsub (of_int 100) <$> dropna (f <$> l).
Proof.
  unfold dropna. induction l as [| x l IH]; [reflexivity |].
  rewrite !fmap_cons, !filter_cons, IH.
  destruct (f x) as [q | s |]; reflexivity.
Qed.

(** X15.  For every elapsed month of the matrix, the average retention is
    a number, and the average churn of that month is 100 minus it: the
    two averages run over the same cells. *)
Theorem avg_churn_complements_retention
    (transactions : list Cohort.transaction) (months : Z) :
  months ∈ Cohort.matrix_columns transactions ->
  exists r,
    (months, fnum r) ∈ Cohort.avg_retention_by_period transactions
    /\ (months, fnum (100 - r)) ∈ Cohort.avg_churn_by_period transactions.
Proof.
  intros Hcol.
  set (cohorts := filter (fun c => Cohort.observed transactions c months)
                         (Cohort.matrix_index transactions)).
  destruct (finite_values
              (fun c => Cohort.retention_cell transactions c months) cohorts)
    as (qs & Hqs).
  { apply Forall_forall. intros c Hc.
    apply list_elem_of_filter in Hc as [Hobs _].
    destruct (retention_cell_positive transactions c months Hobs)
      as (q & Hq & _). eauto. }
  assert (Hne : qs <> []).
  { unfold Cohort.matrix_columns in Hcol.
    rewrite merge_sort_Permutation, elem_of_remove_dups in Hcol.
    apply list_elem_of_fmap in Hcol as (row & -> & Hrow).
    apply elem_of_cohort_data in Hrow as ([c e] & Hk & ->). simpl in *.
    assert (Hc : c ∈ cohorts).
    { apply list_elem_of_filter. split.
      - now apply observed_group_keys.
      - apply elem_of_matrix_index. eapply group_keys_month_0, Hk. }
    intros ->. destruct cohorts; [inversion Hc | discriminate]. }
  exists (Qsum qs / inject_Z (Z.of_nat (length qs)))%Q. split.
  - unfold Cohort.avg_retention_by_period. apply list_elem_of_fmap.
    exists months. split; [| exact Hcol].
    rewrite dropna_column. fold cohorts. rewrite Hqs.
    now rewrite fmean_Finite.
  - unfold Cohort.avg_churn_by_period. apply list_elem_of_fmap.
    exists months. split; [| exact Hcol]. f_equal.
    unfold Cohort.churn_cell.
    rewrite (dropna_complement
               (fun c => Cohort.retention_cell transactions c months)).
    rewrite dropna_column. fold cohorts. rewrite Hqs.
    rewrite <- list_fmap_compose.
    change (fsub (of_int 100) ∘ Finite)
      with (Finite ∘ (fun q => Qred (inject_Z 100 - q))).
    rewrite list_fmap_compose, fmean_Finite, length_fmap.
    2:{ intros Hnil. apply fmap_nil_inv in Hnil. contradiction. }
    apply fnum_ext. rewrite Qsum_complement. field.
    change 0%Q with (inject_Z 0). rewrite inject_Z_injective.
    destruct qs; [congruence | simpl; lia].
Qed.

(** On the sample, month 1: retention 50, churn 50. *)
Lemma avg_churn_complements_retention_witness :
  exists r,
    (1, fnum r) ∈ Cohort.avg_retention_by_period Cohort.sample_transactions
    /\ (1, fnum (100 - r))
       ∈ Cohort.avg_churn_by_period Cohort.sample_transactions.
Proof.
  apply (avg_churn_complements_retention Cohort.sample_transactions 1).
  vm_compute. right. left.
Defined.

(** ** Sums over the groups of a [groupby] *)

Lemma Qsum_ext {K} (f g : K -> Q) (ks : list K) :
  (forall k, k ∈ ks -> (f k == g k)%Q) ->
  (Qsum (f <$> ks) == Qsum (g <$> ks))%Q.
Proof.
  induction ks as [| k ks IH]; intros Hfg; [reflexivity |].
  rewrite !fmap_cons, !Qsum_cons.
  rewrite (Hfg k) by left. rewrite IH; [reflexivity |].
  intros k' Hk'. apply Hfg. now right.
Qed.

Lemma Qsum_pointwise_plus {K} (f g : K -> Q) (ks : list K) :
  (Qsum ((fun k => f k + g k)%Q <$> ks)
   == Qsum (f <$> ks) + Qsum (g <$> ks))%Q.
Proof.
  induction ks as [| k ks IH]; [reflexivity |].
  rewrite !fmap_cons, !Qsum_cons, IH. ring.
Qed.

Lemma Qsum_zero {K} (ks : list K) : (Qsum ((fun _ => 0%Q) <$> ks) == 0)%Q.
Proof.
  induction ks as [| k ks IH]; [reflexivity |].
  rewrite fmap_cons, Qsum_cons, IH. ring.
Qed.

(** A value counted at one key of a duplicate-free list of keys. *)
Lemma Qsum_indicator {K} `{EqDecision K} (k0 : K) (v : Q) (ks : list K) :
  NoDup ks ->
  (Qsum ((fun k => if decide (k0 = k) then v else 0%Q) <$> ks)
   == if decide (k0 ∈ ks) then v else 0%Q)%Q.
Proof.
  induction 1 as [| k ks Hk Hnd IH]; [reflexivity |].
  rewrite fmap_cons, Qsum_cons, IH.
  destruct (decide (k0 = k)) as [-> | Hne].
  - rewrite (decide_True (P := k ∈ k :: ks)) by left.
    rewrite decide_False by exact Hk. ring.
  - destruct (decide (k0 ∈ ks)) as [Hin | Hout].
    + rewrite (decide_True (P := k0 ∈ k :: ks)) by now right. ring.
    + rewrite (decide_False (P := k0 ∈ k :: ks)); [ring |].
      intros Hin. apply elem_of_cons in Hin as [? | ?]; contradiction.
Qed.

Lemma sum_list_zero {K} (ks : list K) :
  sum_list ((fun _ => 0%nat) <$> ks) = 0%nat.
Proof. induction ks as [| k ks IH]; [reflexivity | cbn; exact IH]. Qed.

Lemma sum_list_pointwise_plus {K} (f g : K -> nat) (ks : list K) :
  sum_list ((fun k => f k + g k)%nat <$> ks)
  = (sum_list (f <$> ks) + sum_list (g <$> ks))%nat.
Proof.
  induction ks as [| k ks IH]; [reflexivity |].
  rewrite !fmap_cons. cbn [sum_list_with id]. rewrite IH. lia.
Qed.

Lemma sum_list_indicator {K} `{EqDecision K} (k0 : K) (ks : list K) :
  NoDup ks ->
  sum_list ((fun k => if decide (k0 = k) then 1 else 0)%nat <$> ks)
  = if decide (k0 ∈ ks) then 1%nat else 0%nat.
Proof.
  induction 1 as [| k ks Hk Hnd IH]; [reflexivity |].
  rewrite fmap_cons. cbn [sum_list_with id]. rewrite IH.
  destruct (decide (k0 = k)) as [-> | Hne].
  - rewrite (decide_True (P := k ∈ k :: ks)) by left.
    rewrite decide_False by exact Hk. reflexivity.
  - destruct (decide (k0 ∈ ks)) as [Hin | Hout].
    + rewrite (decide_True (P := k0 ∈ k :: ks)) by now right. reflexivity.
    + rewrite (decide_False (P := k0 ∈ k :: ks)); [reflexivity |].
      intros Hin. apply elem_of_cons in Hin as [? | ?]; contradiction.
Qed.

Section GroupBy.
Context {A K : Type} `{EqDecision K} (key : A -> K) (val : A -> Q).

(** The sums of the groups add up to the sum of the table. *)
Lemma Qsum_groups (ks : list K) (rows : list A) :
  NoDup ks -> (forall r, r ∈ rows -> key r ∈ ks) ->
  (Qsum ((fun k => Qsum (val <$> filter (fun r => key r = k) rows)) <$> ks)
   == Qsum (val <$> rows))%Q.
Proof.
  intros Hnd. induction rows as [| r rows IH]; intros Hkeys.
  - cbn. apply Qsum_zero.
  - rewrite (Qsum_ext _
       (fun k => (if decide (key r = k) then val r else 0%Q)
                 + Qsum (val <$> filter (fun r' => key r' = k) rows))%Q).
    2:{ intros k _. rewrite filter_cons.
        destruct (decide (key r = k));
          [rewrite fmap_cons, Qsum_cons; reflexivity | ring]. }
    rewrite Qsum_pointwise_plus, Qsum_indicator by exact Hnd.
    rewrite decide_True by (apply Hkeys; left).
    rewrite IH by (intros r' Hr'; apply Hkeys; now right).
    reflexivity.
Qed.

(** The sizes of the groups add up to the size of the table. *)
Lemma length_groups (ks : list K) (rows : list A) :
  NoDup ks -> (forall r, r ∈ rows -> key r ∈ ks) ->
  sum_list ((fun k => length (filter (fun r => key r = k) rows)) <$> ks)
  = length rows.
Proof.
  intros Hnd. induction rows as [| r rows IH]; intros Hkeys.
  - cbn. apply sum_list_zero.
  - rewrite (Forall_fmap_ext_1 _
       (fun k => (if decide (key r = k) then 1 else 0)
                 + length (filter (fun r' => key r' = k) rows))%nat).
    2:{ apply Forall_forall. intros k _. rewrite filter_cons.
        destruct (decide (key r = k)); reflexivity. }
    rewrite sum_list_pointwise_plus, sum_list_indicator by exact Hnd.
    rewrite decide_True by (apply Hkeys; left).
    rewrite IH by (intros r' Hr'; apply Hkeys; now right).
    reflexivity.
Qed.
End GroupBy.

Lemma annotate_keeps_revenue (transactions : list Cohort.transaction) :
  Cohort.ct_Revenue <$> Cohort.annotate transactions
  = Cohort.Revenue <$> transactions.
Proof.
  unfold Cohort.annotate.
  assert (Hall : forall t, t ∈ transactions ->
            is_Some (Cohort.CohortMonth transactions (Cohort.CustomerID t))).
  { intros t Ht.
    destruct (first_purchase_is_a_transaction transactions t Ht)
      as (t0 & _ & _ & Hfp).
    unfold Cohort.CohortMonth. rewrite Hfp. eauto. }
  revert Hall.
  generalize (Cohort.CohortMonth transactions) as cohort_month.
  intros cohort_month.
  induction transactions as [| t l IH]; intros Hall; [reflexivity |].
  destruct (Hall t ltac:(left)) as [cm Hcm]. cbn. rewrite Hcm. cbn.
  f_equal. apply IH. intros t' Ht'. apply Hall. now right.
Qed.

Lemma group_keys_NoDup (rows : list Cohort.cohort_transaction) :
  NoDup (Cohort.group_keys rows).
Proof.
  unfold Cohort.group_keys. rewrite merge_sort_Permutation.
  apply NoDup_remove_dups.
Qed.

(** X16.  Grouping loses no revenue: the [Revenue] entries of
    [cohort_data] add up to the revenue of all transactions. *)
Theorem cohort_data_keeps_revenue (transactions : list Cohort.transaction) :
  (Qsum (Cohort.row_Revenue <$> Cohort.cohort_data transactions)
   == Qsum (Cohort.Revenue <$> transactions))%Q.
Proof.
  unfold Cohort.cohort_data. rewrite <- list_fmap_compose.
  rewrite <- annotate_keeps_revenue.
  apply (Qsum_groups Cohort.key_of Cohort.ct_Revenue).
  - apply group_keys_NoDup.
  - intros r Hr. apply elem_of_group_keys. eauto.
Qed.

Lemma cohort_sizes_by_key (transactions : list Cohort.transaction) :
  (Cohort.cohort_sizes transactions).*2
  = (fun c => Cohort.size transactions c)
    <$> (filter (fun k : Cohort.key => k.2 = 0)
                (Cohort.group_keys (Cohort.annotate transactions))).*1.
Proof.
  unfold Cohort.cohort_sizes, Cohort.cohort_data.
  induction (Cohort.group_keys (Cohort.annotate transactions))
    as [| [c e] ks IH]; [reflexivity |].
  rewrite fmap_cons, !filter_cons. cbn [Cohort.row_of_key
    Cohort.row_MonthsSinceFirst snd].
  destruct (decide (e = 0)) as [-> | Hne].
  - rewrite !fmap_cons. cbn [fst snd]. f_equal. exact IH.
  - exact IH.
Qed.

(** X17.  The 'Total Customers' figure, the sum of the cohort sizes, is
    the number of distinct customers of the transaction table: every
    customer is counted in exactly one cohort. *)
Theorem total_customers_counts_distinct
    (transactions : list Cohort.transaction) :
  Cohort.total_customers transactions
  = length (remove_dups (Cohort.CustomerID <$> transactions)).
Proof.
  unfold Cohort.total_customers. rewrite cohort_sizes_by_key.
  set (ks0 := filter (fun k : Cohort.key => k.2 = 0)
                     (Cohort.group_keys (Cohort.annotate transactions))).
  rewrite (Forall_fmap_ext_1 _
     (fun c => length (filter (fun p : Z * Cohort.period => p.2 = c)
                              (Cohort.customer_cohorts transactions))))
    by (apply Forall_forall; intros c _; apply size_is_customer_count).
  rewrite (length_groups snd).
  - unfold Cohort.customer_cohorts. apply length_omap_total.
    intros u Hu. rewrite elem_of_remove_dups in Hu.
    apply list_elem_of_fmap in Hu as (t & -> & Ht).
    destruct (first_purchase_is_a_transaction transactions t Ht)
      as (t0 & _ & _ & Hfp).
    unfold Cohort.CohortMonth. rewrite Hfp. cbn. eauto.
  - apply NoDup_fmap_2_strong.
    + intros [c1 e1] [c2 e2] H1 H2 Heq.
      apply list_elem_of_filter in H1 as [H1 _].
      apply list_elem_of_filter in H2 as [H2 _]. simpl in *. congruence.
    + apply NoDup_filter, group_keys_NoDup.
  - intros [u c] Hp. simpl.
    apply elem_of_customer_cohorts in Hp as [Hu Hcm].
    destruct (customer_has_month_0 transactions u c Hu Hcm)
      as (r0 & Hr0 & Hk0 & _).
    apply list_elem_of_fmap. exists (c, 0). split; [reflexivity |].
    apply list_elem_of_filter. split; [reflexivity |].
    apply elem_of_group_keys. eauto.
Qed.

(* ===================================================================== *)
(** ** RFM engine: scores, segments and concentration                     *)
(* ===================================================================== *)

Lemma mapM_result_inv {A B} (f : A -> result B) (l : list A) (ys : list B) :
  mapM f l = Ok ys -> Forall2 (fun x y => f x = Ok y) l ys.
Proof.
  revert ys. induction l as [| x l IH]; intros ys.
  - cbn. intros [= <-]. constructor.
  - cbn. destruct (f x) as [y | e] eqn:Hx; cbn; [| discriminate].
    destruct (mapM f l) as [ys' | e] eqn:Hl; cbn; [| discriminate].
    intros [= <-]. constructor; [exact Hx | apply IH; reflexivity].
Qed.

Lemma label_of_in_labels (bins : list Q) (labels : list Z) (v : Q) (s : Z) :
  RFM.label_of bins labels v = Ok s -> s ∈ labels.
Proof.
  unfold RFM.label_of. cbv zeta.
  destruct (_ || _); [discriminate |].
  destruct (labels !! _) as [label |] eqn:Hlook; [| discriminate].
  intros [= <-]. eapply list_elem_of_lookup_2, Hlook.
Qed.

Lemma qcut_scores (x : list Q) (labels scores : list Z) :
  RFM.qcut x labels = Ok scores ->
  length scores = length x /\ Forall (fun s => s ∈ labels) scores.
Proof.
  unfold RFM.qcut. cbv zeta. destruct (negb _); [discriminate |].
  intros Hmap. apply mapM_result_inv in Hmap. split.
  - symmetry. eapply Forall2_length, Hmap.
  - induction Hmap as [| v s l ys Hv _ IH]; constructor; [| exact IH].
    eapply label_of_in_labels, Hv.
Qed.

Lemma score_label_range (s : Z) (labels : list Z) :
  s ∈ labels -> (labels = [5; 4; 3; 2; 1] \/ labels = [1; 2; 3; 4; 5]) ->
  RFM.score_in_range s.
Proof.
  unfold RFM.score_in_range. intros Hs [-> | ->];
    repeat (apply elem_of_cons in Hs as [-> | Hs]; [lia |]); inversion Hs.
Qed.

(** X18.  When the scoring succeeds it returns one triple of scores per
    customer, each score between 1 and 5. *)
Theorem rfm_scores_in_range
    (rfm_data : list RFM.customer) (scores : list (Z * Z * Z)) :
  RFM.rfm_scores rfm_data = Ok scores ->
  length scores = length rfm_data
  /\ Forall (fun s => RFM.score_in_range s.1.1 /\ RFM.score_in_range s.1.2
                      /\ RFM.score_in_range s.2) scores.
Proof.
  unfold RFM.rfm_scores.
  destruct (RFM.R_Score rfm_data) as [r | e] eqn:Hr; cbn; [| discriminate].
  destruct (RFM.F_Score rfm_data) as [f | e] eqn:Hf; cbn; [| discriminate].
  destruct (RFM.M_Score rfm_data) as [m | e] eqn:Hm; cbn; [| discriminate].
  intros [= <-].
  apply qcut_scores in Hr as [Hlr Hr], Hf as [Hlf Hf], Hm as [Hlm Hm].
  rewrite !length_fmap in Hlr.
  assert (Hrank : forall l : list Q, length (RFM.rank_first l) = length l).
  { intros l. unfold RFM.rank_first. generalize l at 1 as all.
    generalize (@nil Q) as before.
    induction l as [| v l IH]; intros before all; [reflexivity |].
    simpl. f_equal. apply IH. }
  rewrite Hrank, !length_fmap in Hlf. rewrite Hrank, length_fmap in Hlm.
  split; [rewrite !length_zip; lia |].
  apply Forall_forall. intros [[a b] c] Hin. simpl.
  pose proof (elem_of_zip_r _ _ _ _ Hin) as Hc.
  apply elem_of_zip_l in Hin.
  pose proof (elem_of_zip_r _ _ _ _ Hin) as Hb.
  apply elem_of_zip_l in Hin.
  rewrite Forall_forall in Hr, Hf, Hm.
  split; [| split].
  - apply (score_label_range a [5; 4; 3; 2; 1]); [apply Hr, Hin | now left].
  - apply (score_label_range b [1; 2; 3; 4; 5]); [apply Hf, Hb | now right].
  - apply (score_label_range c [1; 2; 3; 4; 5]); [apply Hm, Hc | now right].
Qed.

Lemma rfm_scores_in_range_witness :
  length [(5, 3, 2); (4, 1, 1); (3, 2, 4); (2, 5, 5); (1, 4, 3)]
  = length RFM.with_nonpositive_monetary.
Proof.
  apply (rfm_scores_in_range RFM.with_nonpositive_monetary
           [(5, 3, 2); (4, 1, 1); (3, 2, 4); (2, 5, 5); (1, 4, 3)]).
  reflexivity.
Defined.

(** X19.  On scores in 1..5 the catch-all label 'Lost' is given in two
    cases only: a customer scored 1 on Recency with Frequency at least 3
    and Monetary at most 2, and a customer scored 4 or 5 on Recency with
    Frequency at least 2 and Monetary 1. *)
Theorem lost_segment_cases (r f m : Z) :
  RFM.score_in_range r -> RFM.score_in_range f -> RFM.score_in_range m ->
  (RFM.segment_customer r f m = "Lost"
   <-> (r = 1 /\ 3 <= f /\ m <= 2) \/ (4 <= r /\ 2 <= f /\ m = 1)).
Proof.
  intros Hr Hf Hm. apply score_cases in Hr, Hf, Hm.
  destruct Hr as [-> | [-> | [-> | [-> | ->]]]];
  destruct Hf as [-> | [-> | [-> | [-> | ->]]]];
  destruct Hm as [-> | [-> | [-> | [-> | ->]]]];
  (split;
   [ intros H; first [lia | exfalso; revert H; vm_compute; discriminate]
   | intros H; first [reflexivity | lia] ]).
Qed.

(** A customer who bought recently and often, with the lowest Monetary
    score. *)
Lemma lost_segment_cases_witness : RFM.segment_customer 5 4 1 = "Lost".
Proof.
  apply (lost_segment_cases 5 4 1); unfold RFM.score_in_range; lia.
Defined.

Lemma top_customers_zero (p : Q) (rfm_sorted : list Q) :
  (inject_Z (Z.of_nat (length rfm_sorted)) * p < 1)%Q ->
  RFM.top_customers p rfm_sorted = 0%nat.
Proof.
  intros Hlt. unfold RFM.top_customers.
  pose proof (Qfloor_le (inject_Z (Z.of_nat (length rfm_sorted)) * p)) as Hfl.
  assert (Hz : (inject_Z (Qfloor (inject_Z (Z.of_nat (length rfm_sorted)) * p))
                < inject_Z 1)%Q) by (change (inject_Z 1) with 1%Q; lra).
  rewrite <- Zlt_Qlt in Hz. lia.
Qed.

Lemma small_table_share (p : Q) (monetary : list Q) :
  (0 < Qsum monetary)%Q ->
  (inject_Z (Z.of_nat (length monetary)) * p < 1)%Q ->
  RFM.top_revenue_percent p monetary = of_int 0.
Proof.
  intros Htotal Hsmall.
  rewrite top_revenue_percent_value by exact Htotal.
  rewrite top_customers_zero by (now rewrite length_sort_desc).
  change (of_int 0) with (fnum 0). apply fnum_ext.
  rewrite take_0. unfold Qsum at 1. cbn [foldr]. unfold Qdiv.
  rewrite !Qmult_0_l. reflexivity.
Qed.

(** X20.  On small tables the concentration figures are 0: with fewer
    than ten customers [int(len * 0.1)] is 0 and the top 10% share is the
    share of nobody; with fewer than five the same holds for the top 20%
    share. *)
Theorem small_table_concentration_is_zero (monetary : list Q) :
  (0 < Qsum monetary)%Q ->
  ((length monetary < 10)%nat ->
   RFM.top_10_pct_revenue_percent monetary = of_int 0)
  /\ ((length monetary < 5)%nat ->
      RFM.top_20_pct_revenue_percent monetary = of_int 0).
Proof.
  intros Htotal. split; intros Hlen; apply small_table_share; try exact Htotal.
  - assert (H : (inject_Z (Z.of_nat (length monetary)) <= inject_Z 9)%Q)
      by (rewrite <- Zle_Qle; lia).
    change (inject_Z 9) with 9%Q in H. lra.
  - assert (H : (inject_Z (Z.of_nat (length monetary)) <= inject_Z 4)%Q)
      by (rewrite <- Zle_Qle; lia).
    change (inject_Z 4) with 4%Q in H. lra.
Qed.

(** The four customers of the specification's scenario. *)
Lemma small_table_concentration_is_zero_witness :
  RFM.top_10_pct_revenue_percent [100; 200; 300; 400]%Q = of_int 0
  /\ RFM.top_20_pct_revenue_percent [100; 200; 300; 400]%Q = of_int 0.
Proof.
  destruct (small_table_concentration_is_zero [100; 200; 300; 400]%Q)
    as [H10 H20]; [reflexivity |].
  split; [apply H10 | apply H20]; simpl; lia.
Defined.

Lemma Qsum_nonneg (l : list Q) :
  Forall (fun x => 0 <= x)%Q l -> (0 <= Qsum l)%Q.
Proof.
  induction 1 as [| x l Hx _ IH]; [apply Qle_refl |].
  rewrite Qsum_cons. lra.
Qed.

(** X21.  For non-negative Monetary values with a positive total, the
    revenue share of any top fraction of the customers is a number
    between 0 and 100. *)
Theorem top_share_between_0_and_100 (fraction : Q) (monetary : list Q) :
  Forall (fun x => 0 <= x)%Q monetary ->
  (0 < Qsum monetary)%Q ->
  exists q, RFM.top_revenue_percent fraction monetary = Finite q
            /\ (0 <= q <= 100)%Q.
Proof.
  intros Hnonneg Htotal.
  rewrite top_revenue_percent_value by exact Htotal.
  eexists. split; [reflexivity |]. rewrite Qred_correct.
  set (sorted := RFM.sort_desc monetary).
  set (k := RFM.top_customers fraction sorted).
  assert (Hsorted : Forall (fun x => 0 <= x)%Q sorted)
    by (apply Forall_sort_desc, Hnonneg).
  assert (Hsum : (0 < Qsum sorted)%Q)
    by (unfold sorted; now rewrite Qsum_sort_desc).
  assert (Hlow : (0 <= Qsum (take k sorted))%Q).
  { apply Qsum_nonneg, Forall_take, Hsorted. }
  assert (Hhigh : (Qsum (take k sorted) <= Qsum sorted)%Q).
  { destruct (decide (k <= length sorted)%nat) as [Hk | Hk].
    - rewrite <- (take_ge sorted (length sorted)) at 2 by lia.
      apply Qsum_take_mono; assumption.
    - rewrite take_ge by lia. apply Qle_refl. }
  assert (H0 : (0 <= Qsum (take k sorted) / Qsum sorted)%Q)
    by (apply Qle_shift_div_l; [exact Hsum | lra]).
  assert (H1 : (Qsum (take k sorted) / Qsum sorted <= 1)%Q)
    by (apply Qle_shift_div_r; [exact Hsum | lra]).
  change (inject_Z 100) with 100%Q. lra.
Qed.

Lemma top_share_between_0_and_100_witness :
  exists q,
    RFM.top_revenue_percent (1 # 2) [100; 200; 300; 400]%Q = Finite q
    /\ (0 <= q <= 100)%Q.
Proof.
  apply (top_share_between_0_and_100 (1 # 2) [100; 200; 300; 400]%Q).
  - repeat constructor; discriminate.
  - reflexivity.
Defined.

Lemma insert_desc_Permutation (x : Q) (l : list Q) :
  RFM.insert_desc x l ≡ₚ x :: l.
Proof.
  induction l as [| y l IH]; simpl; [reflexivity |].
  destruct (Qle_bool y x); [reflexivity |].
  rewrite IH. apply Permutation_swap.
Qed.

Lemma sort_desc_Permutation (l : list Q) : RFM.sort_desc l ≡ₚ l.
Proof.
  induction l as [| x l IH]; simpl; [reflexivity |].
  rewrite insert_desc_Permutation. now rewrite IH.
Qed.

Lemma insert_desc_sorted (x : Q) (l : list Q) :
  StronglySorted (fun a b => b <= a)%Q l ->
  StronglySorted (fun a b => b <= a)%Q (RFM.insert_desc x l).
Proof.
  induction 1 as [| y l Hl IH Hy]; simpl.
  - repeat constructor.
  - destruct (Qle_bool y x) eqn:Hyx.
    + apply Qle_bool_iff in Hyx. constructor.
      * constructor; assumption.
      * constructor; [exact Hyx |].
        eapply Forall_impl; [exact Hy |]. simpl. intros z Hz. lra.
    + assert (Hxy : (x <= y)%Q).
      { apply not_true_iff_false in Hyx. rewrite Qle_bool_iff in Hyx. lra. }
      constructor; [exact IH |].
      rewrite insert_desc_Permutation. constructor; assumption.
Qed.

Lemma sort_desc_sorted (l : list Q) :
  StronglySorted (fun a b => b <= a)%Q (RFM.sort_desc l).
Proof.
  induction l as [| x l IH]; simpl; [constructor |].
  apply insert_desc_sorted, IH.
Qed.

(** X22.  The customers counted in a top group are the highest spenders:
    the sorted column is a rearrangement of the Monetary column, and
    every value among its first [k] is at least every value after
    them. *)
Theorem top_customers_spend_most (monetary : list Q) (k : nat) (x y : Q) :
  x ∈ take k (RFM.sort_desc monetary) ->
  y ∈ drop k (RFM.sort_desc monetary) ->
  (y <= x)%Q /\ RFM.sort_desc monetary ≡ₚ monetary.
Proof.
  intros Hx Hy. split; [| apply sort_desc_Permutation].
  pose proof (sort_desc_sorted monetary) as Hsorted.
  rewrite <- (take_drop k (RFM.sort_desc monetary)) in Hsorted.
  exact (StronglySorted_app_1_elem_of _ _ _ _ _ Hsorted Hx Hy).
Qed.

Lemma top_customers_spend_most_witness :
  (200 <= 300)%Q /\ RFM.sort_desc [100; 300; 200; 400]%Q
                    ≡ₚ [100; 300; 200; 400]%Q.
Proof.
  apply (top_customers_spend_most [100; 300; 200; 400]%Q 2 300 200).
  - simpl. right. left.
  - simpl. left.
Defined.



(** *** Ranks are a rearrangement of 1, ..., n *)

Lemma rank_first_from_zrank (all before rest : list Q) :
  RFM.rank_first_from all before rest
  = inject_Z <$> RFM.zrank_from all before rest.
Proof.
  revert before. induction rest as [| v rest IH]; intros before;
    [reflexivity |].
  simpl. now rewrite IH.
Qed.

Lemma count_app (f : Q -> bool) (l1 l2 : list Q) :
  RFM.count f (l1 ++ l2) = RFM.count f l1 + RFM.count f l2.
Proof. unfold RFM.count. rewrite List.filter_app, length_app. lia. Qed.

Lemma count_cons (f : Q -> bool) (y : Q) (l : list Q) :
  RFM.count f (y :: l) = (if f y then 1 else 0) + RFM.count f l.
Proof. unfold RFM.count. simpl. destruct (f y); simpl length; lia. Qed.

Lemma count_nonneg (f : Q -> bool) (l : list Q) : 0 <= RFM.count f l.
Proof. unfold RFM.count. lia. Qed.

Lemma count_ext (f g : Q -> bool) (l : list Q) :
  (forall y, f y = g y) -> RFM.count f l = RFM.count g l.
Proof.
  intros Hfg. induction l as [| y l IH]; [reflexivity |].
  now rewrite !count_cons, Hfg, IH.
Qed.

Lemma zrank_from_lookup (all : list Q) (rest before : list Q) (i : nat) (v : Q) :
  rest !! i = Some v ->
  RFM.zrank_from all before rest !! i
  = Some (1 + RFM.count (fun y => Qltb y v) all
            + (RFM.count (fun y => Qeq_bool y v) (take i rest)
               + RFM.count (fun y => Qeq_bool y v) before)).
Proof.
  revert before i. induction rest as [| w rest IH]; intros before i Hi;
    [discriminate |].
  destruct i as [| i]; simpl in Hi.
  - injection Hi as ->. simpl. apply f_equal.
    change (RFM.count (fun y => Qeq_bool y v) []) with 0. lia.
  - simpl. rewrite (IH (w :: before) i Hi). apply f_equal.
    rewrite !(count_cons _ w). lia.
Qed.

Lemma zrank_lookup (x : list Q) (i : nat) (v : Q) :
  x !! i = Some v ->
  RFM.zrank x !! i
  = Some (1 + RFM.count (fun y => Qltb y v) x
            + RFM.count (fun y => Qeq_bool y v) (take i x)).
Proof.
  intros Hi. unfold RFM.zrank. rewrite (zrank_from_lookup x x [] i v Hi).
  apply f_equal.
  change (RFM.count (fun y => Qeq_bool y v) []) with 0. lia.
Qed.

Lemma length_zrank_from (all before rest : list Q) :
  length (RFM.zrank_from all before rest) = length rest.
Proof.
  revert before. induction rest as [| v rest IH]; intros before;
    [reflexivity |].
  simpl. now rewrite IH.
Qed.

(** An element is counted among its equals, after the earlier ones. *)
Lemma count_eq_prefix (x : list Q) (i : nat) (a v : Q) :
  x !! i = Some a -> Qeq_bool a v = true ->
  RFM.count (fun y => Qeq_bool y v) (take i x) + 1
  <= RFM.count (fun y => Qeq_bool y v) x.
Proof.
  intros Hi Ha. rewrite <- (take_drop_middle x i a Hi) at 2.
  rewrite count_app, count_cons, Ha.
  pose proof (count_nonneg (fun y => Qeq_bool y v) (drop (S i) x)). lia.
Qed.

Lemma count_eq_prefix_lt (x : list Q) (i j : nat) (a v : Q) :
  x !! i = Some a -> Qeq_bool a v = true -> (i < j)%nat ->
  RFM.count (fun y => Qeq_bool y v) (take i x) + 1
  <= RFM.count (fun y => Qeq_bool y v) (take j x).
Proof.
  intros Hi Ha Hij.
  assert (Hlook : take j x !! i = Some a)
    by (apply lookup_take_Some; auto).
  pose proof (count_eq_prefix (take j x) i a v Hlook Ha) as H.
  rewrite take_take, Nat.min_l in H by lia. exact H.
Qed.

(** What is smaller than or equal to [a] is smaller than any [b] above
    [a]. *)
Lemma count_lt_eq_below (x : list Q) (a b : Q) :
  (a < b)%Q ->
  RFM.count (fun y => Qltb y a) x + RFM.count (fun y => Qeq_bool y a) x
  <= RFM.count (fun y => Qltb y b) x.
Proof.
  intros Hab. induction x as [| y x IH]; [unfold RFM.count; simpl; lia |].
  rewrite !count_cons.
  destruct (Qltb y a) eqn:H1, (Qeq_bool y a) eqn:H2, (Qltb y b) eqn:H3;
    try lia; exfalso;
    try apply Qltb_true in H1; try apply Qeq_bool_iff in H2;
    try apply Qltb_false in H3; try apply Qltb_false in H1;
    try (rewrite H2 in *); lra.
Qed.

Lemma count_lt_eq_length (x : list Q) (a : Q) :
  RFM.count (fun y => Qltb y a) x + RFM.count (fun y => Qeq_bool y a) x
  <= Z.of_nat (length x).
Proof.
  induction x as [| y x IH]; [unfold RFM.count; simpl; lia |].
  rewrite !count_cons. cbn [length].
  destruct (Qltb y a) eqn:H1, (Qeq_bool y a) eqn:H2; try lia.
  exfalso. apply Qltb_true in H1. apply Qeq_bool_iff in H2.
  rewrite H2 in H1. lra.
Qed.

Lemma count_same_value (x : list Q) (a b : Q) :
  (a == b)%Q ->
  RFM.count (fun y => Qltb y a) x = RFM.count (fun y => Qltb y b) x
  /\ forall l, RFM.count (fun y => Qeq_bool y a) l
               = RFM.count (fun y => Qeq_bool y b) l.
Proof.
  intros Hab. split; [| intros l]; apply count_ext; intros y;
    apply eq_true_iff_eq.
  - rewrite !Qltb_true, Hab. reflexivity.
  - rewrite !Qeq_bool_iff, Hab. reflexivity.
Qed.

Lemma Qeq_bool_refl (a : Q) : Qeq_bool a a = true.
Proof. apply Qeq_bool_iff. reflexivity. Qed.

(** The rank of a smaller value is smaller. *)
Lemma zrank_lt (x : list Q) (i j : nat) (a b : Q) :
  x !! i = Some a -> x !! j = Some b -> (a < b)%Q ->
  1 + RFM.count (fun y => Qltb y a) x
    + RFM.count (fun y => Qeq_bool y a) (take i x)
  < 1 + RFM.count (fun y => Qltb y b) x
      + RFM.count (fun y => Qeq_bool y b) (take j x).
Proof.
  intros Hi Hj Hab.
  pose proof (count_eq_prefix x i a a Hi (Qeq_bool_refl a)).
  pose proof (count_lt_eq_below x a b Hab).
  pose proof (count_nonneg (fun y => Qeq_bool y b) (take j x)). lia.
Qed.

Lemma zrank_NoDup (x : list Q) : NoDup (RFM.zrank x).
Proof.
  apply NoDup_alt. intros i j z Hi Hj.
  assert (Hli : (i < length x)%nat).
  { apply lookup_lt_Some in Hi. unfold RFM.zrank in Hi.
    now rewrite length_zrank_from in Hi. }
  assert (Hlj : (j < length x)%nat).
  { apply lookup_lt_Some in Hj. unfold RFM.zrank in Hj.
    now rewrite length_zrank_from in Hj. }
  destruct (lookup_lt_is_Some_2 x i Hli) as [a Ha].
  destruct (lookup_lt_is_Some_2 x j Hlj) as [b Hb].
  rewrite (zrank_lookup x i a Ha) in Hi. rewrite (zrank_lookup x j b Hb) in Hj.
  injection Hi as Hi. injection Hj as Hj.
  destruct (Q_dec a b) as [[Hab | Hba] | Heq].
  - pose proof (zrank_lt x i j a b Ha Hb Hab). lia.
  - pose proof (zrank_lt x j i b a Hb Ha Hba). lia.
  - destruct (count_same_value x a b Heq) as [Hlt Heqc].
    assert (Hab : Qeq_bool a b = true) by now apply Qeq_bool_iff.
    assert (Hba : Qeq_bool b a = true)
      by (apply Qeq_bool_iff; now symmetry).
    destruct (Nat.lt_trichotomy i j) as [Hij | [Hij | Hij]];
      [| exact Hij |].
    + pose proof (count_eq_prefix_lt x i j a b Ha Hab Hij).
      rewrite (Heqc (take i x)) in Hi. lia.
    + pose proof (count_eq_prefix_lt x j i b a Hb Hba Hij).
      rewrite <- (Heqc (take j x)) in Hj. lia.
Qed.

Lemma zrank_range (x : list Q) (z : Z) :
  z ∈ RFM.zrank x -> 1 <= z <= Z.of_nat (length x).
Proof.
  intros Hz. apply list_elem_of_lookup in Hz as (i & Hi).
  assert (Hli : (i < length x)%nat).
  { apply lookup_lt_Some in Hi. unfold RFM.zrank in Hi.
    now rewrite length_zrank_from in Hi. }
  destruct (lookup_lt_is_Some_2 x i Hli) as [a Ha].
  rewrite (zrank_lookup x i a Ha) in Hi. injection Hi as <-.
  pose proof (count_eq_prefix x i a a Ha (Qeq_bool_refl a)).
  pose proof (count_lt_eq_length x a).
  pose proof (count_nonneg (fun y => Qltb y a) x).
  pose proof (count_nonneg (fun y => Qeq_bool y a) (take i x)). lia.
Qed.

Lemma zrank_Permutation (x : list Q) :
  RFM.zrank x ≡ₚ seqZ 1 (Z.of_nat (length x)).
Proof.
  apply submseteq_length_Permutation.
  - apply NoDup_submseteq; [apply zrank_NoDup |].
    intros z Hz. apply zrank_range in Hz. apply elem_of_seqZ. lia.
  - rewrite length_seqZ. unfold RFM.zrank. rewrite length_zrank_from. lia.
Qed.

(** *** Sorting the ranks *)

Lemma Qle_bool_inject_Z (a b : Z) :
  Qle_bool (inject_Z a) (inject_Z b) = (a <=? b).
Proof.
  apply eq_true_iff_eq. rewrite Qle_bool_iff, <- Zle_Qle, Z.leb_le.
  reflexivity.
Qed.

Lemma insert_asc_inject_Z (z : Z) (l : list Z) :
  RFM.insert_asc (inject_Z z) (inject_Z <$> l)
  = inject_Z <$> RFM.insertZ z l.
Proof.
  induction l as [| y l IH]; [reflexivity |].
  rewrite fmap_cons. simpl. rewrite Qle_bool_inject_Z.
  destruct (z <=? y); [reflexivity |]. rewrite fmap_cons. now rewrite IH.
Qed.

Lemma sort_asc_inject_Z (l : list Z) :
  RFM.sort_asc (inject_Z <$> l) = inject_Z <$> RFM.sortZ l.
Proof.
  induction l as [| z l IH]; [reflexivity |].
  rewrite fmap_cons. unfold RFM.sort_asc, RFM.sortZ in *. simpl.
  rewrite IH. apply insert_asc_inject_Z.
Qed.

Lemma insertZ_Permutation (z : Z) (l : list Z) : RFM.insertZ z l ≡ₚ z :: l.
Proof.
  induction l as [| y l IH]; simpl; [reflexivity |].
  destruct (z <=? y); [reflexivity |].
  rewrite IH. apply Permutation_swap.
Qed.

Lemma sortZ_Permutation (l : list Z) : RFM.sortZ l ≡ₚ l.
Proof.
  induction l as [| z l IH]; simpl; [reflexivity |].
  rewrite insertZ_Permutation. now rewrite IH.
Qed.

Lemma insertZ_sorted (z : Z) (l : list Z) :
  StronglySorted Z.le l -> StronglySorted Z.le (RFM.insertZ z l).
Proof.
  induction 1 as [| y l Hl IH Hy]; simpl.
  - repeat constructor.
  - destruct (z <=? y) eqn:Hzy.
    + apply Z.leb_le in Hzy. constructor.
      * constructor; assumption.
      * constructor; [exact Hzy |].
        eapply Forall_impl; [exact Hy |]. simpl. intros w Hw. lia.
    + apply Z.leb_gt in Hzy. constructor; [exact IH |].
      rewrite insertZ_Permutation. constructor; [lia | assumption].
Qed.

Lemma sortZ_sorted (l : list Z) : StronglySorted Z.le (RFM.sortZ l).
Proof.
  induction l as [| z l IH]; simpl; [constructor |].
  apply insertZ_sorted, IH.
Qed.

Lemma seqZ_sorted (m : Z) (n : nat) :
  StronglySorted Z.le (seqZ m (Z.of_nat n)).
Proof.
  revert m. induction n as [| n IH]; intros m; [constructor |].
  rewrite seqZ_cons by lia. constructor.
  - replace (Z.pred (Z.of_nat (S n))) with (Z.of_nat n) by lia. apply IH.
  - apply Forall_forall. intros z Hz. apply elem_of_seqZ in Hz. lia.
Qed.

(** The sorted ranks of [n] values are 1, 2, ..., n. *)
Lemma sorted_ranks (x : list Q) :
  RFM.sort_asc (RFM.rank_first x)
  = inject_Z <$> seqZ 1 (Z.of_nat (length x)).
Proof.
  unfold RFM.rank_first. rewrite rank_first_from_zrank.
  fold (RFM.zrank x). rewrite sort_asc_inject_Z. f_equal.
  apply (StronglySorted_unique Z.le).
  - apply sortZ_sorted.
  - apply seqZ_sorted.
  - rewrite sortZ_Permutation. apply zrank_Permutation.
Qed.

(** *** Quantiles of the ranks *)

Lemma quantile_ranks (n : nat) (p : Q) :
  (1 <= n)%nat -> (0 <= p <= 1)%Q ->
  (RFM.quantile (inject_Z <$> seqZ 1 (Z.of_nat n)) p
   == 1 + inject_Z (Z.of_nat n - 1) * p)%Q.
Proof.
  intros Hn Hp. unfold RFM.quantile. cbv zeta.
  rewrite length_fmap, length_seqZ, Nat2Z.id.
  set (h := (inject_Z (Z.of_nat n - 1) * p)%Q).
  set (lo := Qfloor h).
  assert (Hm : (0 <= inject_Z (Z.of_nat n - 1))%Q).
  { change 0%Q with (inject_Z 0). rewrite <- Zle_Qle. lia. }
  assert (Hh0 : (0 <= h)%Q) by (unfold h; nra).
  assert (Hh1 : (h <= inject_Z (Z.of_nat n - 1))%Q) by (unfold h; nra).
  assert (Hlo0 : 0 <= lo).
  { unfold lo. rewrite <- (Qfloor_Z 0). apply Qfloor_resp_le, Hh0. }
  assert (Hlo1 : lo <= Z.of_nat n - 1).
  { unfold lo. rewrite <- (Qfloor_Z (Z.of_nat n - 1)).
    apply Qfloor_resp_le, Hh1. }
  assert (Hfl : (inject_Z lo <= h)%Q) by apply Qfloor_le.
  assert (Hvlo : nth (Z.to_nat lo) (inject_Z <$> seqZ 1 (Z.of_nat n)) 0%Q
                 = inject_Z (1 + lo)).
  { apply nth_lookup_Some. rewrite list_lookup_fmap, lookup_seqZ_lt by lia.
    simpl. do 2 f_equal. lia. }
  rewrite Hvlo.
  destruct (decide (lo + 1 < Z.of_nat n)) as [Hin | Hout].
  - rewrite (nth_lookup_Some _ _ _ (inject_Z (1 + (lo + 1)))).
    2:{ rewrite list_lookup_fmap, lookup_seqZ_lt by lia.
        simpl. do 2 f_equal. lia. }
    rewrite !inject_Z_plus. change (inject_Z 1) with 1%Q. ring.
  - rewrite nth_lookup, lookup_ge_None_2
      by (rewrite length_fmap, length_seqZ; lia).
    simpl. assert (Hlo : lo = Z.of_nat n - 1) by lia.
    assert (Heq : (h == inject_Z lo)%Q) by (rewrite Hlo in *; lra).
    rewrite inject_Z_plus. change (inject_Z 1) with 1%Q.
    fold h. rewrite Heq. ring.
Qed.

Lemma filter_keeps_all (f : Q -> bool) (l : list Q) :
  Forall (fun y => f y = true) l -> List.filter f l = l.
Proof.
  induction 1 as [| y l Hy _ IH]; [reflexivity |].
  simpl. now rewrite Hy, IH.
Qed.

(** Strictly increasing edges hold no duplicate. *)
Lemma unique_increasing (l : list Q) :
  StronglySorted Qlt l -> RFM.unique l = l.
Proof.
  induction 1 as [| x l Hl IH Hx]; [reflexivity |].
  simpl. rewrite IH. f_equal. apply filter_keeps_all.
  eapply Forall_impl; [exact Hx |]. simpl. intros y Hy.
  apply negb_true_iff, Qeq_bool_false. intros Heq. rewrite Heq in Hy.
  exact (Qlt_irrefl _ Hy).
Qed.

Section RankEdges.
Variable x : list Q.
Hypothesis two_values : (2 <= length x)%nat.
Local Abbreviation ranks := (inject_Z <$> seqZ 1 (Z.of_nat (length x))).
Local Abbreviation span := (inject_Z (Z.of_nat (length x) - 1)).

Lemma span_positive : (1 <= span)%Q.
Proof. change 1%Q with (inject_Z 1). rewrite <- Zle_Qle. lia. Qed.

Lemma rank_edge (p : Q) :
  (0 <= p <= 1)%Q -> (RFM.quantile ranks p == 1 + span * p)%Q.
Proof. intros Hp. apply quantile_ranks; [lia | exact Hp]. Qed.

Lemma rank_edges_increasing :
  StronglySorted Qlt (RFM.bin_edges (RFM.rank_first x)).
Proof.
  unfold RFM.bin_edges. rewrite sorted_ranks.
  pose proof span_positive as Hspan.
  assert (Hlt : forall p q, (0 <= p <= 1)%Q -> (0 <= q <= 1)%Q -> (p < q)%Q ->
                  (RFM.quantile ranks p < RFM.quantile ranks q)%Q).
  { intros p q Hp Hq Hpq. rewrite !rank_edge by assumption. nra. }
  unfold RFM.quantiles. cbn [fmap list_fmap].
  repeat (constructor; [| repeat (constructor;
            [apply Hlt; split; discriminate || reflexivity |])]);
    constructor.
Qed.

Lemma rank_label (z : Z) :
  1 <= z <= Z.of_nat (length x) ->
  exists s, RFM.label_of (RFM.bin_edges (RFM.rank_first x)) [1; 2; 3; 4; 5]
                         (inject_Z z) = Ok s.
Proof.
  intros Hz. unfold RFM.bin_edges. rewrite sorted_ranks.
  unfold RFM.quantiles. cbn [fmap list_fmap].
  pose proof span_positive as Hspan.
  assert (H0 : (RFM.quantile ranks 0 == 1)%Q)
    by (rewrite rank_edge by (split; discriminate); ring).
  assert (H5 : (RFM.quantile ranks 1 == inject_Z (Z.of_nat (length x)))%Q).
  { rewrite rank_edge by (split; discriminate).
    unfold Z.sub. rewrite inject_Z_plus, inject_Z_opp.
    change (inject_Z 1) with 1%Q. ring. }
  assert (Hz1 : (1 <= inject_Z z)%Q)
    by (change 1%Q with (inject_Z 1); rewrite <- Zle_Qle; lia).
  assert (Hzn : (inject_Z z <= inject_Z (Z.of_nat (length x)))%Q)
    by (rewrite <- Zle_Qle; lia).
  unfold RFM.label_of. cbv zeta. cbn [nth length].
  destruct (Qeq_bool (inject_Z z) (RFM.quantile ranks 0)) eqn:Hfirst.
  - eexists. reflexivity.
  - unfold RFM.searchsorted_left, RFM.count. cbn [List.filter].
    replace (Qltb (RFM.quantile ranks 0) (inject_Z z)) with true.
    2:{ symmetry. apply Qltb_true. apply Qeq_bool_false in Hfirst.
        rewrite H0 in *. apply Qle_lteq in Hz1 as [Hlt | Heq];
          [exact Hlt | exfalso; apply Hfirst; now symmetry]. }
    replace (Qltb (RFM.quantile ranks 1) (inject_Z z)) with false
      by (symmetry; apply Qltb_false; now rewrite H5).
    destruct (Qltb (RFM.quantile ranks (1 # 5)) (inject_Z z)),
             (Qltb (RFM.quantile ranks (2 # 5)) (inject_Z z)),
             (Qltb (RFM.quantile ranks (3 # 5)) (inject_Z z)),
             (Qltb (RFM.quantile ranks (4 # 5)) (inject_Z z));
      eexists; reflexivity.
Qed.

Lemma rank_qcut_succeeds :
  exists scores, RFM.qcut (RFM.rank_first x) [1; 2; 3; 4; 5] = Ok scores.
Proof.
  unfold RFM.qcut. cbv zeta.
  change (RFM.quantile (RFM.sort_asc (RFM.rank_first x)) <$> RFM.quantiles)
    with (RFM.bin_edges (RFM.rank_first x)).
  rewrite (unique_increasing _ rank_edges_increasing).
  assert (Hif : forall (b : bool) (l : list Q), (if b then l else l) = l)
    by (intros [|] l; reflexivity).
  rewrite Hif.
  assert (Hlen : length (RFM.bin_edges (RFM.rank_first x)) = 6%nat)
    by reflexivity.
  rewrite Hlen. cbn [length Z.of_nat negb Z.eqb Z.sub Z.add Z.opp
                     Pos.of_succ_nat Pos.succ Z.pos_sub Pos.pred_double
                     Pos.eqb].
  destruct (mapM_result_Ok
              (RFM.label_of (RFM.bin_edges (RFM.rank_first x)) [1; 2; 3; 4; 5])
              (RFM.rank_first x)) as (scores & Hscores & _); [| eauto].
  intros v Hv. unfold RFM.rank_first in Hv.
  rewrite rank_first_from_zrank in Hv. fold (RFM.zrank x) in Hv.
  apply list_elem_of_fmap in Hv as (z & -> & Hz).
  apply rank_label, zrank_range, Hz.
Qed.

End RankEdges.

(** X24.  With two customers or more the scoring of Frequency and of
    Monetary never fails, whatever the values and their duplicates: the
    columns are ranked first, the ranks are a rearrangement of 1, ..., n,
    and the six quantile boundaries of such ranks are all different.  The
    scoring as a whole then fails exactly when the scoring of Recency,
    which is not ranked, fails. *)
Theorem rank_scoring_never_fails (rfm_data : list RFM.customer) :
  (2 <= length rfm_data)%nat ->
  (exists f, RFM.F_Score rfm_data = Ok f)
  /\ (exists m, RFM.M_Score rfm_data = Ok m)
  /\ (forall e, RFM.rfm_scores rfm_data = Raise e
                <-> RFM.R_Score rfm_data = Raise e).
Proof.
  intros Hlen.
  assert (HF : exists f, RFM.F_Score rfm_data = Ok f).
  { unfold RFM.F_Score. apply rank_qcut_succeeds. now rewrite !length_fmap. }
  assert (HM : exists m, RFM.M_Score rfm_data = Ok m).
  { unfold RFM.M_Score. apply rank_qcut_succeeds. now rewrite length_fmap. }
  split; [exact HF |]. split; [exact HM |].
  destruct HF as [f Hf], HM as [m Hm].
  intros e. unfold RFM.rfm_scores. rewrite Hf, Hm.
  destruct (RFM.R_Score rfm_data) as [r | e']; cbn; split; congruence.
Qed.

(** The ten recent buyers: Frequency and Monetary are scored, and the run
    fails with the error of the Recency scoring. *)
Lemma rank_scoring_never_fails_witness :
  (exists f, RFM.F_Score RFM.recent_buyers = Ok f)
  /\ RFM.rfm_scores RFM.recent_buyers
     = Raise (ValueError
                "Bin labels must be one fewer than the number of bin edges").
Proof.
  destruct (rank_scoring_never_fails RFM.recent_buyers) as (HF & _ & Hiff).
  - simpl. lia.
  - split; [exact HF |]. apply Hiff. reflexivity.
Defined.

(** ** The customer table of the RFM engine *)

Lemma max_date_spec (dates : list Z) (m : Z) :
  RFM.max_date dates = Some m ->
  m ∈ dates /\ (forall d, d ∈ dates -> d <= m).
Proof.
  destruct dates as [| d dates]; [discriminate |].
  cbn [RFM.max_date]. intros [= <-].
  induction dates as [| e dates IH]; cbn [foldr].
  - split; [left |]. intros d' Hd'. apply list_elem_of_singleton in Hd'. lia.
  - destruct IH as [Hin Hmax]. split.
    + destruct (Z.max_spec e (foldr Z.max d dates)) as [[_ ->] | [_ ->]].
      * apply elem_of_cons in Hin as [-> | Hin]; [left | do 2 right; exact Hin].
      * right; left.
    + intros d' Hd'.
      assert (Hcases : d' = e \/ d' ∈ d :: dates).
      { apply elem_of_cons in Hd' as [-> | Hd']; [right; left |].
        apply elem_of_cons in Hd' as [-> | Hd']; [now left |].
        right; now right. }
      destruct Hcases as [-> | Hd'']; [lia |].
      specialize (Hmax d' Hd''). lia.
Qed.

Lemma max_date_is_Some (dates : list Z) :
  dates <> [] -> exists m, RFM.max_date dates = Some m.
Proof. destruct dates; [congruence | eauto]. Qed.

Lemma purchases_nonempty (transactions : list RFM.transaction) (c : Z) :
  c ∈ RFM.CustomerID <$> transactions -> RFM.purchases transactions c <> [].
Proof.
  intros Hc Hnil. apply list_elem_of_fmap in Hc as (t & -> & Ht).
  assert (Hin : t ∈ RFM.purchases transactions (RFM.CustomerID t))
    by (apply list_elem_of_filter; auto).
  rewrite Hnil in Hin. inversion Hin.
Qed.

(** Every customer of the table gets a row. *)
Lemma aggregate_is_Some (analysis : Z) (transactions : list RFM.transaction)
    (c : Z) :
  c ∈ RFM.CustomerID <$> transactions ->
  exists last,
    RFM.max_date (RFM.InvoiceDate <$> RFM.purchases transactions c) = Some last
    /\ RFM.aggregate analysis transactions c
       = Some (RFM.mkRow c last
                 (length (remove_dups
                            (RFM.InvoiceNo <$> RFM.purchases transactions c)))
                 (Qsum (RFM.Revenue <$> RFM.purchases transactions c))
                 (length (RFM.purchases transactions c))
                 (Qsum (RFM.Revenue <$> RFM.purchases transactions c)
                  / inject_Z (Z.of_nat (length (RFM.purchases transactions c))))
                 (RFM.days_between analysis last)).
Proof.
  intros Hc. apply purchases_nonempty in Hc.
  destruct (max_date_is_Some (RFM.InvoiceDate <$> RFM.purchases transactions c))
    as [last Hlast].
  { intros Hnil. apply fmap_nil_inv in Hnil. contradiction. }
  exists last. split; [exact Hlast |].
  unfold RFM.aggregate. cbv zeta. rewrite Hlast. reflexivity.
Qed.

Lemma omap_Forall2 {A B} (f : A -> option B) (l : list A) :
  (forall x, x ∈ l -> is_Some (f x)) ->
  Forall2 (fun x y => f x = Some y) l (omap f l).
Proof.
  induction l as [| x l IH]; intros Hf; [constructor |].
  destruct (Hf x) as [y Hy]; [left |].
  cbn [omap list_omap]. rewrite Hy. constructor; [exact Hy |].
  apply IH. intros x' Hx'. apply Hf. now right.
Qed.


(** The rows of [rfm_data], customer by customer. *)
Lemma rfm_data_rows (transactions : list RFM.transaction)
    (rows : list RFM.rfm_row) :
  RFM.rfm_data transactions = Some rows ->
  exists analysis,
    RFM.analysis_date transactions = Some analysis
    /\ Forall2 (fun c row => RFM.aggregate analysis transactions c = Some row)
               (remove_dups (RFM.CustomerID <$> transactions)) rows.
Proof.
  unfold RFM.rfm_data.
  destruct (RFM.analysis_date transactions) as [analysis |]; [| discriminate].
  cbn. intros [= <-]. exists analysis. split; [reflexivity |].
  apply omap_Forall2. intros c Hc. rewrite elem_of_remove_dups in Hc.
  destruct (aggregate_is_Some analysis transactions c Hc) as (last & _ & ->).
  eauto.
Qed.


Lemma aggregate_inv (analysis : Z) (transactions : list RFM.transaction)
    (c : Z) (row : RFM.rfm_row) :
  c ∈ RFM.CustomerID <$> transactions ->
  RFM.aggregate analysis transactions c = Some row ->
  RFM.row_CustomerID row = c
  /\ RFM.max_date (RFM.InvoiceDate <$> RFM.purchases transactions c)
     = Some (RFM.LastPurchaseDate row)
  /\ RFM.row_Frequency row
     = length (remove_dups (RFM.InvoiceNo <$> RFM.purchases transactions c))
  /\ RFM.row_Monetary row = Qsum (RFM.Revenue <$> RFM.purchases transactions c)
  /\ RFM.TotalTransactions row = length (RFM.purchases transactions c)
  /\ RFM.AvgTransactionValue row
     = (Qsum (RFM.Revenue <$> RFM.purchases transactions c)
        / inject_Z (Z.of_nat (length (RFM.purchases transactions c))))%Q
  /\ RFM.row_Recency row
     = RFM.days_between analysis (RFM.LastPurchaseDate row).
Proof.
  intros Hc Hrow.
  destruct (aggregate_is_Some analysis transactions c Hc) as (last & Hlast & Heq).
  rewrite Heq in Hrow. injection Hrow as <-. cbn. auto 10.
Qed.

Lemma elem_of_rfm_data (transactions : list RFM.transaction)
    (rows : list RFM.rfm_row) (row : RFM.rfm_row) :
  RFM.rfm_data transactions = Some rows -> row ∈ rows ->
  exists analysis c,
    RFM.analysis_date transactions = Some analysis
    /\ c ∈ RFM.CustomerID <$> transactions
    /\ RFM.aggregate analysis transactions c = Some row.
Proof.
  intros Hrows Hrow.
  destruct (rfm_data_rows _ _ Hrows) as (analysis & Hdate & Hall).
  apply list_elem_of_lookup in Hrow as [i Hi].
  destruct (Forall2_lookup_r _ _ _ _ _ Hall Hi) as (c & Hc & Hagg).
  exists analysis, c. split; [exact Hdate |]. split; [| exact Hagg].
  apply elem_of_remove_dups. eapply list_elem_of_lookup_2, Hc.
Qed.

Lemma length_remove_dups_le {A} `{EqDecision A} (l : list A) :
  (length (remove_dups l) <= length l)%nat.
Proof.
  induction l as [| x l IH]; [reflexivity |].
  cbn [remove_dups]. destruct (decide_rel elem_of x l); simpl; lia.
Qed.

Lemma remove_dups_nonempty {A} `{EqDecision A} (l : list A) :
  l <> [] -> (1 <= length (remove_dups l))%nat.
Proof.
  intros Hne. destruct l as [| x l]; [congruence |].
  assert (Hx : x ∈ remove_dups (x :: l)) by (apply elem_of_remove_dups; left).
  destruct (remove_dups (x :: l)); [inversion Hx | simpl; lia].
Qed.

Lemma rfm_data_is_Some (transactions : list RFM.transaction) :
  transactions <> [] ->
  exists last_date rows,
    RFM.max_date (RFM.InvoiceDate <$> transactions) = Some last_date
    /\ RFM.analysis_date transactions = Some (last_date + RFM.one_day)
    /\ RFM.rfm_data transactions = Some rows.
Proof.
  intros Hne.
  destruct (max_date_is_Some (RFM.InvoiceDate <$> transactions))
    as [last_date Hlast].
  { intros Hnil. apply fmap_nil_inv in Hnil. contradiction. }
  assert (Hdate : RFM.analysis_date transactions
                  = Some (last_date + RFM.one_day))
    by (unfold RFM.analysis_date; now rewrite Hlast).
  exists last_date. unfold RFM.rfm_data. rewrite Hdate. cbn. eauto.
Qed.

Lemma rfm_data_has_row (transactions : list RFM.transaction)
    (rows : list RFM.rfm_row) (c : Z) :
  RFM.rfm_data transactions = Some rows ->
  c ∈ RFM.CustomerID <$> transactions ->
  exists analysis row,
    RFM.analysis_date transactions = Some analysis
    /\ row ∈ rows
    /\ RFM.aggregate analysis transactions c = Some row.
Proof.
  intros Hrows Hc.
  destruct (rfm_data_rows _ _ Hrows) as (analysis & Hdate & Hall).
  apply elem_of_remove_dups, list_elem_of_lookup in Hc as [i Hi].
  destruct (Forall2_lookup_l _ _ _ _ _ Hall Hi) as (row & Hrow & Hagg).
  exists analysis, row. split; [exact Hdate |]. split; [| exact Hagg].
  eapply list_elem_of_lookup_2, Hrow.
Qed.

(** The last purchase of a customer is not after the last purchase of
    the table, and not before any purchase of the customer. *)
Lemma last_purchase_bounds (transactions : list RFM.transaction)
    (c last last_date : Z) :
  RFM.max_date (RFM.InvoiceDate <$> transactions) = Some last_date ->
  RFM.max_date (RFM.InvoiceDate <$> RFM.purchases transactions c) = Some last ->
  last <= last_date
  /\ (forall t, t ∈ transactions -> RFM.CustomerID t = c ->
        RFM.InvoiceDate t <= last).
Proof.
  intros Hall Hlast.
  apply max_date_spec in Hall as [_ Hall], Hlast as [Hin Hlast].
  split.
  - apply Hall. apply list_elem_of_fmap in Hin as (t & -> & Ht).
    apply list_elem_of_filter in Ht as [_ Ht].
    apply list_elem_of_fmap. eauto.
  - intros t Ht Hc. apply Hlast, list_elem_of_fmap. exists t.
    split; [reflexivity |]. apply list_elem_of_filter. auto.
Qed.

(** X25.  The analysis date is one day after the last purchase of the
    table, so no customer has a Recency of 0: for a table with at least
    one transaction every Recency is at least 1 day, and the Recency of
    some customer, one who bought at the last time stamp, is exactly
    1. *)
Theorem recency_at_least_one_day (transactions : list RFM.transaction) :
  transactions <> [] ->
  exists rows,
    RFM.rfm_data transactions = Some rows
    /\ Forall (fun row => 1 <= RFM.row_Recency row) rows
    /\ Exists (fun row => RFM.row_Recency row = 1) rows.
Proof.
  intros Hne.
  destruct (rfm_data_is_Some transactions Hne)
    as (last_date & rows & Hmax & Hdate & Hrows).
  exists rows. split; [exact Hrows |]. split.
  - apply Forall_forall. intros row Hrow.
    destruct (elem_of_rfm_data _ _ _ Hrows Hrow)
      as (analysis & c & Hdate' & Hc & Hagg).
    rewrite Hdate in Hdate'. injection Hdate' as <-.
    destruct (aggregate_inv _ _ _ _ Hc Hagg)
      as (_ & Hlast & _ & _ & _ & _ & ->).
    destruct (last_purchase_bounds _ _ _ _ Hmax Hlast) as [Hle _].
    unfold RFM.days_between, RFM.one_day.
    apply Z.div_le_lower_bound; lia.
  - apply max_date_spec in Hmax as Hspec. destruct Hspec as [Hin _].
    apply list_elem_of_fmap in Hin as (t & Ht_date & Ht).
    assert (Hc : RFM.CustomerID t ∈ RFM.CustomerID <$> transactions)
      by (apply list_elem_of_fmap; eauto).
    destruct (rfm_data_has_row _ _ _ Hrows Hc)
      as (analysis & row & Hdate' & Hrow & Hagg).
    rewrite Hdate in Hdate'. injection Hdate' as <-.
    apply Exists_exists. exists row. split; [exact Hrow |].
    destruct (aggregate_inv _ _ _ _ Hc Hagg)
      as (_ & Hlast & _ & _ & _ & _ & ->).
    destruct (last_purchase_bounds _ _ _ _ Hmax Hlast) as [Hle Hge].
    specialize (Hge t Ht eq_refl).
    replace (RFM.LastPurchaseDate row) with last_date by lia.
    unfold RFM.days_between.
    replace (last_date + RFM.one_day - last_date) with RFM.one_day by lia.
    reflexivity.
Qed.

(** On the sample, customer 3 bought last and has Recency 1; customer 1
    bought five days and some hours earlier. *)
Lemma recency_at_least_one_day_witness :
  exists rows,
    RFM.rfm_data RFM.sample_invoices = Some rows
    /\ Forall (fun row => 1 <= RFM.row_Recency row) rows
    /\ Exists (fun row => RFM.row_Recency row = 1) rows.
Proof. apply (recency_at_least_one_day RFM.sample_invoices). discriminate. Defined.



Lemma clv_bound (revenue count invoices score : Q) :
  (0 <= revenue)%Q -> (1 <= invoices)%Q -> (invoices <= count)%Q ->
  (1 <= score <= 5)%Q ->
  (0 <= revenue / count * invoices * (score / 5) * 2 <= 2 * revenue)%Q.
Proof.
  intros Hrev Hinv Hcount Hscore.
  assert (Hpos : (0 < count)%Q) by lra.
  set (a := (revenue / count)%Q).
  assert (Ha : (a * count == revenue)%Q) by (unfold a; field; lra).
  assert (Ha0 : (0 <= a)%Q) by (unfold a; apply Qle_shift_div_l; lra).
  clearbody a.
  assert (H1 : (0 <= a * invoices)%Q) by (apply Qmult_le_0_compat; lra).
  assert (H2 : (a * invoices <= revenue)%Q).
  { rewrite <- Ha, !(Qmult_comm a). now apply Qmult_le_compat_r. }
  set (b := (score / 5)%Q).
  assert (Hb : (0 <= b <= 1)%Q)
    by (unfold b; split; [apply Qle_shift_div_l | apply Qle_shift_div_r]; lra).
  clearbody b. nra.
Qed.

(** X27.  When no transaction has a negative revenue, the predicted CLV
    of a customer lies between 0 and twice the historical CLV, for every
    Recency score from 1 to 5: the average transaction value times the
    number of invoices is at most the customer's revenue. *)
Theorem predicted_clv_at_most_twice_historical
    (transactions : list RFM.transaction) (rows : list RFM.rfm_row)
    (row : RFM.rfm_row) (r_score : Z) :
  Forall (fun t => 0 <= RFM.Revenue t)%Q transactions ->
  RFM.rfm_data transactions = Some rows ->
  row ∈ rows ->
  RFM.score_in_range r_score ->
  (0 <= RFM.Predicted_CLV row r_score <= 2 * RFM.Historical_CLV row)%Q.
Proof.
  intros Hnonneg Hrows Hrow [Hr1 Hr5].
  destruct (elem_of_rfm_data _ _ _ Hrows Hrow)
    as (analysis & c & _ & Hc & Hagg).
  destruct (aggregate_inv _ _ _ _ Hc Hagg)
    as (_ & _ & Hfreq & Hmon & _ & Havg & _).
  unfold RFM.Predicted_CLV, RFM.Historical_CLV.
  rewrite Havg, Hmon, Hfreq.
  set (mine := RFM.purchases transactions c).
  assert (Hne : mine <> []) by now apply purchases_nonempty.
  apply clv_bound.
  - apply Qsum_nonneg, Forall_fmap. unfold mine, RFM.purchases.
    apply Forall_forall. intros t Ht. apply list_elem_of_filter in Ht as [_ Ht].
    rewrite Forall_forall in Hnonneg. apply (Hnonneg t Ht).
  - change 1%Q with (inject_Z 1). rewrite <- Zle_Qle.
    assert (1 <= length (remove_dups (RFM.InvoiceNo <$> mine)))%nat; [| lia].
    apply remove_dups_nonempty. intros Hnil. now apply fmap_nil_inv in Hnil.
  - rewrite <- Zle_Qle.
    pose proof (length_remove_dups_le (RFM.InvoiceNo <$> mine)) as Hle.
    rewrite length_fmap in Hle. lia.
  - change 1%Q with (inject_Z 1). change 5%Q with (inject_Z 5).
    rewrite <- !Zle_Qle. lia.
Qed.

(** On the sample, with the best Recency score for every customer. *)
Lemma predicted_clv_at_most_twice_historical_witness :
  Forall (fun row => (0 <= RFM.Predicted_CLV row 5
                      <= 2 * RFM.Historical_CLV row)%Q)
         (default [] (RFM.rfm_data RFM.sample_invoices)).
Proof.
  apply Forall_forall. intros row Hrow.
  apply (predicted_clv_at_most_twice_historical RFM.sample_invoices
           (default [] (RFM.rfm_data RFM.sample_invoices)) row 5).
  - repeat constructor; discriminate.
  - reflexivity.
  - exact Hrow.
  - unfold RFM.score_in_range. lia.
Defined.

(** ** Segment summary *)

Lemma segment_is_reachable (r f m : Z) :
  RFM.score_in_range r -> RFM.score_in_range f -> RFM.score_in_range m ->
  RFM.segment_customer r f m ∈ RFM.reachable_segments.
Proof.
  intros Hr Hf Hm. apply score_cases in Hr, Hf, Hm.
  apply list_elem_of_In.
  destruct Hr as [-> | [-> | [-> | [-> | ->]]]];
  destruct Hf as [-> | [-> | [-> | [-> | ->]]]];
  destruct Hm as [-> | [-> | [-> | [-> | ->]]]];
  simpl; tauto.
Qed.

Lemma segment_names_NoDup (rfm_data : list RFM.scored_row) :
  NoDup (RFM.segment_names rfm_data).
Proof.
  unfold RFM.segment_names. rewrite merge_sort_Permutation.
  apply NoDup_remove_dups.
Qed.

Lemma elem_of_segment_names (rfm_data : list RFM.scored_row) (s : string) :
  s ∈ RFM.segment_names rfm_data
  <-> exists row, row ∈ rfm_data /\ RFM.Segment row = s.
Proof.
  unfold RFM.segment_names.
  rewrite merge_sort_Permutation, elem_of_remove_dups, list_elem_of_fmap.
  split; intros (row & H1 & H2); exists row; auto.
Qed.

Lemma summary_names (rfm_data : list RFM.scored_row) :
  RFM.s_Segment <$> RFM.segment_summary rfm_data
  = RFM.segment_names rfm_data.
Proof.
  unfold RFM.segment_summary. rewrite <- list_fmap_compose.
  apply list_fmap_id.
Qed.

Lemma summary_customers (rfm_data : list RFM.scored_row) :
  RFM.Customers <$> RFM.segment_summary rfm_data
  = (fun s => length (RFM.segment_group rfm_data s))
    <$> RFM.segment_names rfm_data.
Proof.
  unfold RFM.segment_summary. rewrite <- list_fmap_compose.
  apply Forall_fmap_ext_1, Forall_forall. intros s _. cbn.
  apply length_fmap.
Qed.

Lemma summary_revenue (rfm_data : list RFM.scored_row) :
  RFM.TotalRevenue <$> RFM.segment_summary rfm_data
  = (fun s => Qsum ((fun row => RFM.row_Monetary (RFM.columns row))
                    <$> RFM.segment_group rfm_data s))
    <$> RFM.segment_names rfm_data.
Proof.
  unfold RFM.segment_summary. rewrite <- list_fmap_compose.
  apply Forall_fmap_ext_1, Forall_forall. intros s _. cbn.
  now rewrite <- list_fmap_compose.
Qed.

Lemma summary_customers_total (rfm_data : list RFM.scored_row) :
  sum_list (RFM.Customers <$> RFM.segment_summary rfm_data)
  = length rfm_data.
Proof.
  rewrite summary_customers.
  apply (length_groups RFM.Segment); [apply segment_names_NoDup |].
  intros row Hrow. apply elem_of_segment_names. eauto.
Qed.

Lemma summary_revenue_total (rfm_data : list RFM.scored_row) :
  (Qsum (RFM.TotalRevenue <$> RFM.segment_summary rfm_data)
   == Qsum ((fun row => RFM.row_Monetary (RFM.columns row)) <$> rfm_data))%Q.
Proof.
  rewrite summary_revenue.
  apply (Qsum_groups RFM.Segment
           (fun row => RFM.row_Monetary (RFM.columns row)));
    [apply segment_names_NoDup |].
  intros row Hrow. apply elem_of_segment_names. eauto.
Qed.

(** X28.  The segment summary partitions the customers: its rows carry
    distinct segment names, each row counts at least one customer, the
    counts add up to the number of customers and the revenues to the
    total of the Monetary column.  When all scores lie in 1..5 the
    summary has at most nine rows, none named 'Need Attention' or
    'Cannot Lose Them'. *)
Theorem segment_summary_partitions (rfm_data : list RFM.scored_row) :
  let summary := RFM.segment_summary rfm_data in
  NoDup (RFM.s_Segment <$> summary)
  /\ Forall (fun row => (1 <= RFM.Customers row)%nat) summary
  /\ sum_list (RFM.Customers <$> summary) = length rfm_data
  /\ (Qsum (RFM.TotalRevenue <$> summary)
      == Qsum ((fun row => RFM.row_Monetary (RFM.columns row))
               <$> rfm_data))%Q
  /\ (Forall (fun row => RFM.score_in_range (RFM.r_score row)
                         /\ RFM.score_in_range (RFM.f_score row)
                         /\ RFM.score_in_range (RFM.m_score row)) rfm_data ->
      (length summary <= 9)%nat
      /\ Forall (fun row => RFM.s_Segment row ∈ RFM.reachable_segments
                            /\ RFM.s_Segment row <> "Need Attention"
                            /\ RFM.s_Segment row <> "Cannot Lose Them")
                summary).
Proof.
  cbv zeta. split; [| split; [| split; [| split]]].
  - rewrite summary_names. apply segment_names_NoDup.
  - unfold RFM.segment_summary. apply Forall_fmap, Forall_forall.
    intros s Hs. cbn. rewrite length_fmap.
    apply elem_of_segment_names in Hs as (row & Hrow & Hseg).
    assert (Hin : row ∈ RFM.segment_group rfm_data s)
      by (apply list_elem_of_filter; auto).
    destruct (RFM.segment_group rfm_data s); [inversion Hin | simpl; lia].
  - apply summary_customers_total.
  - apply summary_revenue_total.
  - intros Hscores.
    assert (Hreach : forall s, s ∈ RFM.segment_names rfm_data ->
                       s ∈ RFM.reachable_segments).
    { intros s Hs. apply elem_of_segment_names in Hs as (row & Hrow & <-).
      rewrite Forall_forall in Hscores.
      destruct (Hscores row Hrow) as (Hr & Hf & Hm).
      now apply segment_is_reachable. }
    split.
    + rewrite <- (length_fmap RFM.s_Segment), summary_names.
      change 9%nat with (length RFM.reachable_segments).
      apply submseteq_length, NoDup_submseteq;
        [apply segment_names_NoDup | exact Hreach].
    + apply Forall_forall. intros row Hrow.
      assert (Hname : RFM.s_Segment row ∈ RFM.segment_names rfm_data).
      { rewrite <- summary_names. apply list_elem_of_fmap. eauto. }
      apply Hreach in Hname. split; [exact Hname |].
      apply list_elem_of_In in Hname. simpl in Hname.
      split; intros Heq; rewrite Heq in Hname;
        repeat (destruct Hname as [Hname | Hname]; [discriminate |]);
        exact Hname.
Qed.

(** Four customers in three segments: three rows, not more than nine. *)
Lemma segment_summary_partitions_witness :
  RFM.s_Segment <$> RFM.segment_summary RFM.sample_scored
  = ["About To Sleep"; "Champions"; "Hibernating"]
  /\ (length (RFM.segment_summary RFM.sample_scored) <= 9)%nat.
Proof.
  split; [reflexivity |].
  destruct (segment_summary_partitions RFM.sample_scored)
    as (_ & _ & _ & _ & Hrows).
  apply Hrows. unfold RFM.score_in_range. repeat constructor; simpl; lia.
Defined.

Lemma Qsum_scale {K} (f : K -> Q) (c : Q) (ks : list K) :
  (Qsum ((fun k => f k * c) <$> ks) == Qsum (f <$> ks) * c)%Q.
Proof.
  induction ks as [| k ks IH]; [cbn; ring |].
  rewrite !fmap_cons, !Qsum_cons, IH. ring.
Qed.

Lemma Qsum_of_nat (ns : list nat) :
  (Qsum ((fun n => inject_Z (Z.of_nat n)) <$> ns)
   == inject_Z (Z.of_nat (sum_list ns)))%Q.
Proof.
  induction ns as [| n ns IH]; [reflexivity |].
  rewrite fmap_cons, Qsum_cons, IH. cbn [sum_list_with id].
  rewrite Nat2Z.inj_add, inject_Z_plus. reflexivity.
Qed.

Lemma fsum_fnum {K} (q : K -> Q) (ks : list K) :
  fsum ((fun k => fnum (q k)) <$> ks) = fnum (Qsum (q <$> ks)).
Proof.
  induction ks as [| k ks IH]; [reflexivity |].
  unfold fsum in *. rewrite !fmap_cons. cbn [foldr]. rewrite IH, Qsum_cons.
  apply fadd_value; apply has_value_fnum.
Qed.

(** Shares of a non-zero total add up to 100. *)
Lemma shares_sum_to_100 {K} (part : K -> Q) (total : Q) (ks : list K) :
  (Qsum (part <$> ks) == total)%Q -> ~ (total == 0)%Q ->
  fsum ((fun k => fnum (part k / total * 100)) <$> ks) = of_int 100.
Proof.
  intros Hsum Hnz. rewrite fsum_fnum.
  change (of_int 100) with (fnum 100). apply fnum_ext.
  rewrite (Qsum_ext _ (fun k => part k * (100 / total))%Q)
    by (intros k _; field; exact Hnz).
  rewrite Qsum_scale, Hsum. field. exact Hnz.
Qed.

(** X29.  The percentage columns of the segment summary are shares of a
    whole: with at least one customer the customer percentages add up to
    100, and with a total revenue other than zero so do the revenue
    percentages.  With a total revenue of zero no revenue percentage is
    a finite number. *)
Theorem segment_percents_sum_to_100 (rfm_data : list RFM.scored_row) :
  let summary := RFM.segment_summary rfm_data in
  let total_revenue :=
    Qsum ((fun row => RFM.row_Monetary (RFM.columns row)) <$> rfm_data) in
  (rfm_data <> [] ->
   fsum (RFM.CustomerPercent summary <$> summary) = of_int 100)
  /\ (~ (total_revenue == 0)%Q ->
      fsum (RFM.RevenuePercent summary <$> summary) = of_int 100)
  /\ ((total_revenue == 0)%Q ->
      Forall (fun row => is_finite (RFM.RevenuePercent summary row) = false)
             summary).
Proof.
  cbv zeta.
  pose proof (summary_customers_total rfm_data) as Hcustomers.
  pose proof (summary_revenue_total rfm_data) as Hrevenue.
  set (summary := RFM.segment_summary rfm_data) in *.
  split; [| split].
  - intros Hne.
    assert (Hlen : (0 < length rfm_data)%nat)
      by (destruct rfm_data; [congruence | simpl; lia]).
    rewrite (Forall_fmap_ext_1 _
       (fun row => fnum (inject_Z (Z.of_nat (RFM.Customers row))
                         / inject_Z (Z.of_nat (length rfm_data)) * 100))).
    2:{ apply Forall_forall. intros row _. unfold RFM.CustomerPercent.
        rewrite Hcustomers. now apply retention_value. }
    apply (shares_sum_to_100
             (fun row => inject_Z (Z.of_nat (RFM.Customers row)))).
    + rewrite (list_fmap_compose RFM.Customers
                 (fun n => inject_Z (Z.of_nat n))).
      now rewrite Qsum_of_nat, Hcustomers.
    + change 0%Q with (inject_Z 0). rewrite inject_Z_injective. lia.
  - intros Hnz.
    rewrite (Forall_fmap_ext_1 _
       (fun row => fnum (RFM.TotalRevenue row
                         / Qsum (RFM.TotalRevenue <$> summary) * 100))).
    2:{ apply Forall_forall. intros row _. unfold RFM.RevenuePercent.
        rewrite (fdiv_value _ _ (RFM.TotalRevenue row)
                   (Qsum (RFM.TotalRevenue <$> summary))).
        - apply fmul_fnum_Finite.
        - apply has_value_Finite.
        - apply has_value_fnum.
        - now rewrite Hrevenue. }
    apply shares_sum_to_100; [reflexivity | now rewrite Hrevenue].
  - intros Hzero. apply Forall_forall. intros row _.
    unfold RFM.RevenuePercent, series_sum, fnum. cbn [fdiv].
    replace (Qeq_bool (Qred (Qsum (RFM.TotalRevenue <$> summary))) 0)
      with true
      by (symmetry; apply Qeq_bool_iff;
          now rewrite Qred_correct, Hrevenue).
    destruct (Qeq_bool (RFM.TotalRevenue row) 0); reflexivity.
Qed.

(** The sample has four customers and a revenue of 44. *)
Lemma segment_percents_sum_to_100_witness :
  fsum (RFM.CustomerPercent (RFM.segment_summary RFM.sample_scored)
        <$> RFM.segment_summary RFM.sample_scored) = of_int 100
  /\ fsum (RFM.RevenuePercent (RFM.segment_summary RFM.sample_scored)
           <$> RFM.segment_summary RFM.sample_scored) = of_int 100.
Proof.
  destruct (segment_percents_sum_to_100 RFM.sample_scored)
    as (Hcustomers & Hrevenue & _).
  split; [apply Hcustomers | apply Hrevenue]; discriminate.
Defined.

(** ** Data preparation *)

Lemma insert_asc_Permutation (x : Q) (l : list Q) :
  RFM.insert_asc x l ≡ₚ x :: l.
Proof.
  induction l as [| y l IH]; simpl; [reflexivity |].
  destruct (Qle_bool x y); [reflexivity |].
  rewrite IH. apply Permutation_swap.
Qed.

Lemma sort_asc_Permutation (l : list Q) : RFM.sort_asc l ≡ₚ l.
Proof.
  induction l as [| x l IH]; [reflexivity |].
  unfold RFM.sort_asc in *. cbn [foldr].
  rewrite insert_asc_Permutation. now rewrite IH.
Qed.

Lemma insert_asc_sorted (x : Q) (l : list Q) :
  StronglySorted Qle l -> StronglySorted Qle (RFM.insert_asc x l).
Proof.
  induction 1 as [| y l Hl IH Hy]; simpl.
  - repeat constructor.
  - destruct (Qle_bool x y) eqn:Hxy.
    + apply Qle_bool_iff in Hxy. constructor.
      * constructor; assumption.
      * constructor; [exact Hxy |].
        eapply Forall_impl; [exact Hy |]. simpl. intros z Hz. lra.
    + assert (Hyx : (y <= x)%Q).
      { apply not_true_iff_false in Hxy. rewrite Qle_bool_iff in Hxy. lra. }
      constructor; [exact IH |].
      rewrite insert_asc_Permutation. constructor; assumption.
Qed.

Lemma sort_asc_sorted (l : list Q) : StronglySorted Qle (RFM.sort_asc l).
Proof.
  induction l as [| x l IH]; [constructor |].
  unfold RFM.sort_asc in *. cbn [foldr]. apply insert_asc_sorted, IH.
Qed.

Lemma sorted_lookup_le (l : list Q) (i j : nat) (v w : Q) :
  StronglySorted Qle l -> l !! i = Some v -> l !! j = Some w ->
  (i < j)%nat -> (v <= w)%Q.
Proof.
  intros Hsorted Hi Hj Hlt. rewrite <- (take_drop j l) in Hsorted.
  apply (StronglySorted_app_1_elem_of _ _ _ _ _ Hsorted).
  - apply (list_elem_of_lookup_2 _ i). now rewrite lookup_take_lt.
  - apply (list_elem_of_lookup_2 _ 0). rewrite lookup_drop.
    now rewrite Nat.add_0_r.
Qed.

(** The two values a quantile is interpolated between. *)
Lemma quantile_cases (sorted : list Q) (p : Q) :
  sorted <> [] -> (0 <= p <= 1)%Q ->
  exists (lo : nat) (v_lo v_hi frac : Q),
    sorted !! lo = Some v_lo
    /\ (sorted !! S lo = Some v_hi
        \/ (S lo = length sorted /\ v_hi = v_lo))
    /\ (0 <= frac < 1)%Q
    /\ RFM.quantile sorted p = (v_lo + frac * (v_hi - v_lo))%Q
    /\ ((p < 1)%Q -> (2 <= length sorted)%nat -> (S lo < length sorted)%nat).
Proof.
  intros Hne Hp. unfold RFM.quantile. cbv zeta.
  assert (Hlen : (1 <= length sorted)%nat)
    by (destruct sorted; [congruence | simpl; lia]).
  set (n := Z.of_nat (length sorted)).
  set (h := (inject_Z (n - 1) * p)%Q).
  assert (Hm : (0 <= inject_Z (n - 1))%Q).
  { change 0%Q with (inject_Z 0). rewrite <- Zle_Qle. unfold n. lia. }
  assert (Hh0 : (0 <= h)%Q) by (unfold h; nra).
  assert (Hh1 : (h <= inject_Z (n - 1))%Q) by (unfold h; nra).
  assert (Hlo0 : 0 <= Qfloor h).
  { rewrite <- (Qfloor_Z 0). apply Qfloor_resp_le, Hh0. }
  assert (Hlo1 : Qfloor h <= n - 1).
  { rewrite <- (Qfloor_Z (n - 1)). apply Qfloor_resp_le, Hh1. }
  pose proof (Qfloor_le h) as Hfl. pose proof (Qlt_floor h) as Hfu.
  rewrite inject_Z_plus in Hfu. change (inject_Z 1) with 1%Q in Hfu.
  destruct (lookup_lt_is_Some_2 sorted (Z.to_nat (Qfloor h))) as [v_lo Hv_lo];
    [unfold n in Hlo1; lia |].
  rewrite (nth_lookup_Some _ _ _ _ Hv_lo).
  exists (Z.to_nat (Qfloor h)), v_lo,
         (nth (Z.to_nat (Qfloor h) + 1) sorted v_lo),
         (h - inject_Z (Qfloor h))%Q.
  split; [exact Hv_lo |]. split; [| split; [| split]].
  - replace (Z.to_nat (Qfloor h) + 1)%nat with (S (Z.to_nat (Qfloor h)))
      by lia.
    destruct (sorted !! S (Z.to_nat (Qfloor h))) as [v_hi |] eqn:Hv_hi.
    + left. f_equal. symmetry. now apply nth_lookup_Some.
    + right. apply lookup_ge_None in Hv_hi. split; [unfold n in Hlo1; lia |].
      rewrite nth_lookup. now rewrite (lookup_ge_None_2 _ _ Hv_hi).
  - lra.
  - reflexivity.
  - intros Hp1 Hlen2.
    assert (Hlt : (h < inject_Z (n - 1))%Q).
    { unfold h.
      assert (Hpos : (1 <= inject_Z (n - 1))%Q).
      { change 1%Q with (inject_Z 1). rewrite <- Zle_Qle. unfold n. lia. }
      nra. }
    assert (Hfloor : (inject_Z (Qfloor h) < inject_Z (n - 1))%Q) by lra.
    rewrite <- Zlt_Qlt in Hfloor. unfold n in Hfloor. lia.
Qed.

Lemma filter_none {A} (P : A -> Prop) `{!forall x, Decision (P x)}
    (l : list A) :
  Forall (fun x => ~ P x) l -> filter P l = [].
Proof.
  induction 1 as [| x l Hx _ IH]; [reflexivity |].
  now rewrite filter_cons_False.
Qed.

Lemma filter_length_pos {A} (P : A -> Prop) `{!forall x, Decision (P x)}
    (l : list A) (x : A) :
  x ∈ l -> P x -> (1 <= length (filter P l))%nat.
Proof.
  intros Hx HP.
  assert (Hin : x ∈ filter P l) by (apply list_elem_of_filter; auto).
  destruct (filter P l); [inversion Hin | simpl; lia].
Qed.

(** When one value of a column is above all the others, every position
    of the sorted column but the last holds a smaller value. *)
Lemma unique_max_sorted (revs : list Q) (i : nat) (top : Q) :
  revs !! i = Some top ->
  (forall j v, revs !! j = Some v -> j <> i -> (v < top)%Q) ->
  forall k v, RFM.sort_asc revs !! k = Some v ->
              (S k < length revs)%nat -> (v < top)%Q.
Proof.
  intros Hi Hothers k v Hk Hlt.
  set (above := fun v : Q => Qle_bool top v = true).
  assert (Hcount : length (filter above revs) = 1%nat).
  { rewrite <- (take_drop_middle _ _ _ Hi), filter_app, filter_cons_True
      by (unfold above; apply Qle_bool_iff, Qle_refl).
    rewrite !filter_none; [reflexivity | |].
    - apply Forall_forall. intros w Hw.
      apply list_elem_of_lookup in Hw as [j Hj]. rewrite lookup_drop in Hj.
      unfold above. rewrite Qle_bool_iff.
      specialize (Hothers _ _ Hj). assert (w < top)%Q by (apply Hothers; lia).
      lra.
    - apply Forall_forall. intros w Hw.
      apply list_elem_of_lookup in Hw as [j Hj].
      apply lookup_take_Some in Hj as [Hj Hji].
      unfold above. rewrite Qle_bool_iff.
      specialize (Hothers _ _ Hj). assert (w < top)%Q by (apply Hothers; lia).
      lra. }
  pose proof (filter_Permutation above _ _ (sort_asc_Permutation revs))
    as Hperm.
  apply Permutation_length in Hperm. rewrite Hcount in Hperm.
  pose proof (Permutation_length (sort_asc_Permutation revs)) as Hlen.
  destruct (Qlt_le_dec v top) as [Hv | Hv]; [exact Hv | exfalso].
  destruct (lookup_lt_is_Some_2 (RFM.sort_asc revs) (length revs - 1))
    as [w Hw]; [lia |].
  assert (Hvw : (v <= w)%Q).
  { apply (sorted_lookup_le _ k (length revs - 1) _ _
             (sort_asc_sorted revs) Hk Hw). lia. }
  rewrite <- (take_drop (S k) (RFM.sort_asc revs)), filter_app, length_app
    in Hperm.
  assert (H1 : (1 <= length (filter above (take (S k) (RFM.sort_asc revs))))%nat).
  { apply (filter_length_pos _ _ v).
    - apply (list_elem_of_lookup_2 _ k). rewrite lookup_take_lt by lia.
      exact Hk.
    - unfold above. now apply Qle_bool_iff. }
  assert (H2 : (1 <= length (filter above (drop (S k) (RFM.sort_asc revs))))%nat).
  { apply (filter_length_pos _ _ w).
    - apply (list_elem_of_lookup_2 _ (length revs - 1 - S k)).
      rewrite lookup_drop. rewrite <- Hw. f_equal. lia.
    - unfold above. apply Qle_bool_iff. lra. }
  lia.
Qed.

Lemma sort_asc_nonempty (l : list Q) : l <> [] -> RFM.sort_asc l <> [].
Proof.
  intros Hne Hnil. pose proof (sort_asc_Permutation l) as Hperm.
  rewrite Hnil in Hperm. apply Permutation_nil_l in Hperm. auto.
Qed.

Lemma threshold_is_quantile (df : list DataPrep.raw_row) :
  df <> [] ->
  DataPrep.revenue_threshold df
  = Finite (RFM.quantile (RFM.sort_asc (DataPrep.Revenue <$> df))
                         (999 # 1000)).
Proof. destruct df; [congruence | reflexivity]. Qed.

Lemma elem_of_remove_outliers (df : list DataPrep.raw_row)
    (row : DataPrep.raw_row) (q : Q) :
  DataPrep.revenue_threshold df = Finite q ->
  row ∈ DataPrep.remove_outliers df
  <-> row ∈ df /\ (DataPrep.Revenue row <= q)%Q.
Proof.
  intros Hq. unfold DataPrep.remove_outliers. cbv zeta.
  rewrite Hq, list_elem_of_filter. cbn [fle]. rewrite Qle_bool_iff. tauto.
Qed.

(** The threshold is not below some revenue of the table. *)
Lemma threshold_lower (df : list DataPrep.raw_row) :
  df <> [] ->
  exists q v,
    DataPrep.revenue_threshold df = Finite q
    /\ v ∈ DataPrep.Revenue <$> df /\ (v <= q)%Q.
Proof.
  intros Hne. rewrite threshold_is_quantile by exact Hne.
  set (revs := DataPrep.Revenue <$> df).
  assert (Hrevs : revs <> [])
    by (intros Hnil; apply fmap_nil_inv in Hnil; contradiction).
  destruct (quantile_cases (RFM.sort_asc revs) (999 # 1000))
    as (lo & v_lo & v_hi & frac & Hlo & Hhi & Hfrac & Hq & _).
  { now apply sort_asc_nonempty. }
  { split; discriminate. }
  exists (RFM.quantile (RFM.sort_asc revs) (999 # 1000)), v_lo.
  split; [reflexivity |]. split.
  - rewrite <- (sort_asc_Permutation revs).
    eapply list_elem_of_lookup_2, Hlo.
  - rewrite Hq.
    assert (Hle : (v_lo <= v_hi)%Q).
    { destruct Hhi as [Hhi | [_ ->]]; [| apply Qle_refl].
      apply (sorted_lookup_le _ lo (S lo) _ _ (sort_asc_sorted revs) Hlo Hhi).
      lia. }
    nra.
Qed.

(** The threshold is below a revenue that is above all the others. *)
Lemma threshold_below_unique_max (df : list DataPrep.raw_row) (i : nat)
    (row : DataPrep.raw_row) :
  (2 <= length df)%nat ->
  df !! i = Some row ->
  (forall j other, df !! j = Some other -> j <> i ->
     (DataPrep.Revenue other < DataPrep.Revenue row)%Q) ->
  exists q,
    DataPrep.revenue_threshold df = Finite q
    /\ (q < DataPrep.Revenue row)%Q.
Proof.
  intros Hlen Hi Hothers.
  assert (Hne : df <> []) by (destruct df; [simpl in Hlen; lia | congruence]).
  rewrite threshold_is_quantile by exact Hne.
  set (revs := DataPrep.Revenue <$> df).
  assert (Hlen' : length revs = length df) by apply length_fmap.
  assert (Hi' : revs !! i = Some (DataPrep.Revenue row))
    by (unfold revs; now rewrite list_lookup_fmap, Hi).
  assert (Hothers' : forall j v, revs !! j = Some v -> j <> i ->
                       (v < DataPrep.Revenue row)%Q).
  { intros j v Hj Hji. unfold revs in Hj. rewrite list_lookup_fmap in Hj.
    destruct (df !! j) as [other |] eqn:Hother; [| discriminate].
    injection Hj as <-. now apply (Hothers j). }
  pose proof (Permutation_length (sort_asc_Permutation revs)) as Hsorted_len.
  destruct (quantile_cases (RFM.sort_asc revs) (999 # 1000))
    as (lo & v_lo & v_hi & frac & Hlo & Hhi & Hfrac & Hq & Hinside).
  { apply sort_asc_nonempty. intros Hnil. apply fmap_nil_inv in Hnil.
    contradiction. }
  { split; discriminate. }
  assert (Hin : (S lo < length revs)%nat).
  { rewrite <- Hsorted_len. apply Hinside; [reflexivity | lia]. }
  eexists. split; [reflexivity |]. rewrite Hq.
  assert (Hv_lo : (v_lo < DataPrep.Revenue row)%Q)
    by exact (unique_max_sorted _ _ _ Hi' Hothers' _ _ Hlo Hin).
  assert (Hv_hi : (v_hi <= DataPrep.Revenue row)%Q).
  { destruct Hhi as [Hhi | [Hend _]]; [| lia].
    assert (Hmem : v_hi ∈ revs).
    { rewrite <- (sort_asc_Permutation revs).
      eapply list_elem_of_lookup_2, Hhi. }
    apply list_elem_of_lookup in Hmem as [j Hj].
    destruct (decide (j = i)) as [-> | Hji].
    - rewrite Hi' in Hj. injection Hj as <-. apply Qle_refl.
    - apply Qlt_le_weak. now apply (Hothers' j). }
  nra.
Qed.

Lemma elem_of_valid_rows (df : list DataPrep.raw_row)
    (row : DataPrep.raw_row) :
  row ∈ DataPrep.positive_only
          (DataPrep.drop_missing_customers (DataPrep.remove_cancelled df)) ->
  DataPrep.cancelled row = false
  /\ is_Some (DataPrep.CustomerID row)
  /\ 0 < DataPrep.Quantity row
  /\ (0 < DataPrep.UnitPrice row)%Q
  /\ (0 < DataPrep.Revenue row)%Q.
Proof.
  unfold DataPrep.positive_only, DataPrep.drop_missing_customers,
    DataPrep.remove_cancelled.
  rewrite !list_elem_of_filter. intros (Hpos & Hcustomer & Hcancelled & _).
  apply andb_true_iff in Hpos as [Hquantity Hprice].
  apply Z.ltb_lt in Hquantity. apply Qltb_true in Hprice.
  repeat (split; [assumption |]).
  unfold DataPrep.Revenue. apply Qmult_lt_0_compat; [| exact Hprice].
  change 0%Q with (inject_Z 0). now rewrite <- Zlt_Qlt.
Qed.

(** X30.  The cleaning keeps only rows that are no cancellations and
    have a customer, a positive quantity and a positive unit price, hence
    a positive revenue.  Among the rows that pass these tests, the
    outlier filter keeps every row of smallest revenue, so that a table
    with such a row is never emptied; and when there are at least two of
    them it removes a row whose revenue is above all the others. *)
Theorem cleaning_keeps_positive_rows_and_drops_the_top
    (df : list DataPrep.raw_row) :
  let valid :=
    DataPrep.positive_only
      (DataPrep.drop_missing_customers (DataPrep.remove_cancelled df)) in
  Forall (fun row => DataPrep.cancelled row = false
                     /\ is_Some (DataPrep.CustomerID row)
                     /\ 0 < DataPrep.Quantity row
                     /\ (0 < DataPrep.UnitPrice row)%Q
                     /\ (0 < DataPrep.Revenue row)%Q)
         (DataPrep.clean df)
  /\ (valid <> [] -> DataPrep.clean df <> [])
  /\ (forall row,
        row ∈ valid ->
        (forall other, other ∈ valid ->
           (DataPrep.Revenue row <= DataPrep.Revenue other)%Q) ->
        row ∈ DataPrep.clean df)
  /\ (forall i row,
        (2 <= length valid)%nat ->
        valid !! i = Some row ->
        (forall j other, valid !! j = Some other -> j <> i ->
           (DataPrep.Revenue other < DataPrep.Revenue row)%Q) ->
        row ∉ DataPrep.clean df).
Proof.
  cbv zeta. unfold DataPrep.clean.
  set (valid := DataPrep.positive_only
                  (DataPrep.drop_missing_customers
                     (DataPrep.remove_cancelled df))).
  split; [| split; [| split]].
  - apply Forall_forall. intros row Hrow. apply (elem_of_valid_rows df).
    fold valid. unfold DataPrep.remove_outliers in Hrow.
    now apply list_elem_of_filter in Hrow as [_ Hrow].
  - intros Hne.
    destruct (threshold_lower valid Hne) as (q & v & Hq & Hv & Hvq).
    apply list_elem_of_fmap in Hv as (row & -> & Hrow).
    assert (Hin : row ∈ DataPrep.remove_outliers valid)
      by (apply (elem_of_remove_outliers _ _ _ Hq); auto).
    intros Hnil. rewrite Hnil in Hin. inversion Hin.
  - intros row Hrow Hmin.
    assert (Hne : valid <> []) by (intros Hnil; rewrite Hnil in Hrow; inversion Hrow).
    destruct (threshold_lower valid Hne) as (q & v & Hq & Hv & Hvq).
    apply list_elem_of_fmap in Hv as (other & -> & Hother).
    apply (elem_of_remove_outliers _ _ _ Hq). split; [exact Hrow |].
    specialize (Hmin other Hother). lra.
  - intros i row Hlen Hi Hothers Hin.
    destruct (threshold_below_unique_max valid i row Hlen Hi Hothers)
      as (q & Hq & Hlt).
    destruct (proj1 (elem_of_remove_outliers _ _ _ Hq) Hin) as [_ Hle]. lra.
Qed.

(** Of the six sample rows two pass the tests; the sale of 15.30 is kept
    and the sale of 54.08 is removed as an outlier. *)
Lemma cleaning_keeps_positive_rows_and_drops_the_top_witness :
  DataPrep.clean DataPrep.sample_rows <> []
  /\ DataPrep.mkRaw "536367" (Some 13047) 32 (169 # 100)
     ∉ DataPrep.clean DataPrep.sample_rows.
Proof.
  destruct (cleaning_keeps_positive_rows_and_drops_the_top
              DataPrep.sample_rows) as (_ & Hnonempty & _ & Htop).
  split.
  - apply Hnonempty. intros Hnil. vm_compute in Hnil. discriminate Hnil.
  - apply (Htop 1%nat).
    + vm_compute. lia.
    + reflexivity.
    + intros j other Hj Hji. destruct j as [| [| j]]; [| congruence |].
      * vm_compute in Hj. injection Hj as <-. reflexivity.
      * vm_compute in Hj. discriminate Hj.
Defined.
